(** * groupcache: duplicate call suppression and the LRU cache

    A shallow embedding of [singleflight.Group.Do] and of the [lru.Cache]
    operations, with the properties their specification states.

    Go values of type [interface{}] are modelled as [option V] ([None] is
    the nil interface), errors as [option E], [int] as [Z].  Pointers are
    positive numbers into an explicit heap, so that the aliasing between
    the cache's map and its list is the one the Go code has. *)

From stdpp Require Import gmap strings list fin_maps sorting.
From Stdlib Require Import ZArith Lia.

Set Default Proof Using "Type".

(* ===================================================================== *)
(** * Package singleflight                                                *)
(* ===================================================================== *)

Module SingleFlight.

Section Group.
(** [V] and [E] carry the non-nil values and errors, [W] is the state the
    caller-supplied functions act upon. *)
Context {V E W : Type}.

(** What [fn] returns: [(interface{}, error)]. *)
Definition result : Type := option V * option E.

(** A [func() (interface{}, error)]: its effect on the environment and its
    result.  The run of [fn] is one step of the goroutine that calls it. *)
Definition func : Type := W → result * W.

(** A [*call]. *)
Definition ptr := positive.

(** [wg] is the counter of the [sync.WaitGroup]. *)
Record call := mk_call { wg : nat; val : option V; err : option E }.

(** Where a goroutine stands in [Do]; the number is the line of the
    statement it executes next, [c] its local variable. *)
Inductive pc :=
| L52                (* g.mu.Lock() *)
| L53                (* if g.m == nil { g.m = make(map[string]*call) } *)
| L57                (* if c, ok := g.m[key]; ok *)
| L58 (c : ptr)      (* g.mu.Unlock() *)
| L59 (c : ptr)      (* c.wg.Wait() *)
| L60 (c : ptr)      (* return c.val, c.err *)
| L63                (* c := new(call) *)
| L64 (c : ptr)      (* c.wg.Add(1) *)
| L65 (c : ptr)      (* g.m[key] = c *)
| L66 (c : ptr)      (* g.mu.Unlock() *)
| L69 (c : ptr)      (* c.val, c.err = fn() *)
| L70 (c : ptr)      (* c.wg.Done() *)
| L73 (c : ptr)      (* g.mu.Lock() *)
| L74 (c : ptr)      (* delete(g.m, key) *)
| L75 (c : ptr)      (* g.mu.Unlock() *)
| L78 (c : ptr)      (* return c.val, c.err *)
| Returned (r : result)
| Panicked.

(** A goroutine running [g.Do(key, fn)]. *)
Record goroutine := mk_goroutine { key : string; fn : func; at_pc : pc }.

(** What happened, for the statements the specification talks about;
    the log is not part of the Go state. *)
Inductive event :=
| EvLookup (t : nat) (k : string) (found : option ptr)      (* line 57 *)
| EvExec (t : nat) (k : string) (c : ptr) (r : result)      (* line 69 *)
| EvDone (t : nat) (k : string) (c : ptr)                   (* line 70 *)
| EvDelete (t : nat) (k : string) (c : ptr)                 (* line 74 *)
| EvReturn (t : nat) (k : string) (c : ptr) (r : result).   (* lines 60, 78 *)

(** The [Group] ([mu], [m]), the heap of calls, the goroutines, the
    environment of the functions, and the log, newest event first. *)
Record State := mk_State {
  mu : bool;
  m : option (gmap string ptr);
  heap : gmap ptr call;
  threads : list goroutine;
  env : W;
  trace : list event
}.

Definition goto (t : nat) (th : goroutine) (p : pc) (ts : list goroutine) :
    list goroutine :=
  <[t := mk_goroutine (key th) (fn th) p]> ts.

(** One statement of goroutine [t].  A goroutine that waits for the mutex
    or for the WaitGroup, or that is done, leaves the state as it is. *)
Definition step (t : nat) (s : State) : State :=
  match threads s !! t with
  | None => s
  | Some th =>
      let jump p := goto t th p (threads s) in
      match at_pc th with
      | L52 =>
          if mu s then s
          else mk_State true (m s) (heap s) (jump L53) (env s) (trace s)
      | L53 =>
          let m' := match m s with None => Some ∅ | Some mp => Some mp end in
          mk_State (mu s) m' (heap s) (jump L57) (env s) (trace s)
      | L57 =>
          match m s ≫= (.!! key th) with
          | Some c =>
              mk_State (mu s) (m s) (heap s) (jump (L58 c)) (env s)
                (EvLookup t (key th) (Some c) :: trace s)
          | None =>
              mk_State (mu s) (m s) (heap s) (jump L63) (env s)
                (EvLookup t (key th) None :: trace s)
          end
      | L58 c =>
          if mu s
          then mk_State false (m s) (heap s) (jump (L59 c)) (env s) (trace s)
          else mk_State (mu s) (m s) (heap s) (jump Panicked) (env s) (trace s)
      | L59 c =>
          match heap s !! c with
          | Some cl =>
              if decide (wg cl = 0)
              then mk_State (mu s) (m s) (heap s) (jump (L60 c)) (env s) (trace s)
              else s
          | None => mk_State (mu s) (m s) (heap s) (jump Panicked) (env s) (trace s)
          end
      | L60 c | L78 c =>
          match heap s !! c with
          | Some cl =>
              mk_State (mu s) (m s) (heap s) (jump (Returned (val cl, err cl)))
                (env s) (EvReturn t (key th) c (val cl, err cl) :: trace s)
          | None => mk_State (mu s) (m s) (heap s) (jump Panicked) (env s) (trace s)
          end
      | L63 =>
          let c := fresh (dom (heap s)) in
          mk_State (mu s) (m s) (<[c := mk_call 0 None None]> (heap s))
            (jump (L64 c)) (env s) (trace s)
      | L64 c =>
          match heap s !! c with
          | Some cl =>
              mk_State (mu s) (m s)
                (<[c := mk_call (wg cl + 1) (val cl) (err cl)]> (heap s))
                (jump (L65 c)) (env s) (trace s)
          | None => mk_State (mu s) (m s) (heap s) (jump Panicked) (env s) (trace s)
          end
      | L65 c =>
          match m s with
          | Some mp =>
              mk_State (mu s) (Some (<[key th := c]> mp)) (heap s) (jump (L66 c))
                (env s) (trace s)
          | None => mk_State (mu s) (m s) (heap s) (jump Panicked) (env s) (trace s)
          end
      | L66 c =>
          if mu s
          then mk_State false (m s) (heap s) (jump (L69 c)) (env s) (trace s)
          else mk_State (mu s) (m s) (heap s) (jump Panicked) (env s) (trace s)
      | L69 c =>
          let '(r, w') := fn th (env s) in
          match heap s !! c with
          | Some cl =>
              mk_State (mu s) (m s) (<[c := mk_call (wg cl) r.1 r.2]> (heap s))
                (jump (L70 c)) w' (EvExec t (key th) c r :: trace s)
          | None => mk_State (mu s) (m s) (heap s) (jump Panicked) w' (trace s)
          end
      | L70 c =>
          match heap s !! c with
          | Some cl =>
              match wg cl with
              | S n =>
                  mk_State (mu s) (m s) (<[c := mk_call n (val cl) (err cl)]> (heap s))
                    (jump (L73 c)) (env s) (EvDone t (key th) c :: trace s)
              | O => mk_State (mu s) (m s) (heap s) (jump Panicked) (env s) (trace s)
              end
          | None => mk_State (mu s) (m s) (heap s) (jump Panicked) (env s) (trace s)
          end
      | L73 c =>
          if mu s then s
          else mk_State true (m s) (heap s) (jump (L74 c)) (env s) (trace s)
      | L74 c =>
          mk_State (mu s) (delete (key th) <$> m s) (heap s) (jump (L75 c)) (env s)
            (EvDelete t (key th) c :: trace s)
      | L75 c =>
          if mu s
          then mk_State false (m s) (heap s) (jump (L78 c)) (env s) (trace s)
          else mk_State (mu s) (m s) (heap s) (jump Panicked) (env s) (trace s)
      | Returned _ | Panicked => s
      end
  end.

(** The goroutines take their steps in the order the schedule gives. *)
Fixpoint run (sched : list nat) (s : State) : State :=
  match sched with
  | [] => s
  | t :: sched => run sched (step t s)
  end.

(** A zero-value [Group] and one goroutine per call of [Do], none of which
    has taken a step. *)
Definition init (calls : list (string * func)) (w : W) : State :=
  mk_State false None ∅ ((λ kf, mk_goroutine kf.1 kf.2 L52) <$> calls) w [].

(** ** What the specification talks about *)

(** The goroutine is between a [Lock] and the [Unlock] that follows. *)
Definition holds (p : pc) : bool :=
  match p with
  | L53 | L57 | L58 _ | L63 | L64 _ | L65 _ | L66 _ | L74 _ | L75 _ => true
  | _ => false
  end.

(** The call the goroutine allocated. *)
Definition own (p : pc) : option ptr :=
  match p with
  | L64 c | L65 c | L66 c | L69 c | L70 c | L73 c | L74 c | L75 c | L78 c => Some c
  | _ => None
  end.

(** The places in [Do] at which the call [c] is in the map. *)
Definition registrant (p : pc) (c : ptr) : Prop :=
  p = L66 c ∨ p = L69 c ∨ p = L70 c ∨ p = L73 c ∨ p = L74 c.

(** The goroutine relies on what it knows of [g.m[key]]. *)
Definition reads_map (p : pc) : bool :=
  match p with
  | L63 | L64 _ | L65 _ | L66 _ | L69 _ | L70 _ | L73 _ | L74 _ | L75 _ => true
  | _ => false
  end.

(** [g.m[k]] *)
Definition lookup_key (s : State) (k : string) : option ptr :=
  m s ≫= (.!! k).

(** The goroutines that ran their function, and the calls they ran it for,
    newest first. *)
Definition exec_threads (tr : list event) : list nat :=
  omap (λ e, match e with EvExec t _ _ _ => Some t | _ => None end) tr.
Definition exec_calls (tr : list event) : list ptr :=
  omap (λ e, match e with EvExec _ _ c _ => Some c | _ => None end) tr.

(** The executions of a function for key [k], newest first. *)
Definition is_exec (k : string) (e : event) : bool :=
  match e with EvExec _ k' _ _ => bool_decide (k' = k) | _ => false end.
Definition executions (k : string) (tr : list event) : list event :=
  filter (λ e, is_exec k e = true) tr.

(** The function of call [c] for key [k] has returned [r] and the
    WaitGroup of [c] is released. *)
Definition finished (s : State) (k : string) (c : ptr) (r : result) : Prop :=
  heap s !! c = Some (mk_call 0 r.1 r.2) ∧ ∃ t, EvExec t k c r ∈ trace s.

(** The goroutine that registered [c] for key [k] has not released the
    WaitGroup yet. *)
Definition in_flight (s : State) (k : string) (c : ptr) : Prop :=
  ∃ t th, threads s !! t = Some th ∧ key th = k ∧
    (at_pc th = L66 c ∨ at_pc th = L69 c ∨ at_pc th = L70 c).

(** [c] is in the map under [k] and its WaitGroup is released. *)
Definition released_in_map (s : State) (k : string) (c : ptr) : Prop :=
  lookup_key s k = Some c ∧ ∃ t, EvDone t k c ∈ trace s.

(** In the log [tr] no goroutine looks [k] up after the call of [k] was
    deleted from the map: the callers for [k] all arrive while the call
    is registered, or before it is. *)
Fixpoint arrivals_before_removal (k : string) (tr : list event) : bool :=
  match tr with
  | [] => true
  | EvLookup _ k' _ :: tr' =>
      (if bool_decide (k' = k)
       then forallb (λ e, match e with
                          | EvDelete _ k'' _ => negb (bool_decide (k'' = k))
                          | _ => true
                          end) tr'
       else true)
      && arrivals_before_removal k tr'
  | _ :: tr' => arrivals_before_removal k tr'
  end.

(** The calls of [Do] the goroutines of [s] run: key and function. *)
Definition callers (s : State) : list (string * func) :=
  (λ th, (key th, fn th)) <$> threads s.

(** Goroutine [t] runs [Do(k, _)] and stands at [p]. *)
Definition at_line (s : State) (t : nat) (k : string) (p : pc) : Prop :=
  ∃ f, threads s !! t = Some (mk_goroutine k f p).

(** The call of [k] was never deleted from the map. *)
Definition no_removal (k : string) (tr : list event) : Prop :=
  ∀ t c, EvDelete t k c ∉ tr.

(** The goroutine found no call for its key and has not put its own into
    the map yet. *)
Definition registering (p : pc) : Prop :=
  p = L63 ∨ ∃ c, p = L64 c ∨ p = L65 c.

(** When the callers for [k] arrive before the call is removed, only one
    of them finds the map without a call for [k]; and until the removal
    it is about to register its call, or the call is in the map. *)
Record arrival_inv (k : string) (s : State) : Prop := {
  ai_unique : ∀ t1 t2,
    EvLookup t1 k None ∈ trace s → EvLookup t2 k None ∈ trace s → t1 = t2;
  ai_window : no_removal k (trace s) → ∀ t, EvLookup t k None ∈ trace s →
    (∃ th, threads s !! t = Some th ∧ key th = k ∧ registering (at_pc th)) ∨
    is_Some (lookup_key s k)
}.

(** What holds of goroutine [t], running [Do(k, _)], at [p]. *)
Definition pc_ok (s : State) (t : nat) (k : string) (p : pc) : Prop :=
  match p with
  | L52 | L53 => t ∉ exec_threads (trace s)
  | L57 => is_Some (m s) ∧ t ∉ exec_threads (trace s)
  | L58 c | L59 c =>
      (in_flight s k c ∨ ∃ r, finished s k c r) ∧ t ∉ exec_threads (trace s)
  | L60 c => (∃ r, finished s k c r) ∧ t ∉ exec_threads (trace s)
  | L63 =>
      is_Some (m s) ∧ lookup_key s k = None ∧
      EvLookup t k None ∈ trace s ∧ t ∉ exec_threads (trace s)
  | L64 c =>
      is_Some (m s) ∧ lookup_key s k = None ∧
      heap s !! c = Some (mk_call 0 None None) ∧ (c ∉ exec_calls (trace s)) ∧
      EvLookup t k None ∈ trace s ∧ t ∉ exec_threads (trace s)
  | L65 c =>
      is_Some (m s) ∧ lookup_key s k = None ∧
      heap s !! c = Some (mk_call 1 None None) ∧ (c ∉ exec_calls (trace s)) ∧
      EvLookup t k None ∈ trace s ∧ t ∉ exec_threads (trace s)
  | L66 c | L69 c =>
      lookup_key s k = Some c ∧
      heap s !! c = Some (mk_call 1 None None) ∧ (c ∉ exec_calls (trace s)) ∧
      EvLookup t k None ∈ trace s ∧ t ∉ exec_threads (trace s)
  | L70 c =>
      lookup_key s k = Some c ∧
      ∃ r, heap s !! c = Some (mk_call 1 r.1 r.2) ∧ EvExec t k c r ∈ trace s
  | L73 c | L74 c =>
      lookup_key s k = Some c ∧ EvDone t k c ∈ trace s ∧
      ∃ r, heap s !! c = Some (mk_call 0 r.1 r.2) ∧ EvExec t k c r ∈ trace s
  | L75 c =>
      lookup_key s k = None ∧ EvDone t k c ∈ trace s ∧ EvDelete t k c ∈ trace s ∧
      ∃ r, heap s !! c = Some (mk_call 0 r.1 r.2) ∧ EvExec t k c r ∈ trace s
  | L78 c =>
      EvDone t k c ∈ trace s ∧ EvDelete t k c ∈ trace s ∧
      ∃ r, heap s !! c = Some (mk_call 0 r.1 r.2) ∧ EvExec t k c r ∈ trace s
  | Returned r =>
      ∃ c, EvReturn t k c r ∈ trace s ∧
        ((EvExec t k c r ∈ trace s ∧ EvDelete t k c ∈ trace s) ∨
         ((t ∉ exec_threads (trace s)) ∧ ∃ t', EvExec t' k c r ∈ trace s))
  | Panicked => False
  end.

(** The invariant of the states [run] reaches from [init]. *)
Record Inv (s : State) : Prop := {
  inv_free : mu s = false →
    ∀ t th, threads s !! t = Some th → holds (at_pc th) = false;
  inv_excl : ∀ t1 t2 th1 th2,
    threads s !! t1 = Some th1 → threads s !! t2 = Some th2 →
    holds (at_pc th1) = true → holds (at_pc th2) = true → t1 = t2;
  inv_own : ∀ t1 t2 th1 th2 c,
    threads s !! t1 = Some th1 → threads s !! t2 = Some th2 →
    own (at_pc th1) = Some c → own (at_pc th2) = Some c → t1 = t2;
  inv_map : ∀ k c, lookup_key s k = Some c →
    ∃ t th, threads s !! t = Some th ∧ key th = k ∧ registrant (at_pc th) c;
  inv_pc : ∀ t th, threads s !! t = Some th → pc_ok s t (key th) (at_pc th);
  inv_exec_threads : NoDup (exec_threads (trace s));
  inv_exec_calls : NoDup (exec_calls (trace s));
  inv_exec_heap : ∀ c, c ∈ exec_calls (trace s) → is_Some (heap s !! c);
  inv_exec_genuine : ∀ t k c r, EvExec t k c r ∈ trace s →
    EvLookup t k None ∈ trace s ∧
    ∃ th w0, threads s !! t = Some th ∧ key th = k ∧ (fn th w0).1 = r;
  inv_return : ∀ t k c r, EvReturn t k c r ∈ trace s →
    ∃ t', EvExec t' k c r ∈ trace s;
  inv_arrivals : ∀ k, arrivals_before_removal k (trace s) = true → arrival_inv k s
}.

(** ** What the proofs maintain *)

(** How a state [s'] may differ from [s] without disturbing what is known
    of a goroutine at [p] that works for key [k]. *)
Record frame (s s' : State) (k : string) (p : pc) : Prop := {
  fr_m : is_Some (m s) → is_Some (m s');
  fr_key : reads_map p = true → lookup_key s' k = lookup_key s k;
  fr_heap : ∀ c, own p = Some c → heap s' !! c = heap s !! c;
  fr_trace : ∀ e, e ∈ trace s → e ∈ trace s';
  fr_calls : ∀ c, own p = Some c → c ∉ exec_calls (trace s) → c ∉ exec_calls (trace s');
  fr_flight : ∀ c, in_flight s k c ∨ (∃ r, finished s k c r) →
                   in_flight s' k c ∨ (∃ r, finished s' k c r);
  fr_finished : ∀ c r, finished s k c r → finished s' k c r
}.

(** The ways a step may change who holds the mutex. *)
Definition mutex_move (held held' : bool) (mu0 mu1 : bool) : Prop :=
  (held' = held ∧ mu1 = mu0) ∨
  (held = false ∧ held' = true ∧ mu0 = false ∧ mu1 = true) ∨
  (held = true ∧ held' = false ∧ mu1 = false).

(** ** What the proofs of progress and of the replay of the log use *)

(** The statement at [p] can be executed in [s]: the mutex is free for a
    [Lock], the counter is zero for a [Wait], and the goroutine has not
    left [Do]. *)
Definition enabled (s : State) (p : pc) : Prop :=
  match p with
  | L52 | L73 _ => mu s = false
  | L59 c => ∃ cl, heap s !! c = Some cl ∧ wg cl = 0
  | Returned _ | Panicked => False
  | _ => True
  end.

(** The environment the executions logged in [tr] (newest first) make of
    [w], each function run on what the one before it left. *)
Fixpoint replay (calls : list (string * func)) (tr : list event)
    (w : W) : W :=
  match tr with
  | [] => w
  | EvExec t _ _ _ :: tr' =>
      match calls !! t with
      | Some (_, f) => (f (replay calls tr' w)).2
      | None => replay calls tr' w
      end
  | _ :: tr' => replay calls tr' w
  end.

(** The most statements of [Do] a goroutine at [p] has yet to execute. *)
Definition remaining (p : pc) : nat :=
  match p with
  | L52 => 13 | L53 => 12 | L57 => 11
  | L58 _ => 3 | L59 _ => 2 | L60 _ => 1
  | L63 => 10 | L64 _ => 9 | L65 _ => 8 | L66 _ => 7
  | L69 _ => 6 | L70 _ => 5
  | L73 _ => 4 | L74 _ => 3 | L75 _ => 2 | L78 _ => 1
  | Returned _ | Panicked => 0
  end.

(** The same for all the goroutines of [s] together. *)
Definition work_left (s : State) : nat :=
  sum_list ((λ th, remaining (at_pc th)) <$> threads s).

(** A locked mutex has a holder. *)
Definition lock_held (s : State) : Prop :=
  mu s = true → ∃ t th, threads s !! t = Some th ∧ holds (at_pc th) = true.

(** Every caller has returned from [Do]. *)
Definition all_returned (s : State) : Prop :=
  ∀ t th, threads s !! t = Some th → ∃ r, at_pc th = Returned r.

(** The environment of [s] is what the executions of its log make of [w],
    and each logged execution is the function of its caller, run on what
    the executions before it left. *)
Definition replayed (calls : list (string * func)) (w : W) (s : State) : Prop :=
  env s = replay calls (trace s) w ∧
  ∀ tr1 tr2 t k c r, trace s = tr2 ++ EvExec t k c r :: tr1 →
    ∃ f, calls !! t = Some (k, f) ∧
      f (replay calls tr1 w) = (r, replay calls (EvExec t k c r :: tr1) w).

End Group.

Arguments call : clear implicits.
Arguments pc : clear implicits.
Arguments event : clear implicits.
Arguments goroutine : clear implicits.
Arguments State : clear implicits.

(** ** Sample callers and schedules *)

(** A function that returns how many functions ran before it, and no error. *)
Definition count_runs : @func nat string nat :=
  λ n, ((Some n, None), S n).

(** A function that fails. *)
Definition failing : @func nat string nat :=
  λ n, ((None, Some "boom"), S n).

(** Two calls of Do for the same key. *)
Definition two_callers : list (string * @func nat string nat) :=
  [("k", count_runs); ("k", count_runs)].

(** Three calls of Do for key k, one for key j. *)
Definition three_and_one : list (string * @func nat string nat) :=
  [("k", failing); ("k", failing); ("k", failing); ("j", count_runs)].

(** Caller 0 registers its call and is about to run its function; callers
    1 and 2 arrive and wait; caller 3 runs alone; then 0, 1 and 2 finish. *)
Definition overlapping : list nat :=
  replicate 7 0 ++ replicate 4 1 ++ replicate 4 2 ++ replicate 13 3 ++
  replicate 6 0 ++ replicate 2 1 ++ replicate 2 2.

End SingleFlight.

(* ===================================================================== *)
(** * Package lru                                                         *)
(* ===================================================================== *)

Module LRU.

Section Cache.
(** [Key] is any comparable Go value; equality on it is decidable and
    reflexive.  [V] carries the non-nil values, [W] is the part of the
    program state the eviction callback acts upon. *)
Context {Key : Type} `{Countable Key} {V W : Type}.

(** A [*list.Element]; its [Value] field holds the [*entry] found at the
    same address in [elems]. *)
Definition Element := positive.

Record entry := mk_entry { key : Key; value : option V }.

Record Cache := mk_Cache {
  MaxEntries : Z;
  OnEvicted : option (Key → option V → W → W);
  ll : option (list Element);
  cache : option (gmap Key Element);
  (** the heap cells the list elements point to *)
  elems : gmap Element entry;
  (** the state outside the cache, touched only by [OnEvicted] *)
  env : W
}.

Definition set_ll (l : option (list Element)) (c : Cache) : Cache :=
  mk_Cache (MaxEntries c) (OnEvicted c) l (cache c) (elems c) (env c).
Definition set_cache (m : option (gmap Key Element)) (c : Cache) : Cache :=
  mk_Cache (MaxEntries c) (OnEvicted c) (ll c) m (elems c) (env c).
Definition set_elems (h : gmap Element entry) (c : Cache) : Cache :=
  mk_Cache (MaxEntries c) (OnEvicted c) (ll c) (cache c) h (env c).
Definition set_env (w : W) (c : Cache) : Cache :=
  mk_Cache (MaxEntries c) (OnEvicted c) (ll c) (cache c) (elems c) w.
Definition set_OnEvicted (f : option (Key → option V → W → W)) (c : Cache) : Cache :=
  mk_Cache (MaxEntries c) f (ll c) (cache c) (elems c) (env c).

(** ** container/list, as far as the cache uses it

    A [list.List] is the front-to-back sequence of its element pointers.
    A method called through a nil [*list.List] panics: the operations
    below are reached through [ll c], and [None] stands for the panic. *)

(** [l.PushFront(v)] links a newly allocated element in front. *)
Definition PushFront (e : Element) (l : list Element) : list Element := e :: l.

(** [l.Remove(e)] unlinks [e] if it is an element of [l]. *)
Definition list_Remove (e : Element) (l : list Element) : list Element :=
  filter (λ x, x ≠ e) l.

(** [l.MoveToFront(e)]; the list is not modified when [e] is not in it. *)
Definition MoveToFront (e : Element) (l : list Element) : list Element :=
  if decide (e ∈ l) then e :: list_Remove e l else l.

(** [l.Back()], nil on the empty list. *)
Definition Back (l : list Element) : option Element := last l.

(** [l.Len()] *)
Definition list_Len (l : list Element) : Z := Z.of_nat (length l).

(** ** The cache *)

Definition New (maxEntries : Z) (w : W) : Cache :=
  mk_Cache maxEntries None (Some []) (Some ∅) ∅ w.

(** The zero value [Cache{}], as [var c lru.Cache] gives it. *)
Definition zero_Cache (w : W) : Cache :=
  mk_Cache 0 None None None ∅ w.

Definition removeElement (e : Element) (c : Cache) : option Cache :=
  l ← ll c;
  let c1 := set_ll (Some (list_Remove e l)) c in
  kv ← elems c1 !! e;
  let c2 := set_cache (delete (key kv) <$> cache c1) c1 in
  match OnEvicted c2 with
  | Some f => Some (set_env (f (key kv) (value kv) (env c2)) c2)
  | None => Some c2
  end.

Definition RemoveOldest (c : Cache) : option Cache :=
  match cache c with
  | None => Some c
  | Some _ =>
      l ← ll c;
      match Back l with
      | Some ele => removeElement ele c
      | None => Some c
      end
  end.

Definition Add (k : Key) (v : option V) (c : Cache) : option Cache :=
  let c :=
    match cache c with
    | None => set_ll (Some []) (set_cache (Some ∅) c)
    | Some _ => c
    end in
  m ← cache c;
  match m !! k with
  | Some ee =>
      l ← ll c;
      let c1 := set_ll (Some (MoveToFront ee l)) c in
      kv ← elems c1 !! ee;
      Some (set_elems (<[ee := mk_entry (key kv) v]> (elems c1)) c1)
  | None =>
      l ← ll c;
      let ele := fresh (dom (elems c)) in
      let c1 := set_elems (<[ele := mk_entry k v]> (elems c))
                  (set_ll (Some (PushFront ele l)) c) in
      let c2 := set_cache (Some (<[k := ele]> m)) c1 in
      l2 ← ll c2;
      if bool_decide (MaxEntries c2 ≠ 0%Z) && bool_decide (list_Len l2 > MaxEntries c2)%Z
      then RemoveOldest c2
      else Some c2
  end.

(** [Get] returns the pair [(value, ok)] next to the updated cache. *)
Definition Get (k : Key) (c : Cache) : option (option V * bool * Cache) :=
  match cache c with
  | None => Some (None, false, c)
  | Some m =>
      match m !! k with
      | Some ele =>
          l ← ll c;
          let c1 := set_ll (Some (MoveToFront ele l)) c in
          kv ← elems c1 !! ele;
          Some (value kv, true, c1)
      | None => Some (None, false, c)
      end
  end.

Definition Remove (k : Key) (c : Cache) : option Cache :=
  match cache c with
  | None => Some c
  | Some m =>
      match m !! k with
      | Some ele => removeElement ele c
      | None => Some c
      end
  end.

Definition Len (c : Cache) : option Z :=
  match cache c with
  | None => Some 0%Z
  | Some _ => l ← ll c; Some (list_Len l)
  end.

(** ** Sequences of calls *)

Inductive op :=
| OpAdd (k : Key) (v : option V)
| OpGet (k : Key)
| OpRemove (k : Key)
| OpRemoveOldest.

Definition exec (o : op) (c : Cache) : option Cache :=
  match o with
  | OpAdd k v => Add k v c
  | OpGet k => r ← Get k c; Some r.2
  | OpRemove k => Remove k c
  | OpRemoveOldest => RemoveOldest c
  end.

Fixpoint run (os : list op) (c : Cache) : option Cache :=
  match os with
  | [] => Some c
  | o :: os => c' ← exec o c; run os c'
  end.

(** ** What the specification talks about *)

(** The key stored in the entry an element points to. *)
Definition key_at (c : Cache) (e : Element) : option Key :=
  key <$> elems c !! e.

(** The keys of the recency sequence, front to back. *)
Definition keys (c : Cache) : list Key :=
  omap (key_at c) (default [] (ll c)).

(** The entries of the recency sequence, front to back. *)
Definition items (c : Cache) : list (Key * option V) :=
  omap (λ e, (λ kv, (key kv, value kv)) <$> elems c !! e) (default [] (ll c)).

(** [Get k] finds an entry. *)
Definition hit (k : Key) (c : Cache) : Prop :=
  ∃ v c', Get k c = Some (v, true, c').

(** What the environment becomes when the callback, if there is one, is
    called with [k] and [v]. *)
Definition fire (c : Cache) (k : Key) (v : option V) : W :=
  match OnEvicted c with
  | Some f => f k v (env c)
  | None => env c
  end.

(** The lookup mapping [m] and the recency sequence [l] of [c] agree. *)
Record consistent (c : Cache) (l : list Element) (m : gmap Key Element) : Prop := {
  cons_ll : ll c = Some l;
  cons_cache : cache c = Some m;
  cons_map_list : ∀ k e, m !! k = Some e →
    key_at c e = Some k ∧ ∃ i, l !! i = Some e ∧ ∀ j, l !! j = Some e → j = i;
  cons_list_map : ∀ i e, l !! i = Some e →
    ∃ k, key_at c e = Some k ∧ m !! k = Some e;
  cons_length : length l = size m
}.

(** [Add k] and [Get k] are the accesses of [k].  A [Get k] that misses is
    counted too: the key is then absent, and must be added, hence accessed
    again, before it is in the sequence. *)
Definition touches (o : op) (k : Key) : bool :=
  match o with
  | OpAdd k' _ | OpGet k' => bool_decide (k' = k)
  | OpRemove _ | OpRemoveOldest => false
  end.

Fixpoint last_access_rev (hr : list op) (k : Key) : nat :=
  match hr with
  | [] => 0
  | o :: hr' => if touches o k then S (length hr') else last_access_rev hr' k
  end.

(** The position (from 1) in the history [h] of the last access of [k],
    0 when [k] was never accessed. *)
Definition last_access (h : list op) (k : Key) : nat :=
  last_access_rev (rev h) k.

(** Front to back, every key was accessed later than the keys behind it. *)
Definition recency_ordered (h : list op) (c : Cache) : Prop :=
  ∀ i j ki kj, i < j → keys c !! i = Some ki → keys c !! j = Some kj →
    last_access h kj < last_access h ki.

(** ** What the proofs maintain *)

(** The form of [consistent] the proofs work with. *)
Record wf (c : Cache) (l : list Element) (m : gmap Key Element) : Prop := {
  wf_ll : ll c = Some l;
  wf_cache : cache c = Some m;
  wf_nodup : NoDup l;
  wf_list : ∀ e, e ∈ l → ∃ k, key_at c e = Some k ∧ m !! k = Some e;
  wf_map : ∀ k e, m !! k = Some e → e ∈ l ∧ key_at c e = Some k
}.

(** The cache right after the new element is linked and mapped, before
    the capacity check. *)
Definition pushed (k : Key) (v : option V) (c : Cache) (l : list Element)
    (m : gmap Key Element) : Cache :=
  let ele := fresh (dom (elems c)) in
  set_cache (Some (<[k := ele]> m))
    (set_elems (<[ele := mk_entry k v]> (elems c))
       (set_ll (Some (PushFront ele l)) c)).

(** [a] was accessed after [b]. *)
Definition newer (h : list op) (a b : Key) : Prop :=
  last_access h b < last_access h a.

(** The invariant the operations maintain along a history [h]. *)
Record inv (h : list op) (c : Cache) : Prop := {
  inv_wf : ∃ l m, wf c l m;
  inv_sorted : StronglySorted (newer h) (keys c)
}.

End Cache.

Arguments entry : clear implicits.
Arguments Cache _ {_ _} _ _.
Arguments op : clear implicits.

(** ** The caches of the specification's scenarios, on string keys *)

(** New(2) with the callback [g] installed. *)
Definition two_slots {W : Type} (g : string → option Z → W → W) (w : W) :
    Cache string Z W := set_OnEvicted (Some g) (New 2%Z w).

(** The cache holding b and c, a evicted. *)
Definition after_abc {W : Type} (g : string → option Z → W → W) (w : W) :
    Cache string Z W :=
  mk_Cache 2%Z (Some g) (Some [3; 2]%positive)
    (Some (<["c" := 3%positive]> (<["b" := 2%positive]> ∅)))
    (<[3%positive := mk_entry "c" (Some 3%Z)]>
       (<[2%positive := mk_entry "b" (Some 2%Z)]>
          (<[1%positive := mk_entry "a" (Some 1%Z)]> ∅)))
    (g "a" (Some 1%Z) w).

(** The cache holding a and b, a added first. *)
Definition after_ab {W : Type} (g : string → option Z → W → W) (w : W) :
    Cache string Z W :=
  mk_Cache 2%Z (Some g) (Some [2; 1]%positive)
    (Some (<["b" := 2%positive]> (<["a" := 1%positive]> ∅)))
    (<[2%positive := mk_entry "b" (Some 2%Z)]>
       (<[1%positive := mk_entry "a" (Some 1%Z)]> ∅))
    w.

(** The cache holding c and a, b evicted. *)
Definition after_ab_geta_c {W : Type} (g : string → option Z → W → W) (w : W) :
    Cache string Z W :=
  mk_Cache 2%Z (Some g) (Some [3; 1]%positive)
    (Some (<["c" := 3%positive]> (<["a" := 1%positive]> ∅)))
    (<[3%positive := mk_entry "c" (Some 3%Z)]>
       (<[2%positive := mk_entry "b" (Some 2%Z)]>
          (<[1%positive := mk_entry "a" (Some 1%Z)]> ∅)))
    (g "b" (Some 2%Z) w).

(** A callback that records its calls, oldest first. *)
Definition log_evictions (k : string) (v : option Z)
    (w : list (string * option Z)) : list (string * option Z) :=
  w ++ [(k, v)].

(** New(0), then Add("a",1), Add("b",2), Add("c",3). *)
Definition unbounded_abc : Cache string Z (list (string * option Z)) :=
  mk_Cache 0 (Some log_evictions) (Some [3; 2; 1]%positive)
    (Some (<["c" := 3%positive]> (<["b" := 2%positive]> (<["a" := 1%positive]> ∅))))
    (<[3%positive := mk_entry "c" (Some 3%Z)]>
       (<[2%positive := mk_entry "b" (Some 2%Z)]>
          (<[1%positive := mk_entry "a" (Some 1%Z)]> ∅)))
    [].

(** New(-1), then Add("a",1): the entry was evicted by the Add that made it. *)
Definition evicted_at_once : Cache string Z (list (string * option Z)) :=
  mk_Cache (-1) (Some log_evictions) (Some []) (Some ∅)
    (<[1%positive := mk_entry "a" (Some 1%Z)]> ∅)
    [("a", Some 1%Z)].

End LRU.

(* ===================================================================== *)
(** * Package lru, keys that are not equal to themselves included         *)
(* ===================================================================== *)

(** [LRU] takes the keys of the cache to be equal to themselves.  Go's [==]
    on [interface{}] is not reflexive: a floating-point NaN, and a struct
    or array that holds one, is a comparable value that is equal to no
    value, itself included.  This module has the cache of [LRU] again,
    statement by statement, over keys of both kinds. *)

Module LRUAnyKey.

Section Cache.
(** [K] carries the keys that are equal to themselves. *)
Context {K : Type} `{Countable K} {V W : Type}.

(** A key of the cache: a value equal to itself, or one that is not.  A
    key of the second kind is equal to no key, so that the map cannot
    tell two of them apart. *)
Inductive Key := Plain (k : K) | NaN.

Record entry := mk_entry { key : Key; value : option V }.

(** A [map[interface{}]*list.Element].  No lookup and no [delete] reaches
    an entry whose key is not equal to itself, and every assignment under
    such a key adds an entry: [lost] has the elements of these entries,
    newest first.  Only [len] and [range], which the cache does not use,
    see them. *)
Record gomap := mk_gomap { found : gmap K LRU.Element; lost : list LRU.Element }.

(** [make(map[interface{}]*list.Element)] *)
Definition map_make : gomap := mk_gomap ∅ [].

(** [m[k]] *)
Definition map_lookup (k : Key) (m : gomap) : option LRU.Element :=
  match k with
  | Plain k => found m !! k
  | NaN => None
  end.

(** [m[k] = e] *)
Definition map_assign (k : Key) (e : LRU.Element) (m : gomap) : gomap :=
  match k with
  | Plain k => mk_gomap (<[k := e]> (found m)) (lost m)
  | NaN => mk_gomap (found m) (e :: lost m)
  end.

(** [delete(m, k)] *)
Definition map_delete (k : Key) (m : gomap) : gomap :=
  match k with
  | Plain k => mk_gomap (delete k (found m)) (lost m)
  | NaN => m
  end.

(** [len(m)] *)
Definition map_len (m : gomap) : nat := size (found m) + length (lost m).

Record Cache := mk_Cache {
  MaxEntries : Z;
  OnEvicted : option (Key → option V → W → W);
  ll : option (list LRU.Element);
  cache : option gomap;
  elems : gmap LRU.Element entry;
  env : W
}.

Definition set_ll (l : option (list LRU.Element)) (c : Cache) : Cache :=
  mk_Cache (MaxEntries c) (OnEvicted c) l (cache c) (elems c) (env c).
Definition set_cache (m : option gomap) (c : Cache) : Cache :=
  mk_Cache (MaxEntries c) (OnEvicted c) (ll c) m (elems c) (env c).
Definition set_elems (h : gmap LRU.Element entry) (c : Cache) : Cache :=
  mk_Cache (MaxEntries c) (OnEvicted c) (ll c) (cache c) h (env c).
Definition set_env (w : W) (c : Cache) : Cache :=
  mk_Cache (MaxEntries c) (OnEvicted c) (ll c) (cache c) (elems c) w.
Definition set_OnEvicted (f : option (Key → option V → W → W)) (c : Cache) : Cache :=
  mk_Cache (MaxEntries c) f (ll c) (cache c) (elems c) (env c).

Definition New (maxEntries : Z) (w : W) : Cache :=
  mk_Cache maxEntries None (Some []) (Some map_make) ∅ w.

Definition removeElement (e : LRU.Element) (c : Cache) : option Cache :=
  l ← ll c;
  let c1 := set_ll (Some (LRU.list_Remove e l)) c in
  kv ← elems c1 !! e;
  let c2 := set_cache (map_delete (key kv) <$> cache c1) c1 in
  match OnEvicted c2 with
  | Some f => Some (set_env (f (key kv) (value kv) (env c2)) c2)
  | None => Some c2
  end.

Definition RemoveOldest (c : Cache) : option Cache :=
  match cache c with
  | None => Some c
  | Some _ =>
      l ← ll c;
      match LRU.Back l with
      | Some ele => removeElement ele c
      | None => Some c
      end
  end.

Definition Add (k : Key) (v : option V) (c : Cache) : option Cache :=
  let c :=
    match cache c with
    | None => set_ll (Some []) (set_cache (Some map_make) c)
    | Some _ => c
    end in
  m ← cache c;
  match map_lookup k m with
  | Some ee =>
      l ← ll c;
      let c1 := set_ll (Some (LRU.MoveToFront ee l)) c in
      kv ← elems c1 !! ee;
      Some (set_elems (<[ee := mk_entry (key kv) v]> (elems c1)) c1)
  | None =>
      l ← ll c;
      let ele := fresh (dom (elems c)) in
      let c1 := set_elems (<[ele := mk_entry k v]> (elems c))
                  (set_ll (Some (LRU.PushFront ele l)) c) in
      let c2 := set_cache (Some (map_assign k ele m)) c1 in
      l2 ← ll c2;
      if bool_decide (MaxEntries c2 ≠ 0%Z) &&
         bool_decide (LRU.list_Len l2 > MaxEntries c2)%Z
      then RemoveOldest c2
      else Some c2
  end.

Definition Get (k : Key) (c : Cache) : option (option V * bool * Cache) :=
  match cache c with
  | None => Some (None, false, c)
  | Some m =>
      match map_lookup k m with
      | Some ele =>
          l ← ll c;
          let c1 := set_ll (Some (LRU.MoveToFront ele l)) c in
          kv ← elems c1 !! ele;
          Some (value kv, true, c1)
      | None => Some (None, false, c)
      end
  end.

Definition Remove (k : Key) (c : Cache) : option Cache :=
  match cache c with
  | None => Some c
  | Some m =>
      match map_lookup k m with
      | Some ele => removeElement ele c
      | None => Some c
      end
  end.

Definition Len (c : Cache) : option Z :=
  match cache c with
  | None => Some 0%Z
  | Some _ => l ← ll c; Some (LRU.list_Len l)
  end.

Inductive op :=
| OpAdd (k : Key) (v : option V)
| OpGet (k : Key)
| OpRemove (k : Key)
| OpRemoveOldest.

Definition exec (o : op) (c : Cache) : option Cache :=
  match o with
  | OpAdd k v => Add k v c
  | OpGet k => r ← Get k c; Some r.2
  | OpRemove k => Remove k c
  | OpRemoveOldest => RemoveOldest c
  end.

Fixpoint run (os : list op) (c : Cache) : option Cache :=
  match os with
  | [] => Some c
  | o :: os => c' ← exec o c; run os c'
  end.

(** The entries of the recency sequence, front to back. *)
Definition items (c : Cache) : list (Key * option V) :=
  omap (λ e, (λ kv, (key kv, value kv)) <$> elems c !! e) (default [] (ll c)).

(** ** The cache of [LRU] among these caches *)

Definition of_entry (kv : LRU.entry K V) : entry :=
  mk_entry (Plain (LRU.key kv)) (LRU.value kv).

Definition of_callback (f : K → option V → W → W) : Key → option V → W → W :=
  λ k v w, match k with Plain k => f k v w | NaN => w end.

Definition of_Cache (c : LRU.Cache K V W) : Cache :=
  mk_Cache (LRU.MaxEntries c) (of_callback <$> LRU.OnEvicted c) (LRU.ll c)
    ((λ m, mk_gomap m []) <$> LRU.cache c) (of_entry <$> LRU.elems c) (LRU.env c).

Definition of_op (o : LRU.op K V) : op :=
  match o with
  | LRU.OpAdd k v => OpAdd (Plain k) v
  | LRU.OpGet k => OpGet (Plain k)
  | LRU.OpRemove k => OpRemove (Plain k)
  | LRU.OpRemoveOldest => OpRemoveOldest
  end.

End Cache.

Arguments Key : clear implicits.
Arguments entry : clear implicits.
Arguments gomap : clear implicits.
Arguments Cache _ {_ _} _ _.
Arguments op : clear implicits.
Arguments NaN {K}.

End LRUAnyKey.

(* ===================================================================== *)
(** * Properties of singleflight.Group.Do                                 *)
(* ===================================================================== *)

Module SingleFlightFacts.
Import SingleFlight.

(* --------------------------------------------------------------------- *)
(** ** The invariant of Do and what follows from it                        *)
(* --------------------------------------------------------------------- *)

Section Safety.
Context {V E W : Type}.
Implicit Types (s : State V E W) (th : goroutine V E W) (p : pc V E).
Implicit Types (c : ptr) (k : string) (t : nat) (tr : list (event V E)).

Lemma lookup_goto t t' th p (ts : list (goroutine V E W)) :
  ts !! t = Some th →
  goto t th p ts !! t' =
    if decide (t' = t) then Some (mk_goroutine (key th) (fn th) p) else ts !! t'.
Proof.
  intros Hth. unfold goto. destruct (decide (t' = t)) as [->|Hne].
  - apply list_lookup_insert_eq. by eapply lookup_lt_Some.
  - by apply list_lookup_insert_ne.
Qed.



Lemma exec_threads_app tr1 tr2 :
  exec_threads (tr1 ++ tr2) = exec_threads tr1 ++ exec_threads tr2.
Proof. apply omap_app. Qed.

Lemma exec_calls_app tr1 tr2 :
  exec_calls (tr1 ++ tr2) = exec_calls tr1 ++ exec_calls tr2.
Proof. apply omap_app. Qed.

Lemma exec_in_threads t k c r tr : EvExec t k c r ∈ tr → t ∈ exec_threads tr.
Proof. intros He. apply list_elem_of_omap. by exists (EvExec t k c r). Qed.

Lemma exec_in_calls t k c r tr : EvExec t k c r ∈ tr → c ∈ exec_calls tr.
Proof. intros He. apply list_elem_of_omap. by exists (EvExec t k c r). Qed.

Lemma pc_ok_frame s s' t k p :
  frame s s' k p →
  (t ∉ exec_threads (trace s) → t ∉ exec_threads (trace s')) →
  pc_ok s t k p → pc_ok s' t k p.
Proof.
  intros [Hm Hkey Hheap Htr Hcalls Hfl Hfin] Hex.
  destruct p; simpl in *; try done.
  - intros [? ?]; split; auto.
  - intros [? ?]; split; auto.
  - intros [? ?]; split; auto.
  - intros [(r & Hf) ?]. split; eauto.
  - intros (? & ? & ? & ?). rewrite Hkey by done. auto.
  - intros (? & ? & ? & ? & ? & ?). rewrite Hkey, Hheap by done. auto 10.
  - intros (? & ? & ? & ? & ? & ?). rewrite Hkey, Hheap by done. auto 10.
  - intros (? & ? & ? & ? & ?). rewrite Hkey, Hheap by done. auto 10.
  - intros (? & ? & ? & ? & ?). rewrite Hkey, Hheap by done. auto 10.
  - intros (? & r & ? & ?). rewrite Hkey, Hheap by done. eauto 10.
  - intros (? & ? & r & ? & ?). rewrite Hkey, Hheap by done. eauto 10.
  - intros (? & ? & r & ? & ?). rewrite Hkey, Hheap by done. eauto 10.
  - intros (? & ? & ? & r & ? & ?). rewrite Hkey, Hheap by done. eauto 10.
  - intros (? & ? & r & ? & ?). rewrite Hheap by done. eauto 10.
  - intros (c & ? & [[? ?]|[? [t' ?]]]); exists c; split; eauto 10.
Qed.

(** ** Steps that leave the map and the heap alone *)

Lemma in_flight_goto s s' t th p' k c :
  threads s !! t = Some th →
  threads s' = goto t th p' (threads s) →
  (∀ c, at_pc th = L66 c ∨ at_pc th = L69 c ∨ at_pc th = L70 c →
        p' = L66 c ∨ p' = L69 c ∨ p' = L70 c) →
  in_flight s k c → in_flight s' k c.
Proof.
  intros Hth Hts Hp (t0 & th0 & Hth0 & Hk & Hpc).
  destruct (decide (t0 = t)) as [->|Hne].
  - assert (th0 = th) as -> by congruence.
    exists t, (mk_goroutine (key th) (fn th) p'). rewrite Hts, (lookup_goto _ _ _ _ _ Hth).
    rewrite decide_True by done. simpl. auto.
  - exists t0, th0. rewrite Hts, (lookup_goto _ _ _ _ _ Hth).
    rewrite decide_False by done. auto.
Qed.

Lemma frame_map_update s s' k p evs :
  heap s' = heap s → trace s' = evs ++ trace s → exec_calls evs = [] →
  (is_Some (m s) → is_Some (m s')) →
  (reads_map p = true → lookup_key s' k = lookup_key s k) →
  (∀ c, in_flight s k c → in_flight s' k c) →
  frame s s' k p.
Proof.
  intros Hh Htr Hevs Hm Hkey Hfl.
  assert (∀ c r, finished s k c r → finished s' k c r) as Hfin.
  { intros c r [Hc [t Ht]]. split; [by rewrite Hh|]. exists t. rewrite Htr.
    apply elem_of_app. by right. }
  split; try done.
  - intros c _. by rewrite Hh.
  - intros e He. rewrite Htr. apply elem_of_app. by right.
  - intros c _ Hc. by rewrite Htr, exec_calls_app, Hevs.
  - intros c [?|[r ?]]; eauto.
Qed.

Lemma frame_heap_update s s' k p c0 cl evs :
  m s' = m s → heap s' = <[c0 := cl]> (heap s) → trace s' = evs ++ trace s →
  (∀ c, c ∈ exec_calls evs → c = c0) →
  own p ≠ Some c0 →
  (∀ c r, finished s k c r → c ≠ c0) →
  (∀ c, in_flight s k c → in_flight s' k c ∨ ∃ r, finished s' k c r) →
  frame s s' k p.
Proof.
  intros Hm Hh Htr Hevs Hown Hfinne Hfl.
  assert (∀ c r, finished s k c r → finished s' k c r) as Hfin.
  { intros c r Hf. pose proof (Hfinne _ _ Hf) as Hne. destruct Hf as [Hc [t Ht]].
    split; [by rewrite Hh, lookup_insert_ne|]. exists t. rewrite Htr.
    apply elem_of_app. by right. }
  split; try done.
  - by rewrite Hm.
  - intros _. unfold lookup_key. by rewrite Hm.
  - intros c Hc. rewrite Hh, lookup_insert_ne; [done|]. by intros ->.
  - intros e He. rewrite Htr. apply elem_of_app. by right.
  - intros c Hc Hnin. rewrite Htr, exec_calls_app, elem_of_app.
    intros [Hin|Hin]; [|done]. apply Hevs in Hin as ->. done.
  - intros c [?|[r ?]]; eauto.
Qed.

Lemma mutex_goto s t th p' mu1 :
  Inv s → threads s !! t = Some th →
  mutex_move (holds (at_pc th)) (holds p') (mu s) mu1 →
  (mu1 = false → ∀ t' th', goto t th p' (threads s) !! t' = Some th' →
     holds (at_pc th') = false) ∧
  (∀ t1 t2 th1 th2,
     goto t th p' (threads s) !! t1 = Some th1 →
     goto t th p' (threads s) !! t2 = Some th2 →
     holds (at_pc th1) = true → holds (at_pc th2) = true → t1 = t2).
Proof.
  intros HI Hth Hmv.
  assert (∀ t' th', t' ≠ t → goto t th p' (threads s) !! t' = Some th' →
            threads s !! t' = Some th') as Hother.
  { intros t' th' Hne. by rewrite (lookup_goto _ _ _ _ _ Hth), decide_False. }
  assert (∀ th', goto t th p' (threads s) !! t = Some th' → at_pc th' = p') as Hself.
  { intros th'. rewrite (lookup_goto _ _ _ _ _ Hth), decide_True by done.
    by intros [= <-]. }
  split.
  - intros Hmu t' th' Hth'. destruct (decide (t' = t)) as [->|Hne].
    + rewrite (Hself _ Hth').
      destruct Hmv as [[-> ->]|[(_ & _ & _ & ?)|(_ & ? & _)]]; [|congruence|done].
      by eapply (inv_free _ HI).
    + pose proof (Hother _ _ Hne Hth') as Hold.
      destruct Hmv as [[_ ->]|[(_ & _ & _ & ?)|(Hh & _ & _)]]; [|congruence|].
      * by eapply (inv_free _ HI).
      * destruct (holds (at_pc th')) eqn:Hh'; [|done].
        destruct Hne. by eapply (inv_excl _ HI).
  - intros t1 t2 th1 th2 H1 H2 Hh1 Hh2.
    destruct (decide (t1 = t)) as [->|Hne1], (decide (t2 = t)) as [->|Hne2];
      try done.
    + pose proof (Hother _ _ Hne2 H2) as Hold. rewrite (Hself _ H1) in Hh1.
      destruct Hmv as [[Heq _]|[(_ & _ & Hmu & _)|(_ & ? & _)]]; [| |congruence].
      * rewrite Heq in Hh1. symmetry. by eapply (inv_excl _ HI).
      * pose proof (inv_free _ HI Hmu _ _ Hold). congruence.
    + pose proof (Hother _ _ Hne1 H1) as Hold. rewrite (Hself _ H2) in Hh2.
      destruct Hmv as [[Heq _]|[(_ & _ & Hmu & _)|(_ & ? & _)]]; [| |congruence].
      * rewrite Heq in Hh2. by eapply (inv_excl _ HI).
      * pose proof (inv_free _ HI Hmu _ _ Hold). congruence.
    + eapply (inv_excl _ HI); eauto.
Qed.

Lemma pc_ok_own_heap s t k p c :
  pc_ok s t k p → own p = Some c → is_Some (heap s !! c).
Proof.
  destruct p; simpl; intros Hok [= <-]; try done;
    repeat match goal with
           | H : _ ∧ _ |- _ => destruct H
           | H : ∃ _, _ |- _ => destruct H
           end; eauto.
Qed.

Lemma own_goto s t th p' :
  Inv s → threads s !! t = Some th →
  (own p' = own (at_pc th) ∨ own p' = None ∨
   ∃ c, own p' = Some c ∧ heap s !! c = None) →
  ∀ t1 t2 th1 th2 c,
    goto t th p' (threads s) !! t1 = Some th1 →
    goto t th p' (threads s) !! t2 = Some th2 →
    own (at_pc th1) = Some c → own (at_pc th2) = Some c → t1 = t2.
Proof.
  intros HI Hth Hown t1 t2 th1 th2 c.
  rewrite !(lookup_goto _ _ _ _ _ Hth).
  assert (∀ t' th' c', threads s !! t' = Some th' → own (at_pc th') = Some c' →
            is_Some (heap s !! c')) as Hheap.
  { intros t' th' c' Hth' Hc'. eapply pc_ok_own_heap; [|done]. by apply (inv_pc _ HI). }
  assert (∀ t' th' c', t' ≠ t → threads s !! t' = Some th' →
            own (at_pc th') = Some c' → own p' = Some c' → False) as Hclash.
  { intros t' th' c' Hne Hth' Hc' Hp'.
    destruct Hown as [Heq|[Hnone|(c0 & Hc0 & Hfresh)]].
    - rewrite Heq in Hp'. destruct Hne. eapply (inv_own _ HI); eauto.
    - congruence.
    - assert (c0 = c') as -> by congruence.
      destruct (Hheap _ _ _ Hth' Hc') as [? ?]. congruence. }
  destruct (decide (t1 = t)) as [->|Hne1], (decide (t2 = t)) as [->|Hne2];
    try done.
  - intros [= <-] H2 H1' H2'. simpl in *. destruct (Hclash _ _ _ Hne2 H2 H2' H1').
  - intros H1 [= <-] H1' H2'. simpl in *. destruct (Hclash _ _ _ Hne1 H1 H1' H2').
  - intros. eapply (inv_own _ HI); eauto.
Qed.

Lemma map_goto_keep s t th p' k c :
  threads s !! t = Some th →
  (∀ c, registrant (at_pc th) c → registrant p' c) →
  (∃ t0 th0, threads s !! t0 = Some th0 ∧ key th0 = k ∧ registrant (at_pc th0) c) →
  ∃ t0 th0, goto t th p' (threads s) !! t0 = Some th0 ∧ key th0 = k ∧
    registrant (at_pc th0) c.
Proof.
  intros Hth Hreg (t0 & th0 & Hth0 & Hk & Hp).
  destruct (decide (t0 = t)) as [->|Hne].
  - assert (th0 = th) as -> by congruence.
    exists t, (mk_goroutine (key th) (fn th) p').
    rewrite (lookup_goto _ _ _ _ _ Hth), decide_True by done. simpl. auto.
  - exists t0, th0. rewrite (lookup_goto _ _ _ _ _ Hth), decide_False by done. auto.
Qed.


Lemma arrivals_cons k e tr :
  arrivals_before_removal k (e :: tr) = true → arrivals_before_removal k tr = true.
Proof.
  destruct e; simpl; try done. by intros [_ ?]%andb_prop.
Qed.

Lemma arrivals_app k evs tr :
  arrivals_before_removal k (evs ++ tr) = true → arrivals_before_removal k tr = true.
Proof.
  induction evs as [|e evs IH]; [done|]. intros Hc%arrivals_cons. by apply IH.
Qed.

Lemma arrivals_lookup k t o tr :
  arrivals_before_removal k (EvLookup t k o :: tr) = true → no_removal k tr.
Proof.
  simpl. rewrite bool_decide_eq_true_2 by done. intros [Hall _]%andb_prop.
  intros t' c Hin. rewrite forallb_forall in Hall.
  apply list_elem_of_In, Hall in Hin. simpl in Hin.
  by rewrite bool_decide_eq_true_2 in Hin.
Qed.

(** A step that is not a lookup of [k] that finds nothing. *)
Lemma arrival_goto s s' t th p' evs k :
  threads s !! t = Some th →
  threads s' = goto t th p' (threads s) →
  trace s' = evs ++ trace s →
  (∀ t0, EvLookup t0 k None ∉ evs) →
  (registering (at_pc th) →
     registering p' ∨ (key th = k → is_Some (lookup_key s' k))) →
  (is_Some (lookup_key s k) →
     is_Some (lookup_key s' k) ∨ ¬ no_removal k (trace s')) →
  arrival_inv k s → arrival_inv k s'.
Proof.
  intros Hth Hts Htr Hevs Hreg Hkeep [Huniq Hwin].
  assert (∀ t0, EvLookup t0 k None ∈ trace s' → EvLookup t0 k None ∈ trace s) as Hold.
  { intros t0. rewrite Htr, elem_of_app. intros [Hin|Hin]; [|done].
    by apply Hevs in Hin. }
  split.
  - intros t1 t2 H1%Hold H2%Hold. by apply Huniq.
  - intros Hnr t0 H0%Hold.
    assert (no_removal k (trace s)) as Hnr0.
    { intros t1 c Hin. apply (Hnr t1 c). rewrite Htr. apply elem_of_app. by right. }
    destruct (Hwin Hnr0 _ H0) as [(th0 & Hth0 & Hk0 & Hreg0)|Hsome].
    + destruct (decide (t0 = t)) as [->|Hne].
      * assert (th0 = th) as -> by congruence.
        destruct (Hreg Hreg0) as [Hreg'|Hsome]; [|by right; apply Hsome].
        left. exists (mk_goroutine (key th) (fn th) p').
        rewrite Hts, (lookup_goto _ _ _ _ _ Hth), decide_True by done. done.
      * left. exists th0. rewrite Hts, (lookup_goto _ _ _ _ _ Hth), decide_False by done.
        done.
    + destruct (Hkeep Hsome) as [?|Hno]; [by right|]. by destruct Hno.
Qed.

Lemma goto_same_call t th p' (ts : list (goroutine V E W)) t0 th0 :
  ts !! t = Some th → ts !! t0 = Some th0 →
  ∃ th1, goto t th p' ts !! t0 = Some th1 ∧ key th1 = key th0 ∧ fn th1 = fn th0.
Proof.
  intros Hth Hth0. rewrite (lookup_goto _ _ _ _ _ Hth).
  destruct (decide (t0 = t)) as [->|Hne]; [|eauto].
  assert (th0 = th) as -> by congruence. eauto.
Qed.

Lemma inv_goto s s' t th p' evs :
  Inv s → threads s !! t = Some th →
  threads s' = goto t th p' (threads s) →
  trace s' = evs ++ trace s →
  (∀ t0 k c r, EvExec t0 k c r ∈ evs →
     t0 = t ∧ k = key th ∧ EvLookup t k None ∈ trace s ∧ ∃ w0, (fn th w0).1 = r) →
  (∀ t0 k c r, EvReturn t0 k c r ∈ evs → ∃ t', EvExec t' k c r ∈ trace s) →
  mutex_move (holds (at_pc th)) (holds p') (mu s) (mu s') →
  (own p' = own (at_pc th) ∨ own p' = None ∨
   ∃ c, own p' = Some c ∧ heap s !! c = None) →
  (∀ k c, lookup_key s' k = Some c →
     ∃ t0 th0, threads s' !! t0 = Some th0 ∧ key th0 = k ∧ registrant (at_pc th0) c) →
  (∀ t' th', t' ≠ t → threads s !! t' = Some th' →
     pc_ok s t' (key th') (at_pc th') → frame s s' (key th') (at_pc th')) →
  (∀ t', t' ≠ t → t' ∉ exec_threads (trace s) → t' ∉ exec_threads (trace s')) →
  pc_ok s' t (key th) p' →
  NoDup (exec_threads (trace s')) → NoDup (exec_calls (trace s')) →
  (∀ c, c ∈ exec_calls (trace s') → is_Some (heap s' !! c)) →
  (∀ k, arrivals_before_removal k (evs ++ trace s) = true →
        arrival_inv k s → arrival_inv k s') →
  Inv s'.
Proof.
  intros HI Hth Hts Htr Hgen Hret Hmv Hown Hmap Hframe Hex Hok Hnd1 Hnd2 Hheap Harr.
  destruct (mutex_goto _ _ _ p' (mu s') HI Hth Hmv) as [Hfree Hexcl].
  split; try done.
  - by rewrite Hts.
  - by rewrite Hts.
  - rewrite Hts. by apply own_goto.
  - intros t' th'. rewrite Hts, (lookup_goto _ _ _ _ _ Hth).
    destruct (decide (t' = t)) as [->|Hne].
    + by intros [= <-].
    + intros Hth'. pose proof (inv_pc _ HI _ _ Hth') as Hok'.
      eapply pc_ok_frame; [by apply (Hframe t')|by apply Hex|done].
  - intros t0 k c r. rewrite Htr, Hts, !elem_of_app. intros [Hin|Hin].
    + destruct (Hgen _ _ _ _ Hin) as (-> & -> & Hmiss & w0 & Hw0).
      split; [by right|].
      destruct (goto_same_call t th p' _ _ _ Hth Hth) as (th1 & Hth1 & Hk1 & Hfn).
      exists th1, w0. rewrite Hfn. split; [exact Hth1|]. split; [exact Hk1|exact Hw0].
    + destruct (inv_exec_genuine _ HI _ _ _ _ Hin) as (Hmiss & th0 & w0 & Hth0 & ? & ?).
      split; [by right|].
      destruct (goto_same_call t th p' _ _ _ Hth Hth0) as (th1 & ? & ? & Hfn).
      exists th1, w0. rewrite Hfn. split; [done|]. split; congruence.
  - intros t0 k c r. rewrite Htr, elem_of_app. intros [Hin|Hin].
    + destruct (Hret _ _ _ _ Hin) as [t' Ht']. exists t'. apply elem_of_app. by right.
    + destruct (inv_return _ HI _ _ _ _ Hin) as [t' Ht']. exists t'.
      apply elem_of_app. by right.
  - intros k Hk. rewrite Htr in Hk. apply Harr; [done|].
    apply (inv_arrivals _ HI). by apply arrivals_app in Hk.
Qed.

Lemma inv_control s t th p' mu1 m1 evs :
  Inv s → threads s !! t = Some th →
  exec_threads evs = [] → exec_calls evs = [] →
  (is_Some (m s) → is_Some m1) →
  (∀ k, m1 ≫= (.!! k) = lookup_key s k) →
  mutex_move (holds (at_pc th)) (holds p') (mu s) mu1 →
  own p' = own (at_pc th) ∨ own p' = None →
  (∀ c, registrant (at_pc th) c → registrant p' c) →
  (∀ c, at_pc th = L66 c ∨ at_pc th = L69 c ∨ at_pc th = L70 c →
        p' = L66 c ∨ p' = L69 c ∨ p' = L70 c) →
  (∀ t0 k c r, EvReturn t0 k c r ∈ evs → ∃ t', EvExec t' k c r ∈ trace s) →
  pc_ok (mk_State mu1 m1 (heap s) (goto t th p' (threads s)) (env s)
           (evs ++ trace s)) t (key th) p' →
  (∀ k, arrivals_before_removal k (evs ++ trace s) = true →
        arrival_inv k s →
        arrival_inv k (mk_State mu1 m1 (heap s) (goto t th p' (threads s)) (env s)
                         (evs ++ trace s))) →
  Inv (mk_State mu1 m1 (heap s) (goto t th p' (threads s)) (env s)
         (evs ++ trace s)).
Proof.
  intros HI Hth Hevt Hevc Hm1 Hkey Hmv Hown Hreg Hfl Hret Hok Harr.
  apply (inv_goto s _ t th p' evs); simpl; try done.
  - intros t0 k c r Hin%exec_in_threads. rewrite Hevt in Hin. inversion Hin.
  - destruct Hown; auto.
  - intros k c Hk. apply (map_goto_keep _ _ _ _ _ _ Hth Hreg).
    apply (inv_map _ HI). unfold lookup_key in Hk; simpl in Hk. by rewrite Hkey in Hk.
  - intros t' th' Hne Hth' Hok'.
    apply (frame_map_update _ _ _ _ evs); simpl; try done.
    + intros _. apply Hkey.
    + intros c. by apply (in_flight_goto _ _ t th p').
  - intros t' _. by rewrite exec_threads_app, Hevt.
  - rewrite exec_threads_app, Hevt. apply (inv_exec_threads _ HI).
  - rewrite exec_calls_app, Hevc. apply (inv_exec_calls _ HI).
  - intros c. rewrite exec_calls_app, Hevc. apply (inv_exec_heap _ HI).
Qed.


Lemma mutex_move_same (b mu0 : bool) : mutex_move b b mu0 mu0.
Proof. by left. Qed.

Lemma holder_locked s t th :
  Inv s → threads s !! t = Some th → holds (at_pc th) = true → mu s = true.
Proof.
  intros HI Hth Hh. destruct (mu s) eqn:Hmu; [done|].
  pose proof (inv_free _ HI Hmu _ _ Hth). congruence.
Qed.

Ltac ctl_side :=
  match goal with
  | |- mutex_move _ _ _ _ =>
      first [ by left | right; left; by repeat split | right; right; by repeat split ]
  | |- ∀ c, registrant _ c → registrant _ c =>
      intros ? [|[|[|[|]]]]; (done || (simplify_eq; unfold registrant; auto 6))
  | |- ∀ c, _ ∨ _ ∨ _ → _ ∨ _ ∨ _ =>
      intros ? [|[|]]; (done || (simplify_eq; auto))
  | |- _ = _ ∨ _ => by auto
  | |- ∀ t0 k c r, _ ∈ [] → _ => intros ? ? ? ? Hin; inversion Hin
  | |- ∀ t0 k c r, _ ∈ [_] → _ =>
      intros ? ? ? ? Hin; apply list_elem_of_singleton in Hin; discriminate Hin
  | |- _ => done
  end.

Ltac arr_start evs :=
  let k0 := fresh "k0" in
  let Hk0 := fresh "Hk0" in
  let Hai := fresh "Hai" in
  intros k0 Hk0 Hai;
  match goal with
  | Hth : threads ?s !! ?t = Some ?th
    |- arrival_inv _ (mk_State _ _ _ (goto ?t ?th ?p _) _ _) =>
      apply (arrival_goto s _ t th p evs k0 Hth); simpl;
      [reflexivity | reflexivity | | | | exact Hai]
  end.

Ltac arr_nomiss :=
  let Hin := fresh "Hin" in
  intros ? Hin;
  first [ by inversion Hin
        | apply list_elem_of_singleton in Hin; discriminate Hin ].

Ltac arr_noreg Hpc :=
  let Hd := fresh "Hd" in
  rewrite Hpc; intros [Hd|[? [Hd|Hd]]]; discriminate Hd.

Ltac arr_keep := intros ?; left; assumption.

Ltac arr_plain evs Hpc := arr_start evs; [arr_nomiss | arr_noreg Hpc | arr_keep].

Lemma registering_holds (p : pc V E) : registering p → holds p = true.
Proof. by intros [->|[c [->| ->]]]. Qed.

Lemma step_inv t s : Inv s → Inv (step t s).
Proof.
  intros HI. unfold step. destruct (threads s !! t) as [th|] eqn:Hth; [|done].
  pose proof (inv_pc _ HI _ _ Hth) as Hok.
  destruct (at_pc th) eqn:Hpc; simpl in Hok.
  - (* L52 *)
    destruct (mu s) eqn:Hmu; [done|].
    apply (inv_control s t th L53 true (m s) []); rewrite ?Hpc; simpl; try ctl_side.
    arr_plain (@nil (event V E)) Hpc.
  - (* L53 *)
    apply (inv_control s t th L57 (mu s)
             (match m s with None => Some ∅ | Some mp => Some mp end) []);
      rewrite ?Hpc; simpl; try ctl_side.
    + destruct (m s); eauto.
    + intros k. unfold lookup_key. destruct (m s); simpl; [done|apply lookup_empty].
    + split; [|done]. destruct (m s); eauto.
    + arr_start (@nil (event V E)); [arr_nomiss|arr_noreg Hpc|].
      intros Hs. left. unfold lookup_key in *. simpl. by destruct (m s).
  - (* L57 *)
    destruct Hok as [Hm Hex].
    destruct (m s ≫= (.!! key th)) as [c|] eqn:Hlk.
    + apply (inv_control s t th (L58 c) (mu s) (m s) [EvLookup t (key th) (Some c)]);
        rewrite ?Hpc; simpl; try ctl_side;
        [|arr_plain [EvLookup (V:=V) (E:=E) t (key th) (Some c)] Hpc].
      split; [|done].
      destruct (inv_map _ HI _ _ Hlk) as (t0 & th0 & Hth0 & Hk0 & Hreg).
      assert (t0 ≠ t) as Hne.
      { intros ->. assert (th0 = th) as -> by congruence.
        rewrite Hpc in Hreg. destruct Hreg as [|[|[|[|]]]]; done. }
      pose proof (inv_pc _ HI _ _ Hth0) as Hok0. rewrite Hk0 in Hok0.
      assert (goto t th (L58 c) (threads s) !! t0 = Some th0) as Hth0'
        by (by rewrite (lookup_goto _ _ _ _ _ Hth), decide_False).
      destruct Hreg as [Hp|[Hp|[Hp|[Hp|Hp]]]]; rewrite Hp in Hok0; simpl in Hok0.
      * left. exists t0, th0. simpl. auto.
      * left. exists t0, th0. simpl. auto.
      * left. exists t0, th0. simpl. auto.
      * right. destruct Hok0 as (_ & _ & r & Hr & He). exists r.
        split; simpl; [done|]. exists t0. by right.
      * right. destruct Hok0 as (_ & _ & r & Hr & He). exists r.
        split; simpl; [done|]. exists t0. by right.
    + apply (inv_control s t th L63 (mu s) (m s) [EvLookup t (key th) None]);
        rewrite ?Hpc; simpl; try ctl_side.
      * split; [done|]. split; [done|]. split; [left|done].
      * intros k0 Hk0 Hai. destruct (decide (k0 = key th)) as [->|Hnek].
        -- pose proof (arrivals_lookup (key th) t None (trace s) Hk0) as Hnr.
           assert (∀ t0, EvLookup t0 (key th) None ∉ trace s) as Hfirst.
           { intros t0 Hin.
             destruct (ai_window _ _ Hai Hnr _ Hin) as [(th0 & Hth0 & _ & Hreg0)|Hsome].
             - assert (t0 = t) as ->.
               { eapply (inv_excl _ HI); eauto using registering_holds.
                 by rewrite Hpc. }
               assert (th0 = th) as -> by congruence.
               rewrite Hpc in Hreg0. destruct Hreg0 as [Hd|[? [Hd|Hd]]]; discriminate Hd.
             - unfold lookup_key in Hsome. rewrite Hlk in Hsome. by destruct Hsome. }
           assert (∀ t0, EvLookup t0 (key th) None ∈
                           EvLookup (V:=V) (E:=E) t (key th) None :: trace s → t0 = t)
             as Honly.
           { intros t0 [Heq|Hin]%elem_of_cons; [congruence|]. by apply Hfirst in Hin. }
           split; simpl.
           ++ intros t1 t2 H1%Honly H2%Honly. congruence.
           ++ intros _ t0 H0%Honly. subst t0. left.
              exists (mk_goroutine (key th) (fn th) L63).
              rewrite (lookup_goto _ _ _ _ _ Hth), decide_True by done.
              split; [done|]. split; [done|by left].
        -- revert k0 Hk0 Hai Hnek. intros k0 Hk0 Hai Hnek.
           apply (arrival_goto s _ t th L63 [EvLookup t (key th) None] k0 Hth);
             simpl; try done.
           ++ intros t0 Hin%list_elem_of_singleton. congruence.
           ++ arr_noreg Hpc.
           ++ arr_keep.
  - (* L58 *)
    rewrite (holder_locked _ _ _ HI Hth) by (by rewrite Hpc).
    apply (inv_control s t th (L59 c) false (m s) []); rewrite ?Hpc; simpl; try ctl_side.
    + destruct Hok as [Hgood Hex]. split; [|done].
      destruct Hgood as [Hfl|[r [Hr [t0 H0]]]].
      * left. by apply (in_flight_goto s _ t th (L59 c)); rewrite ?Hpc; try ctl_side.
      * right. exists r. split; simpl; eauto.
    + arr_plain (@nil (event V E)) Hpc.
  - (* L59 *)
    destruct Hok as [Hgood Hex].
    assert (∃ cl, heap s !! c = Some cl ∧
              (wg cl = 0 → ∃ r, finished s (key th) c r)) as (cl & Hcl & Hfin).
    { destruct Hgood as [(t0 & th0 & Hth0 & Hk0 & Hp0)|(r & Hr & Ht)].
      - pose proof (inv_pc _ HI _ _ Hth0) as Hok0.
        destruct Hp0 as [Hp|[Hp|Hp]]; rewrite Hp in Hok0; simpl in Hok0.
        + destruct Hok0 as (_ & Hc & _). eexists. split; [done|]. done.
        + destruct Hok0 as (_ & Hc & _). eexists. split; [done|]. done.
        + destruct Hok0 as (_ & r & Hc & _). eexists. split; [done|]. done.
      - eexists. split; [done|]. intros _. exists r. by split. }
    rewrite Hcl. destruct (decide (wg cl = 0)) as [Hwg|]; [|done].
    apply (inv_control s t th (L60 c) (mu s) (m s) []); rewrite ?Hpc; simpl; try ctl_side.
    + split; [|done]. destruct (Hfin Hwg) as (r & Hr & Ht). exists r. by split.
    + arr_plain (@nil (event V E)) Hpc.
  - (* L60 *)
    destruct Hok as [(r & Hr & t0 & Ht0) Hex]. rewrite Hr. destruct r as [v e]; simpl.
    apply (inv_control s t th (Returned (v, e)) (mu s) (m s)
             [EvReturn t (key th) c (v, e)]); rewrite ?Hpc; simpl; try ctl_side.
    + intros t1 k1 c1 r1 Hin%list_elem_of_singleton. injection Hin as -> -> -> ->. eauto.
    + exists c. split; [left|]. right. split; [done|]. exists t0. by right.
    + arr_plain [EvReturn t (key th) c (v, e)] Hpc.
  - (* L63 *)
    destruct Hok as (Hm & Hlk & Hev & Hex).
    set (c := fresh (dom (heap s))).
    assert (heap s !! c = None) as Hfresh by apply not_elem_of_dom, is_fresh.
    apply (inv_goto s _ t th (L64 c) []); rewrite ?Hpc; simpl; try ctl_side.
    + right. right. by exists c.
    + intros k c' Hk. apply (map_goto_keep _ _ _ _ _ _ Hth); rewrite ?Hpc; [ctl_side|].
      by apply (inv_map _ HI).
    + intros t' th' Hne Hth' Hok'.
      apply (frame_heap_update _ _ _ _ c (mk_call 0 None None) []); simpl; try done.
      * intros c' Hc'. inversion Hc'.
      * intros Hown. destruct (pc_ok_own_heap _ _ _ _ _ Hok' Hown). congruence.
      * intros c' r [Hc' _] ->. congruence.
      * intros c' Hfl. left.
        by apply (in_flight_goto s _ t th (L64 c)); rewrite ?Hpc; try ctl_side.
    + rewrite lookup_insert_eq. repeat split; try done.
      intros Hin. destruct (inv_exec_heap _ HI _ Hin). congruence.
    + apply (inv_exec_threads _ HI).
    + apply (inv_exec_calls _ HI).
    + intros c' Hin. destruct (decide (c' = c)) as [->|Hne].
      * rewrite lookup_insert_eq. eauto.
      * rewrite lookup_insert_ne by done. by apply (inv_exec_heap _ HI).
    + arr_start (@nil (event V E)); [arr_nomiss| |arr_keep].
      intros _. left. right. exists c. by left.
  - (* L64 *)
    destruct Hok as (Hm & Hlk & Hc & Hnc & Hev & Hex). rewrite Hc. simpl.
    apply (inv_goto s _ t th (L65 c) []); rewrite ?Hpc; simpl; try ctl_side.
    + intros k c' Hk. apply (map_goto_keep _ _ _ _ _ _ Hth); rewrite ?Hpc; [ctl_side|].
      by apply (inv_map _ HI).
    + intros t' th' Hne Hth' Hok'.
      apply (frame_heap_update _ _ _ _ c (mk_call 1 None None) []); simpl; try done.
      * intros c' Hc'. inversion Hc'.
      * intros Hown. apply Hne. eapply (inv_own _ HI); eauto. by rewrite Hpc.
      * intros c' r [_ [t0 Ht0]] ->. by apply exec_in_calls in Ht0.
      * intros c' Hfl. left.
        by apply (in_flight_goto s _ t th (L65 c)); rewrite ?Hpc; try ctl_side.
    + rewrite lookup_insert_eq. repeat split; done.
    + apply (inv_exec_threads _ HI).
    + apply (inv_exec_calls _ HI).
    + intros c' Hin. destruct (decide (c' = c)) as [->|Hne].
      * rewrite lookup_insert_eq. eauto.
      * rewrite lookup_insert_ne by done. by apply (inv_exec_heap _ HI).
    + arr_start (@nil (event V E)); [arr_nomiss| |arr_keep].
      intros _. left. right. exists c. by right.
  - (* L65 *)
    destruct Hok as ([mp Hmp] & Hlk & Hc & Hnc & Hev & Hex). rewrite Hmp.
    unfold lookup_key in Hlk. rewrite Hmp in Hlk. simpl in Hlk.
    apply (inv_goto s _ t th (L66 c) []); rewrite ?Hpc; simpl; try ctl_side.
    + intros k c'. unfold lookup_key; simpl.
      destruct (decide (k = key th)) as [->|Hne].
      * rewrite lookup_insert_eq. intros [= <-].
        exists t, (mk_goroutine (key th) (fn th) (L66 c)).
        rewrite (lookup_goto _ _ _ _ _ Hth), decide_True by done.
        split; [done|]. split; [done|]. by left.
      * rewrite lookup_insert_ne by done. intros Hk.
        apply (map_goto_keep _ _ _ _ _ _ Hth); rewrite ?Hpc; [ctl_side|].
        apply (inv_map _ HI). unfold lookup_key. by rewrite Hmp.
    + intros t' th' Hne Hth' Hok'.
      apply (frame_map_update _ _ _ _ []); simpl; try done.
      * intros Hreads. unfold lookup_key; simpl. rewrite Hmp; simpl.
        destruct (decide (key th' = key th)) as [Heq|Hnek];
          [|by rewrite lookup_insert_ne].
        exfalso.
        assert (holds (at_pc th') = false) as Hnh.
        { destruct (holds (at_pc th')) eqn:Hh; [|done]. destruct Hne.
          eapply (inv_excl _ HI); eauto. by rewrite Hpc. }
        assert (lookup_key s (key th') = None) as Hnone
          by (unfold lookup_key; by rewrite Hmp, Heq).
        destruct (at_pc th'); simpl in *; try done;
          destruct Hok' as (Hsome & _); congruence.
      * intros c' Hfl.
        by apply (in_flight_goto s _ t th (L66 c)); rewrite ?Hpc; try ctl_side.
    + unfold lookup_key; simpl. rewrite lookup_insert_eq. repeat split; done.
    + apply (inv_exec_threads _ HI).
    + apply (inv_exec_calls _ HI).
    + apply (inv_exec_heap _ HI).
    + arr_start (@nil (event V E)); [arr_nomiss| |].
      * intros _. right. intros <-. unfold lookup_key; simpl.
        rewrite lookup_insert_eq. eauto.
      * intros Hs. left. unfold lookup_key in *; simpl. rewrite Hmp in Hs. simpl in Hs.
        destruct (decide (key th = k0)) as [<-|Hnek].
        -- rewrite lookup_insert_eq. eauto.
        -- by rewrite lookup_insert_ne.
  - (* L66 *)
    rewrite (holder_locked _ _ _ HI Hth) by (by rewrite Hpc).
    apply (inv_control s t th (L69 c) false (m s) []); rewrite ?Hpc; simpl; try ctl_side.
    arr_plain (@nil (event V E)) Hpc.
  - (* L69 *)
    destruct Hok as (Hlk & Hc & Hnc & Hev & Hex).
    destruct (fn th (env s)) as [r w'] eqn:Hfn. rewrite Hc. simpl.
    apply (inv_goto s _ t th (L70 c) [EvExec t (key th) c r]); rewrite ?Hpc; simpl; try ctl_side.
    + intros t1 k1 c1 r1 Hin%list_elem_of_singleton. injection Hin as -> -> -> ->.
      repeat split; try done. exists (env s). by rewrite Hfn.
    + intros k c' Hk. apply (map_goto_keep _ _ _ _ _ _ Hth); rewrite ?Hpc; [ctl_side|].
      by apply (inv_map _ HI).
    + intros t' th' Hne Hth' Hok'.
      apply (frame_heap_update _ _ _ _ c (mk_call 1 r.1 r.2) [EvExec t (key th) c r]);
        simpl; try done.
      * intros c' Hc'. apply list_elem_of_singleton in Hc'. done.
      * intros Hown. apply Hne. eapply (inv_own _ HI); eauto. by rewrite Hpc.
      * intros c' r' [_ [t0 Ht0]] ->. by apply exec_in_calls in Ht0.
      * intros c' Hfl. left.
        by apply (in_flight_goto s _ t th (L70 c)); rewrite ?Hpc; try ctl_side.
    + intros t' Hne Hnin. rewrite elem_of_cons. intros [|]; done.
    + rewrite lookup_insert_eq. split; [done|]. exists r. split; [done|left].
    + apply NoDup_cons. split; [done|]. apply (inv_exec_threads _ HI).
    + apply NoDup_cons. split; [done|]. apply (inv_exec_calls _ HI).
    + intros c'. rewrite elem_of_cons. intros [->|Hin].
      * rewrite lookup_insert_eq. eauto.
      * destruct (decide (c' = c)) as [->|Hne]; [rewrite lookup_insert_eq; eauto|].
        rewrite lookup_insert_ne by done. by apply (inv_exec_heap _ HI).
    + arr_plain [EvExec t (key th) c r] Hpc.
  - (* L70 *)
    destruct Hok as (Hlk & r & Hc & Hexec). rewrite Hc. simpl.
    apply (inv_goto s _ t th (L73 c) [EvDone t (key th) c]); rewrite ?Hpc; simpl; try ctl_side.
    + intros k c' Hk. apply (map_goto_keep _ _ _ _ _ _ Hth); rewrite ?Hpc; [ctl_side|].
      by apply (inv_map _ HI).
    + intros t' th' Hne Hth' Hok'.
      apply (frame_heap_update _ _ _ _ c (mk_call 0 r.1 r.2) [EvDone t (key th) c]);
        simpl; try done.
      * intros c' Hc'. inversion Hc'.
      * intros Hown. apply Hne. eapply (inv_own _ HI); eauto. by rewrite Hpc.
      * intros c' r' [Hc' _] ->. congruence.
      * intros c' (t0 & th0 & Hth0 & Hk0 & Hp0).
        destruct (decide (t0 = t)) as [->|Hne0].
        -- assert (th0 = th) as -> by congruence. rewrite Hpc in Hp0.
           assert (c' = c) as -> by (destruct Hp0 as [|[|]]; congruence).
           right. exists r. split; simpl.
           ++ by rewrite lookup_insert_eq.
           ++ exists t. rewrite <- Hk0. by right.
        -- left. exists t0, th0. simpl.
           by rewrite (lookup_goto _ _ _ _ _ Hth), decide_False.
    + rewrite lookup_insert_eq. split; [done|]. split; [left|].
      exists r. split; [done|by right].
    + apply (inv_exec_threads _ HI).
    + apply (inv_exec_calls _ HI).
    + intros c' Hin. destruct (decide (c' = c)) as [->|Hne].
      * rewrite lookup_insert_eq. eauto.
      * rewrite lookup_insert_ne by done. by apply (inv_exec_heap _ HI).
    + arr_plain [EvDone (V:=V) (E:=E) t (key th) c] Hpc.
  - (* L73 *)
    destruct (mu s) eqn:Hmu; [done|].
    apply (inv_control s t th (L74 c) true (m s) []); rewrite ?Hpc; simpl; try ctl_side.
    arr_plain (@nil (event V E)) Hpc.
  - (* L74 *)
    destruct Hok as (Hlk & Hdone & r & Hc & Hexec).
    assert (∃ mp, m s = Some mp ∧ mp !! key th = Some c) as (mp & Hmp & Hmpk).
    { unfold lookup_key in Hlk. destruct (m s) as [mp|]; [|done]. eauto. }
    apply (inv_goto s _ t th (L75 c) [EvDelete t (key th) c]); rewrite ?Hpc; simpl; try ctl_side.
    + intros k c'. unfold lookup_key; simpl. rewrite Hmp; simpl.
      intros [Hnek Hk]%lookup_delete_Some.
      destruct (inv_map _ HI k c') as (t0 & th0 & Hth0 & Hk0 & Hreg).
      { unfold lookup_key. by rewrite Hmp. }
      exists t0, th0. split; [|done].
      rewrite (lookup_goto _ _ _ _ _ Hth), decide_False; [done|].
      intros ->. congruence.
    + intros t' th' Hne Hth' Hok'.
      apply (frame_map_update _ _ _ _ [EvDelete t (key th) c]); simpl; try done.
      * rewrite Hmp. simpl. intros _. by eexists.
      * intros Hreads. unfold lookup_key; simpl. rewrite Hmp; simpl.
        destruct (decide (key th' = key th)) as [Heq|Hnek];
          [|by rewrite lookup_delete_ne].
        exfalso.
        assert (holds (at_pc th') = false) as Hnh.
        { destruct (holds (at_pc th')) eqn:Hh; [|done]. destruct Hne.
          eapply (inv_excl _ HI); eauto. by rewrite Hpc. }
        assert (∀ c', lookup_key s (key th') = Some c' →
                  own (at_pc th') = Some c' → False) as Hclash.
        { intros c' Hc' Hown. rewrite Heq, Hlk in Hc'. injection Hc' as <-.
          apply Hne. eapply (inv_own _ HI); eauto. by rewrite Hpc. }
        destruct (at_pc th'); simpl in *; try done;
          destruct Hok' as (Hsome & _); by eapply Hclash.
      * intros c' Hfl.
        by apply (in_flight_goto s _ t th (L75 c)); rewrite ?Hpc; try ctl_side.
    + unfold lookup_key; simpl. rewrite Hmp; simpl. rewrite lookup_delete_eq.
      split; [done|]. split; [by right|]. split; [left|].
      exists r. split; [done|by right].
    + apply (inv_exec_threads _ HI).
    + apply (inv_exec_calls _ HI).
    + apply (inv_exec_heap _ HI).
    + arr_start [EvDelete (V:=V) (E:=E) t (key th) c]; [arr_nomiss|arr_noreg Hpc|].
      intros Hs. destruct (decide (key th = k0)) as [<-|Hnek].
      * right. intros Hnr. apply (Hnr t c). left.
      * left. unfold lookup_key in *; simpl. rewrite Hmp in *. simpl in *.
        by rewrite lookup_delete_ne.
  - (* L75 *)
    rewrite (holder_locked _ _ _ HI Hth) by (by rewrite Hpc).
    apply (inv_control s t th (L78 c) false (m s) []); rewrite ?Hpc; simpl; try ctl_side.
    + destruct Hok as (_ & ? & ? & ?). auto.
    + arr_plain (@nil (event V E)) Hpc.
  - (* L78 *)
    destruct Hok as (Hdone & Hdel & r & Hr & Hex). rewrite Hr. destruct r as [v e]; simpl.
    apply (inv_control s t th (Returned (v, e)) (mu s) (m s)
             [EvReturn t (key th) c (v, e)]); rewrite ?Hpc; simpl; try ctl_side.
    + intros t1 k1 c1 r1 Hin%list_elem_of_singleton. injection Hin as -> -> -> ->. eauto.
    + exists c. split; [left|]. left. split; by right.
    + arr_plain [EvReturn t (key th) c (v, e)] Hpc.
  - (* Returned *) done.
  - (* Panicked *) done.
Qed.

Lemma Inv_init (calls : list (string * @func V E W)) (w : W) : Inv (init calls w).
Proof.
  assert (∀ t th, threads (init calls w) !! t = Some th → at_pc th = L52) as Hpc.
  { intros t th. unfold init; simpl. rewrite list_lookup_fmap.
    destruct (calls !! t); simpl; [|done]. by intros [= <-]. }
  split; simpl.
  - intros _ t th Hth. by rewrite (Hpc _ _ Hth).
  - intros t1 t2 th1 th2 H1 _ Hh. by rewrite (Hpc _ _ H1) in Hh.
  - intros t1 t2 th1 th2 c H1 _ Hown. by rewrite (Hpc _ _ H1) in Hown.
  - done.
  - intros t th Hth. rewrite (Hpc _ _ Hth). simpl. apply not_elem_of_nil.
  - constructor.
  - constructor.
  - intros c Hc. inversion Hc.
  - intros t k c r Hin. inversion Hin.
  - intros t k c r Hin. inversion Hin.
  - intros k _. split; simpl.
    + intros t1 t2 Hin. inversion Hin.
    + intros _ t Hin. inversion Hin.
Qed.

Lemma run_Inv sched s : Inv s → Inv (run sched s).
Proof.
  revert s. induction sched as [|t sched IH]; intros s HI; simpl; [done|].
  by apply IH, step_inv.
Qed.

Lemma callers_goto t th p (ts : list (goroutine V E W)) :
  ts !! t = Some th →
  (λ th, (key th, fn th)) <$> goto t th p ts = (λ th, (key th, fn th)) <$> ts.
Proof.
  intros Hth. unfold goto. rewrite list_fmap_insert. simpl.
  apply list_insert_id. by rewrite list_lookup_fmap, Hth.
Qed.

Lemma step_callers t s : callers (step t s) = callers s.
Proof.
  unfold callers, step. destruct (threads s !! t) as [th|] eqn:Hth; [|done].
  repeat case_match; simpl; try done; by apply callers_goto.
Qed.

Lemma run_callers sched s : callers (run sched s) = callers s.
Proof.
  revert s. induction sched as [|t sched IH]; intros s; simpl; [done|].
  by rewrite IH, step_callers.
Qed.

Lemma callers_init (calls : list (string * @func V E W)) (w : W) :
  callers (init calls w) = calls.
Proof.
  unfold callers, init; simpl. rewrite <- list_fmap_compose.
  rewrite <- (list_fmap_id calls) at 2. apply list_fmap_ext. by intros i [k f].
Qed.

Lemma callers_lookup s t k f :
  callers s !! t = Some (k, f) ↔
  ∃ p, threads s !! t = Some (mk_goroutine k f p).
Proof.
  unfold callers. rewrite list_lookup_fmap. split.
  - destruct (threads s !! t) as [[k' f' p]|]; simpl; [|done].
    intros [= -> ->]. eauto.
  - intros [p ->]. done.
Qed.




Lemma reachable_Inv (calls : list (string * @func V E W)) w sched :
  Inv (run sched (init calls w)).
Proof. apply run_Inv, Inv_init. Qed.

Lemma reachable_callers (calls : list (string * @func V E W)) w sched :
  callers (run sched (init calls w)) = calls.
Proof. by rewrite run_callers, callers_init. Qed.





(** C3, as the code has it.  In every state a schedule reaches: when the
    function has returned and Done is not called yet (line 70), the call is
    in the map and its WaitGroup is not released; after Done and until the
    delete (lines 73, 74) the WaitGroup is released and the call is still
    in the map, results stored; a caller that executed its function has
    deleted the call before it returned; and a caller that finds the call
    of its key in the map takes it over, in flight or finished, while one
    that finds none goes on to a new call. *)
Theorem C3_release_precedes_removal
    (calls : list (string * @func V E W)) (w : W) (sched : list nat)
    (t : nat) (k : string) (c : ptr) :
  let s := run sched (init calls w) in
  (at_line s t k (L70 c) →
     lookup_key s k = Some c ∧ ∃ r, heap s !! c = Some (mk_call 1 r.1 r.2)) ∧
  (at_line s t k (L73 c) ∨ at_line s t k (L74 c) →
     released_in_map s k c ∧ ∃ r, finished s k c r) ∧
  (∀ r, at_line s t k (Returned r) → t ∈ exec_threads (trace s) →
     ∃ c', EvExec t k c' r ∈ trace s ∧ EvDelete t k c' ∈ trace s) ∧
  (at_line s t k L57 → lookup_key s k = Some c →
     at_line (step t s) t k (L58 c) ∧ (in_flight s k c ∨ ∃ r, finished s k c r)) ∧
  (at_line s t k L57 → lookup_key s k = None → at_line (step t s) t k L63).
Proof.
  intros s. pose proof (reachable_Inv calls w sched) as HI. fold s in HI.
  clearbody s. split; [|split; [|split; [|split]]].
  - intros [f Hth]. pose proof (inv_pc _ HI _ _ Hth) as (Hlk & r & Hc & _).
    simpl in *. split; [done|]. by exists r.
  - assert (∀ p, p = L73 c ∨ p = L74 c → at_line s t k p →
              released_in_map s k c ∧ ∃ r, finished s k c r) as Hboth.
    { intros p Hp [f Hth]. pose proof (inv_pc _ HI _ _ Hth) as Hok. simpl in Hok.
      assert (lookup_key s k = Some c ∧ EvDone t k c ∈ trace s ∧
              ∃ r, heap s !! c = Some (mk_call 0 r.1 r.2) ∧ EvExec t k c r ∈ trace s)
        as (Hlk & Hdone & r & Hc & Hexec) by (by destruct Hp as [-> | ->]).
      split; [split; eauto|]. exists r. split; eauto. }
    intros [Hat|Hat]; [apply (Hboth (L73 c))|apply (Hboth (L74 c))]; auto.
  - intros r [f Hth] Hin. pose proof (inv_pc _ HI _ _ Hth) as (c' & _ & Hexec).
    simpl in *. destruct Hexec as [[? ?]|[? _]]; [eauto|done].
  - intros [f Hth] Hlk. split.
    + exists f. unfold step. rewrite Hth. simpl. unfold lookup_key in Hlk.
      rewrite Hlk. simpl. by rewrite (lookup_goto _ _ _ _ _ Hth), decide_True.
    + destruct (inv_map _ HI _ _ Hlk) as (t0 & th0 & Hth0 & Hk0 & Hreg).
      pose proof (inv_pc _ HI _ _ Hth0) as Hok0. rewrite Hk0 in Hok0.
      destruct Hreg as [Hp|[Hp|[Hp|[Hp|Hp]]]]; rewrite Hp in Hok0; simpl in Hok0.
      * left. exists t0, th0. auto.
      * left. exists t0, th0. auto.
      * left. exists t0, th0. auto.
      * right. destruct Hok0 as (_ & _ & r & Hr & He). exists r. split; eauto.
      * right. destruct Hok0 as (_ & _ & r & Hr & He). exists r. split; eauto.
  - intros [f Hth] Hlk. exists f. unfold step. rewrite Hth. simpl.
    unfold lookup_key in Hlk. rewrite Hlk. simpl.
    by rewrite (lookup_goto _ _ _ _ _ Hth), decide_True.
Qed.


(** ** A call of [Do] that runs with no other goroutine taking a step *)

Lemma run_step t sched s s' : step t s = s' → run (t :: sched) s = run sched s'.
Proof. by intros <-. Qed.

Lemma run_app sched1 sched2 s : run (sched1 ++ sched2) s = run sched2 (run sched1 s).
Proof. revert s. induction sched1 as [|t sched1 IH]; intros s; simpl; [done|apply IH]. Qed.

Lemma goto_goto t th p p' (ts : list (goroutine V E W)) :
  goto t (mk_goroutine (key th) (fn th) p) p' (goto t th p ts) = goto t th p' ts.
Proof. unfold goto; simpl. apply list_insert_insert_eq. Qed.

Lemma lookup_goto_self t th p (ts : list (goroutine V E W)) :
  ts !! t = Some th → goto t th p ts !! t = Some (mk_goroutine (key th) (fn th) p).
Proof. intros Hth. by rewrite (lookup_goto _ _ _ _ _ Hth), decide_True. Qed.

Ltac alone_step Hth :=
  erewrite run_step;
  [|unfold step; cbn [threads];
    first [ rewrite Hth | rewrite (lookup_goto_self _ _ _ _ Hth) ];
    cbn [at_pc key fn mu m heap env trace mbind option_bind];
    rewrite ?lookup_insert_eq; cbn [wg val err Nat.add];
    rewrite ?goto_goto; reflexivity].

Lemma Do_alone s t th r w' :
  threads s !! t = Some th → at_pc th = L52 →
  mu s = false → lookup_key s (key th) = None →
  fn th (env s) = (r, w') →
  let c := fresh (dom (heap s)) in
  run (replicate 13 t) s =
    mk_State false (Some (default ∅ (m s)))
      (<[c := mk_call 0 r.1 r.2]> (heap s))
      (goto t th (Returned r) (threads s))
      w'
      ([EvReturn t (key th) c r; EvDelete t (key th) c; EvDone t (key th) c;
        EvExec t (key th) c r; EvLookup t (key th) None] ++ trace s).
Proof.
  intros Hth Hpc Hmu Hlk Hfn c. simpl replicate. destruct r as [v e].
  set (mp := default ∅ (m s)).
  assert (mp !! key th = None) as Hmp.
  { unfold mp, lookup_key in *. destruct (m s); simpl in *; [done|apply lookup_empty]. }
  erewrite run_step;
    [|unfold step; rewrite Hth, Hpc, Hmu; reflexivity].
  erewrite run_step;
    [|unfold step; cbn [threads]; rewrite (lookup_goto_self _ _ _ _ Hth);
      cbn [at_pc key fn mu m heap env trace]; rewrite ?goto_goto;
      instantiate (1 := mk_State true (Some mp) (heap s) (goto t th L57 (threads s))
                           (env s) (trace s));
      unfold mp; by destruct (m s)].
  erewrite run_step;
    [|unfold step; cbn [threads]; rewrite (lookup_goto_self _ _ _ _ Hth);
      cbn [at_pc key fn mu m heap env trace mbind option_bind];
      rewrite Hmp, ?goto_goto; reflexivity].
  alone_step Hth. fold c.
  alone_step Hth.
  alone_step Hth.
  alone_step Hth.
  erewrite run_step;
    [|unfold step; cbn [threads]; rewrite (lookup_goto_self _ _ _ _ Hth);
      cbn [at_pc key fn mu m heap env trace]; rewrite Hfn, ?lookup_insert_eq;
      cbn [wg val err]; rewrite ?goto_goto; reflexivity].
  alone_step Hth.
  alone_step Hth.
  alone_step Hth.
  alone_step Hth.
  alone_step Hth.
  simpl run. cbn [fmap option_fmap option_map].
  rewrite !insert_insert_eq, delete_insert_eq, delete_id by done. done.
Qed.


(** C6. From a state in which the mutex is free and no call for [k] is
    in the map, let one caller of Do(k, f1) take its thirteen steps and
    then another caller of Do(k, f2) take its thirteen steps.  The first
    has returned before the second starts; each executes its own function,
    for a call of its own, the second on the environment the first left;
    each returns what its own function returned. *)
Theorem C6_sequential_calls_both_execute
    (s : State V E W) (t1 t2 : nat) (k : string) (f1 f2 : @func V E W) :
  threads s !! t1 = Some (mk_goroutine k f1 L52) →
  threads s !! t2 = Some (mk_goroutine k f2 L52) →
  t1 ≠ t2 → mu s = false → lookup_key s k = None →
  let s1 := run (replicate 13 t1) s in
  let s2 := run (replicate 13 t1 ++ replicate 13 t2) s in
  let r1 := (f1 (env s)).1 in
  let r2 := (f2 (f1 (env s)).2).1 in
  ∃ c1 c2, c1 ≠ c2 ∧
    at_line s1 t1 k (Returned r1) ∧ at_line s1 t2 k L52 ∧
    at_line s2 t1 k (Returned r1) ∧ at_line s2 t2 k (Returned r2) ∧
    env s2 = (f2 (f1 (env s)).2).2 ∧
    trace s2 =
      [EvReturn t2 k c2 r2; EvDelete t2 k c2; EvDone t2 k c2; EvExec t2 k c2 r2;
       EvLookup t2 k None;
       EvReturn t1 k c1 r1; EvDelete t1 k c1; EvDone t1 k c1; EvExec t1 k c1 r1;
       EvLookup t1 k None] ++ trace s.
Proof.
  intros H1 H2 Hne Hmu Hlk. cbv zeta. rewrite run_app.
  destruct (f1 (env s)) as [r1 w1] eqn:Hf1. cbn [fst snd].
  destruct (f2 w1) as [r2 w2] eqn:Hf2. cbn [fst snd].
  pose proof (Do_alone s t1 _ r1 w1 H1 eq_refl Hmu Hlk Hf1) as Hs1.
  cbv zeta in Hs1. cbn [key] in Hs1. rewrite Hs1. clear Hs1.
  set (c1 := fresh (dom (heap s))).
  set (s1 := mk_State false _ _ _ _ _).
  assert (threads s1 !! t2 = Some (mk_goroutine k f2 L52)) as H2'.
  { unfold s1. cbn [threads]. by rewrite (lookup_goto _ _ _ _ _ H1), decide_False. }
  assert (lookup_key s1 k = None) as Hlk1.
  { unfold s1, lookup_key in *. cbn [m mbind option_bind].
    destruct (m s); cbn in *; [done|apply lookup_empty]. }
  assert (threads s1 !! t1 = Some (mk_goroutine k f1 (Returned r1))) as H1'.
  { unfold s1. cbn [threads]. by rewrite (lookup_goto_self _ _ _ _ H1). }
  pose proof (Do_alone s1 t2 _ r2 w2 H2' eq_refl eq_refl Hlk1 Hf2) as Hs2.
  cbv zeta in Hs2. cbn [key] in Hs2. rewrite Hs2. clear Hs2.
  set (c2 := fresh (dom (heap s1))).
  exists c1, c2.
  split; [|split; [|split; [|split; [|split; [|split]]]]].
  - intros Heq. apply (is_fresh (dom (heap s1))). fold c2. rewrite <- Heq.
    unfold s1. cbn [heap]. apply elem_of_dom. rewrite lookup_insert_eq. eauto.
  - by exists f1.
  - by exists f2.
  - exists f1. cbn [threads].
    rewrite (lookup_goto _ _ _ _ _ H2'), decide_False by done. exact H1'.
  - exists f2. cbn [threads]. by rewrite (lookup_goto_self _ _ _ _ H2').
  - done.
  - done.
Qed.

End Safety.

(** Caller 0 has released the WaitGroup (line 70 done) and has not yet
    deleted the call; caller 1, which had not taken a step, then goes
    through Do and returns the result of caller 0 without its own function
    being executed. *)
Lemma C3_removed_before_release_counterexample :
  let s := run (replicate 9 0) (init two_callers 0) in
  let s' := run (replicate 6 1) s in
  at_line s 0 "k" (L73 1%positive) ∧
  heap s !! 1%positive = Some (mk_call 0 (Some 0) None) ∧
  EvDone 0 "k" 1%positive ∈ trace s ∧
  lookup_key s "k" = Some 1%positive ∧
  at_line s 1 "k" L52 ∧
  at_line s' 1 "k" (Returned (Some 0, None)) ∧
  executions "k" (trace s') = [EvExec 0 "k" 1%positive (Some 0, None)] ∧
  env s' = 1.
Proof.
  cbv zeta.
  split; [exists count_runs; vm_compute; reflexivity|].
  split; [vm_compute; reflexivity|].
  split; [apply list_elem_of_In; vm_compute; left; reflexivity|].
  split; [vm_compute; reflexivity|].
  split; [exists count_runs; vm_compute; reflexivity|].
  split; [exists count_runs; vm_compute; reflexivity|].
  split; vm_compute; reflexivity.
Qed.



Lemma C6_sequential_calls_both_execute_witness :
  threads (init two_callers 0) !! 0 = Some (mk_goroutine "k" count_runs L52) ∧
  threads (init two_callers 0) !! 1 = Some (mk_goroutine "k" count_runs L52) ∧
  mu (init two_callers 0) = false ∧ lookup_key (init two_callers 0) "k" = None ∧
  ∃ c1 c2, c1 ≠ c2 ∧
    at_line (run (replicate 13 0) (init two_callers 0)) 0 "k" (Returned (Some 0, None)) ∧
    at_line (run (replicate 13 0) (init two_callers 0)) 1 "k" L52 ∧
    at_line (run (replicate 13 0 ++ replicate 13 1) (init two_callers 0)) 0 "k"
      (Returned (Some 0, None)) ∧
    at_line (run (replicate 13 0 ++ replicate 13 1) (init two_callers 0)) 1 "k"
      (Returned (Some 1, None)) ∧
    env (run (replicate 13 0 ++ replicate 13 1) (init two_callers 0)) = 2 ∧
    trace (run (replicate 13 0 ++ replicate 13 1) (init two_callers 0)) =
      [EvReturn 1 "k" c2 (Some 1, None); EvDelete 1 "k" c2; EvDone 1 "k" c2;
       EvExec 1 "k" c2 (Some 1, None); EvLookup 1 "k" None;
       EvReturn 0 "k" c1 (Some 0, None); EvDelete 0 "k" c1; EvDone 0 "k" c1;
       EvExec 0 "k" c1 (Some 0, None); EvLookup 0 "k" None] ++ [].
Proof.
  repeat (split; [reflexivity|]).
  apply (C6_sequential_calls_both_execute (init two_callers 0) 0 1 "k"
           count_runs count_runs); try reflexivity.
  discriminate.
Defined.

(* --------------------------------------------------------------------- *)
(** ** Progress of Do, and what it leaves behind                           *)
(* --------------------------------------------------------------------- *)

Section Liveness.
Context {V E W : Type}.
Implicit Types (s : State V E W) (th : goroutine V E W) (p : pc V E).
Implicit Types (c : ptr) (k : string) (t : nat) (tr : list (event V E)).

Lemma at_line_lookup s t k p :
  at_line s t k p ↔ ∃ th, threads s !! t = Some th ∧ key th = k ∧ at_pc th = p.
Proof.
  split.
  - intros [f Hth]. eauto.
  - intros ([k' f p'] & Hth & <- & <-). by exists f.
Qed.

(** What one step of an enabled goroutine does to its place and to the
    mutex; a goroutine that is not enabled stays where it is. *)
Lemma step_cases t s th :
  Inv s → threads s !! t = Some th →
  (¬ enabled s (at_pc th) ∧ step t s = s) ∨
  (enabled s (at_pc th) ∧ ∃ p', remaining p' < remaining (at_pc th) ∧
     threads (step t s) = goto t th p' (threads s) ∧
     mutex_move (holds (at_pc th)) (holds p') (mu s) (mu (step t s))).
Proof.
  intros HI Hth. pose proof (inv_pc _ HI _ _ Hth) as Hok.
  pose proof (holder_locked _ _ _ HI Hth) as Hlocked.
  unfold step. rewrite Hth.
  destruct (at_pc th) eqn:Hpc; simpl in Hok, Hlocked |- *.
  - destruct (mu s) eqn:Hmu; [left; split; [congruence|done]|].
    right. split; [done|]. exists L53. split; [simpl; lia|]. split; [done|].
    right. left. done.
  - right. split; [done|]. exists L57. split; [simpl; lia|]. split; [done|]. by left.
  - right. split; [done|]. destruct (m s ≫= _) as [c|].
    + exists (L58 c). split; [simpl; lia|]. split; [done|]. by left.
    + exists L63. split; [simpl; lia|]. split; [done|]. by left.
  - right. split; [done|]. rewrite Hlocked by done.
    exists (L59 c). split; [simpl; lia|]. split; [done|]. right. right. done.
  - destruct Hok as [Hgood _].
    assert (is_Some (heap s !! c)) as [cl Hcl].
    { destruct Hgood as [(t0 & th0 & Hth0 & _ & Hp0)|(r & Hr & _)]; [|eauto].
      pose proof (inv_pc _ HI _ _ Hth0) as Hok0.
      destruct Hp0 as [Hp|[Hp|Hp]]; rewrite Hp in Hok0; simpl in Hok0.
      - destruct Hok0 as (_ & Hc & _). eauto.
      - destruct Hok0 as (_ & Hc & _). eauto.
      - destruct Hok0 as (_ & r & Hc & _). eauto. }
    rewrite Hcl. destruct (decide (wg cl = 0)) as [Hwg|Hwg].
    + right. split; [eauto|]. exists (L60 c). split; [simpl; lia|]. split; [done|]. by left.
    + left. split; [|done]. intros (cl' & Hcl' & Hz). congruence.
  - right. split; [done|]. destruct Hok as [(r & Hr & _) _]. rewrite Hr.
    eexists. split; [|split; [done|by left]]. simpl; lia.
  - right. split; [done|]. eexists. split; [|split; [done|by left]]. simpl; lia.
  - right. split; [done|]. destruct Hok as (_ & _ & Hc & _). rewrite Hc.
    exists (L65 c). split; [simpl; lia|]. split; [done|]. by left.
  - right. split; [done|]. destruct Hok as ([mp Hmp] & _). rewrite Hmp.
    exists (L66 c). split; [simpl; lia|]. split; [done|]. by left.
  - right. split; [done|]. rewrite Hlocked by done.
    exists (L69 c). split; [simpl; lia|]. split; [done|]. right. right. done.
  - right. split; [done|]. destruct Hok as (_ & Hc & _).
    destruct (fn th (env s)) as [r w']. rewrite Hc.
    exists (L70 c). split; [simpl; lia|]. split; [done|]. by left.
  - right. split; [done|]. destruct Hok as (_ & r & Hc & _). rewrite Hc. simpl.
    exists (L73 c). split; [simpl; lia|]. split; [done|]. by left.
  - destruct (mu s) eqn:Hmu; [left; split; [congruence|done]|].
    right. split; [done|]. exists (L74 c). split; [simpl; lia|]. split; [done|].
    right. left. done.
  - right. split; [done|]. exists (L75 c). split; [simpl; lia|]. split; [done|]. by left.
  - right. split; [done|]. rewrite Hlocked by done.
    exists (L78 c). split; [simpl; lia|]. split; [done|]. right. right. done.
  - right. split; [done|]. destruct Hok as (_ & _ & r & Hr & _). rewrite Hr.
    eexists. split; [|split; [done|by left]]. simpl; lia.
  - left. split; [by intros []|done].
  - left. split; [by intros []|done].
Qed.


Lemma sum_list_insert (l : list nat) i x y :
  l !! i = Some x → sum_list (<[i := y]> l) + x = sum_list l + y.
Proof.
  revert i. induction l as [|z l IH]; intros [|i] Hi; simplify_eq/=; [lia|].
  specialize (IH _ Hi). lia.
Qed.

Lemma work_left_goto s s' t th p' :
  threads s !! t = Some th → threads s' = goto t th p' (threads s) →
  remaining p' < remaining (at_pc th) → work_left s' < work_left s.
Proof.
  intros Hth Hs' Hlt. unfold work_left. rewrite Hs'. unfold goto.
  rewrite list_fmap_insert. simpl.
  pose proof (sum_list_insert ((λ th, remaining (at_pc th)) <$> threads s) t
    (remaining (at_pc th)) (remaining p')) as Hsum.
  rewrite list_lookup_fmap, Hth in Hsum. specialize (Hsum eq_refl). lia.
Qed.

Lemma work_left_zero s :
  Inv s → work_left s = 0 → all_returned s.
Proof.
  intros HI Hz t th Hth. pose proof (inv_pc _ HI _ _ Hth) as Hok.
  assert (remaining (at_pc th) = 0) as Hr.
  { unfold work_left in Hz.
    assert (remaining (at_pc th) ∈ (λ th, remaining (at_pc th)) <$> threads s) as Hin.
    { apply list_elem_of_fmap. exists th. split; [done|]. by eapply list_elem_of_lookup_2. }
    revert Hin Hz. generalize ((λ th, remaining (at_pc th)) <$> threads s).
    intros l. induction l as [|z l IH]; [by intros ?%elem_of_nil|].
    intros [->|Hin]%elem_of_cons Hz; simpl in Hz; [lia|]. apply IH; [done|lia]. }
  destruct (at_pc th); simplify_eq/=; [eauto|done].
Qed.

Lemma work_left_pos s :
  work_left s ≠ 0 →
  ∃ t th, threads s !! t = Some th ∧ ∀ r, at_pc th ≠ Returned r.
Proof.
  unfold work_left. intros Hnz.
  assert (∃ th, th ∈ threads s ∧ remaining (at_pc th) ≠ 0) as (th & Hin & Hr).
  { induction (threads s) as [|th l IH]; csimpl in Hnz; [done|].
    destruct (decide (remaining (at_pc th) = 0)) as [Hz|Hz].
    - destruct IH as (th' & Hin & Hr); [lia|]. exists th'. split; [by right|done].
    - exists th. split; [by left|done]. }
  apply list_elem_of_lookup in Hin as [t Hth]. exists t, th. split; [done|].
  intros r Hp. by rewrite Hp in Hr.
Qed.

Lemma step_held t s : Inv s → lock_held s → lock_held (step t s).
Proof.
  intros HI Hheld.
  destruct (threads s !! t) as [th|] eqn:Hth;
    [|by unfold step; rewrite Hth].
  destruct (step_cases t s th HI Hth) as [[_ ->]|(_ & p' & _ & Hts & Hmove)]; [done|].
  intros Hmu. destruct Hmove as [[Hh Hm]|[(_ & Hh & _)|(_ & _ & Hm)]]; [| |congruence].
  - rewrite Hm in Hmu. destruct (Hheld Hmu) as (t0 & th0 & Hth0 & Hh0).
    destruct (decide (t0 = t)) as [->|Hne].
    + exists t, (mk_goroutine (key th) (fn th) p'). rewrite Hts.
      split; [by apply lookup_goto_self|]. simpl. rewrite Hh. congruence.
    + exists t0, th0. rewrite Hts, (lookup_goto _ _ _ _ _ Hth), decide_False by done.
      done.
  - exists t, (mk_goroutine (key th) (fn th) p'). rewrite Hts.
    split; [by apply lookup_goto_self|done].
Qed.

Lemma run_held sched s : Inv s → lock_held s → lock_held (run sched s).
Proof.
  revert s. induction sched as [|t sched IH]; intros s HI Hh; simpl; [done|].
  apply IH; [by apply step_inv|by apply step_held].
Qed.

Lemma reachable_held (calls : list (string * @func V E W)) w sched :
  lock_held (run sched (init calls w)).
Proof. apply run_held; [apply Inv_init|]. by intros ?. Qed.

Lemma step_moves t s th :
  Inv s → threads s !! t = Some th → enabled s (at_pc th) →
  step t s ≠ s ∧ work_left (step t s) < work_left s.
Proof.
  intros HI Hth Hen.
  destruct (step_cases t s th HI Hth) as [[Hn _]|(_ & p' & Hlt & Hts & _)]; [done|].
  assert (work_left (step t s) < work_left s) as Hw by by eapply work_left_goto.
  split; [|done]. intros Heq. rewrite Heq in Hw. lia.
Qed.

(** Where some goroutine has not returned, one of them is enabled. *)
Lemma some_enabled s t th :
  Inv s → lock_held s → threads s !! t = Some th → (∀ r, at_pc th ≠ Returned r) →
  ∃ t' th', threads s !! t' = Some th' ∧ enabled s (at_pc th').
Proof.
  intros HI Hheld Hth Hnr.
  destruct (mu s) eqn:Hmu.
  - destruct (Hheld Hmu) as (t0 & th0 & Hth0 & Hh0). exists t0, th0. split; [done|].
    by destruct (at_pc th0).
  - pose proof (inv_pc _ HI _ _ Hth) as Hok.
    pose proof (inv_free _ HI Hmu _ _ Hth) as Hfree.
    destruct (at_pc th) eqn:Hpc; simpl in Hok, Hfree; try done;
      try (by exists t, th; split; [done|]; rewrite Hpc).
    + (* line 59: the call is released, or its registrant can go on *)
      destruct Hok as [[(t0 & th0 & Hth0 & Hk0 & Hp0)|(r & Hr & _)] _].
      * pose proof (inv_free _ HI Hmu _ _ Hth0) as Hfree0.
        exists t0, th0. split; [done|].
        destruct Hp0 as [Hp|[Hp|Hp]]; rewrite Hp in Hfree0 |- *; done.
      * exists t, th. split; [done|]. rewrite Hpc. simpl. eauto.
    + by destruct (Hnr r).
Qed.


Lemma step_work_le t s : Inv s → work_left (step t s) ≤ work_left s.
Proof.
  intros HI. destruct (threads s !! t) as [th|] eqn:Hth;
    [|by unfold step; rewrite Hth].
  destruct (step_cases t s th HI Hth) as [[_ ->]|(_ & p' & Hlt & Hts & _)]; [done|].
  apply Nat.lt_le_incl. by eapply work_left_goto.
Qed.

Lemma run_work_le sched s : Inv s → work_left (run sched s) ≤ work_left s.
Proof.
  revert s. induction sched as [|t sched IH]; intros s HI; simpl; [done|].
  etrans; [apply IH; by apply step_inv|by apply step_work_le].
Qed.

Lemma work_left_init (calls : list (string * @func V E W)) w :
  work_left (init calls w) = 13 * length calls.
Proof.
  unfold work_left, init; simpl. induction calls as [|kf calls IH]; [done|].
  csimpl. rewrite IH. lia.
Qed.

Lemma finish s :
  Inv s → lock_held s →
  ∃ sched, length sched ≤ work_left s ∧ all_returned (run sched s).
Proof.
  remember (work_left s) as n eqn:Hn. revert s Hn.
  induction n as [n IH] using lt_wf_ind. intros s -> HI Hheld.
  destruct (decide (work_left s = 0)) as [Hz|Hnz].
  - exists []. split; [simpl; lia|]. by apply work_left_zero.
  - destruct (work_left_pos s Hnz) as (t & th & Hth & Hnr).
    destruct (some_enabled s t th HI Hheld Hth Hnr) as (t' & th' & Hth' & Hen).
    destruct (step_moves t' s th' HI Hth' Hen) as [_ Hlt].
    destruct (IH _ Hlt (step t' s) eq_refl) as (sched & Hlen & Hall);
      [by apply step_inv|by apply step_held|].
    exists (t' :: sched). split; [simpl; lia|done].
Qed.

Lemma returned_quiet s :
  Inv s → lock_held s → all_returned s → mu s = false ∧ ∀ k, lookup_key s k = None.
Proof.
  intros HI Hheld Hall. split.
  - destruct (mu s) eqn:Hmu; [|done].
    destruct (Hheld Hmu) as (t & th & Hth & Hh).
    destruct (Hall _ _ Hth) as [r Hr]. by rewrite Hr in Hh.
  - intros k. destruct (lookup_key s k) as [c|] eqn:Hk; [|done].
    destruct (inv_map _ HI _ _ Hk) as (t & th & Hth & _ & Hreg).
    destruct (Hall _ _ Hth) as [r Hr]. rewrite Hr in Hreg.
    by destruct Hreg as [|[|[|[|]]]].
Qed.

(** ** The log and the environment *)

Lemma replayed_same calls w s s' :
  trace s' = trace s → env s' = env s → replayed calls w s → replayed calls w s'.
Proof. unfold replayed. by intros -> ->. Qed.

Lemma replayed_log calls w s s' e :
  trace s' = e :: trace s → env s' = env s →
  (∀ t k c r, e ≠ EvExec t k c r) →
  replayed calls w s → replayed calls w s'.
Proof.
  unfold replayed. intros -> -> Hne [Henv Hex]. split.
  - rewrite Henv. by destruct e; try done; destruct (Hne t k c r).
  - intros tr1 [|e' tr2] t k c r Heq; simplify_eq/=; [by destruct (Hne t k c r)|].
    by eapply Hex.
Qed.

Lemma replayed_exec calls w s s' t k c r f :
  trace s' = EvExec t k c r :: trace s →
  calls !! t = Some (k, f) → f (env s) = (r, env s') →
  replayed calls w s → replayed calls w s'.
Proof.
  unfold replayed. intros -> Hf Hrun [Henv Hex].
  assert (replay calls (EvExec t k c r :: trace s) w = env s') as Hnew.
  { simpl. by rewrite Hf, <- Henv, Hrun. }
  split; [done|].
  intros tr1 [|e' tr2] t' k' c' r' Heq; simplify_eq/=.
  - exists f. split; [done|]. by rewrite Hf, <- Henv, Hrun.
  - by eapply Hex.
Qed.

Lemma step_replayed calls w t s :
  Inv s → callers s = calls → replayed calls w s → replayed calls w (step t s).
Proof.
  intros HI Hcalls Hrep. unfold step.
  destruct (threads s !! t) as [th|] eqn:Hth; [|done].
  assert (calls !! t = Some (key th, fn th)) as Hf.
  { rewrite <- Hcalls. unfold callers. by rewrite list_lookup_fmap, Hth. }
  pose proof (inv_pc _ HI _ _ Hth) as Hok.
  destruct (at_pc th) eqn:Hpc; repeat case_match; try done;
    try (by eapply replayed_same; [| |exact Hrep]);
    try (by eapply replayed_log; [reflexivity|reflexivity| |exact Hrep]).
  - eapply replayed_exec; [reflexivity|exact Hf| |exact Hrep]. simpl. congruence.
  - simpl in Hok. destruct Hok as (_ & Hc & _). congruence.
Qed.

Lemma run_replayed calls w sched s :
  Inv s → callers s = calls → replayed calls w s → replayed calls w (run sched s).
Proof.
  revert s. induction sched as [|t sched IH]; intros s HI Hcalls Hrep; simpl; [done|].
  apply IH; [by apply step_inv|by rewrite step_callers|by apply step_replayed].
Qed.

Lemma reachable_replayed (calls : list (string * @func V E W)) w sched :
  replayed calls w (run sched (init calls w)).
Proof.
  apply run_replayed; [apply Inv_init|apply callers_init|].
  split; [done|]. by intros tr1 [|e tr2] t k c r Heq.
Qed.

(** ** Properties of [Do] under every schedule *)

(** [Do] never panics — it unlocks only a mutex it holds, never lets the
    WaitGroup counter drop below zero and never assigns into a nil map —
    at most one goroutine is between a [Lock] and its [Unlock], and the
    mutex is locked exactly when some goroutine is there. *)
Theorem Do_never_panics_and_lock_excludes
    (calls : list (string * @func V E W)) w sched :
  let s := run sched (init calls w) in
  (∀ t k, ¬ at_line s t k Panicked) ∧
  (∀ t1 t2 k1 k2 p1 p2,
     at_line s t1 k1 p1 → at_line s t2 k2 p2 →
     holds p1 = true → holds p2 = true → t1 = t2) ∧
  (mu s = true ↔ ∃ t k p, at_line s t k p ∧ holds p = true).
Proof.
  intros s. pose proof (reachable_Inv calls w sched) as HI.
  pose proof (reachable_held calls w sched) as Hheld. fold s in HI, Hheld.
  clearbody s. split; [|split].
  - intros t k [f Hth]. by pose proof (inv_pc _ HI _ _ Hth).
  - intros t1 t2 k1 k2 p1 p2 [f1 H1] [f2 H2] Hh1 Hh2.
    by eapply (inv_excl _ HI t1 t2 _ _ H1 H2).
  - split.
    + intros Hmu. destruct (Hheld Hmu) as (t & [k f p] & Hth & Hh).
      exists t, k, p. split; [by exists f|done].
    + intros (t & k & p & [f Hth] & Hh). by eapply (holder_locked _ _ _ HI Hth).
Qed.

(** At any moment at most one goroutine has a call registered for a key:
    two goroutines that are both between putting their call into the map
    (line 65) and deleting it (line 74) for the same key are the same
    goroutine, and its call is the one the map holds. *)
Theorem one_call_in_flight_per_key
    (calls : list (string * @func V E W)) w sched t1 t2 k p1 p2 c1 c2 :
  let s := run sched (init calls w) in
  at_line s t1 k p1 → registrant p1 c1 →
  at_line s t2 k p2 → registrant p2 c2 →
  t1 = t2 ∧ c1 = c2 ∧ lookup_key s k = Some c1.
Proof.
  intros s [f1 H1] Hr1 [f2 H2] Hr2.
  pose proof (reachable_Inv calls w sched) as HI. fold s in HI. clearbody s.
  assert (∀ t f p c, threads s !! t = Some (mk_goroutine k f p) → registrant p c →
            lookup_key s k = Some c ∧ own p = Some c) as Hreg.
  { intros t f p c Hth Hr. pose proof (inv_pc _ HI _ _ Hth) as Hok. simpl in Hok.
    destruct Hr as [->|[->|[->|[->| ->]]]]; simpl in Hok; by destruct Hok as [? _]. }
  destruct (Hreg _ _ _ _ H1 Hr1) as [Hk1 Ho1].
  destruct (Hreg _ _ _ _ H2 Hr2) as [Hk2 Ho2].
  assert (c1 = c2) as <- by congruence.
  split; [|done]. by eapply (inv_own _ HI t1 t2 _ _ c1 H1 H2).
Qed.

(** Provided the functions passed to [Do] return (a function that panics
    or does not return leaves its call in the map), every call in the
    map belongs to a goroutine that is still inside [Do], between
    registering the call and deleting it; so once every caller has
    returned the mutex is free and the map is empty. *)
Theorem map_holds_only_calls_in_progress
    (calls : list (string * @func V E W)) w sched :
  let s := run sched (init calls w) in
  (∀ k c, lookup_key s k = Some c → ∃ t p, at_line s t k p ∧ registrant p c) ∧
  (all_returned s → mu s = false ∧ ∀ k, lookup_key s k = None).
Proof.
  intros s. pose proof (reachable_Inv calls w sched) as HI.
  pose proof (reachable_held calls w sched) as Hheld. fold s in HI, Hheld.
  clearbody s. split.
  - intros k c Hk. destruct (inv_map _ HI _ _ Hk) as (t & [k' f p] & Hth & Hkey & Hreg).
    simpl in Hkey, Hreg. subst k'. exists t, p. split; [by exists f|done].
  - by apply returned_quiet.
Qed.

(** Provided the functions passed to [Do] return (after a function that
    panics or does not return, the callers of its key wait for ever),
    [Do] cannot deadlock: as long as some caller has not returned, some
    goroutine is not blocked and its next statement changes the state. *)
Theorem some_caller_can_always_advance
    (calls : list (string * @func V E W)) w sched t k p :
  let s := run sched (init calls w) in
  at_line s t k p → (∀ r, p ≠ Returned r) →
  ∃ t' k' p', at_line s t' k' p' ∧ enabled s p' ∧ step t' s ≠ s.
Proof.
  intros s [f Hth] Hnr. pose proof (reachable_Inv calls w sched) as HI.
  pose proof (reachable_held calls w sched) as Hheld. fold s in HI, Hheld.
  clearbody s.
  destruct (some_enabled s t _ HI Hheld Hth Hnr) as (t' & [k' f' p'] & Hth' & Hen).
  exists t', k', p'. split; [by exists f'|]. split; [done|].
  by destruct (step_moves t' s _ HI Hth' Hen).
Qed.

(** Provided the functions passed to [Do] return, every caller can
    return: from any state the callers reach, some schedule of at most
    thirteen statements per caller brings every one of them to its
    return, with the mutex free and the map empty. *)
Theorem every_caller_can_return
    (calls : list (string * @func V E W)) w sched :
  let s := run sched (init calls w) in
  ∃ more, length more ≤ 13 * length calls ∧
    all_returned (run more s) ∧ mu (run more s) = false ∧
    ∀ k, lookup_key (run more s) k = None.
Proof.
  intros s. pose proof (reachable_Inv calls w sched) as HI.
  pose proof (reachable_held calls w sched) as Hheld.
  pose proof (run_work_le sched (init calls w) (Inv_init calls w)) as Hle.
  rewrite work_left_init in Hle. fold s in HI, Hheld, Hle. clearbody s.
  destruct (finish s HI Hheld) as (more & Hlen & Hall).
  exists more. split; [lia|]. split; [done|].
  apply returned_quiet; [by apply run_Inv|by apply run_held|done].
Qed.

(** A caller whose key no other caller uses runs its own function: when
    it has returned, it has executed the function and returns what the
    function returned on the environment it found. *)
Theorem sole_caller_runs_its_own_function
    (calls : list (string * @func V E W)) w sched t k f r :
  let s := run sched (init calls w) in
  calls !! t = Some (k, f) →
  (∀ t' f', calls !! t' = Some (k, f') → t' = t) →
  at_line s t k (Returned r) →
  ∃ c tr1 tr2, trace s = tr2 ++ EvExec t k c r :: tr1 ∧
    (f (replay calls tr1 w)).1 = r.
Proof.
  intros s Hf Hsole [f0 Hth].
  pose proof (reachable_Inv calls w sched) as HI.
  pose proof (reachable_callers calls w sched) as Hcalls.
  destruct (reachable_replayed calls w sched) as [_ Hrep].
  fold s in HI, Hcalls, Hrep. clearbody s.
  pose proof (inv_pc _ HI _ _ Hth) as Hok. simpl in Hok.
  destruct Hok as (c & _ & Hex).
  assert (∃ t', EvExec t' k c r ∈ trace s) as [t' Ht'].
  { destruct Hex as [[? _]|[_ ?]]; eauto. }
  destruct (inv_exec_genuine _ HI _ _ _ _ Ht') as (_ & [k' f' p'] & w0 & Hth' & Hk' & _).
  simpl in Hk'. subst k'.
  assert (t' = t) as ->.
  { apply (Hsole t' f'). rewrite <- Hcalls. apply callers_lookup. eauto. }
  apply list_elem_of_split in Ht' as (tr2 & tr1 & Htr).
  destruct (Hrep _ _ _ _ _ _ Htr) as (f1 & Hf1 & Hrun).
  exists c, tr1, tr2. split; [done|].
  assert (f1 = f) as -> by congruence. by rewrite Hrun.
Qed.


End Liveness.

Lemma one_call_in_flight_per_key_witness :
  at_line (run (replicate 7 0 ++ replicate 4 1) (init two_callers 0)) 0 "k"
    (L69 1%positive) ∧
  registrant (V := nat) (E := string) (L69 1%positive) 1%positive ∧
  0 = 0 ∧ 1%positive = 1%positive ∧
  lookup_key (run (replicate 7 0 ++ replicate 4 1) (init two_callers 0)) "k"
    = Some 1%positive.
Proof.
  assert (at_line (run (replicate 7 0 ++ replicate 4 1) (init two_callers 0)) 0 "k"
            (L69 1%positive)) as Hat
    by (exists count_runs; vm_compute; reflexivity).
  assert (registrant (V := nat) (E := string) (L69 1%positive) 1%positive) as Hreg
    by (right; left; reflexivity).
  split; [exact Hat|]. split; [exact Hreg|].
  exact (one_call_in_flight_per_key two_callers 0 (replicate 7 0 ++ replicate 4 1)
           0 0 "k" (L69 1%positive) (L69 1%positive) 1%positive 1%positive
           Hat Hreg Hat Hreg).
Defined.

Lemma some_caller_can_always_advance_witness :
  at_line (run (replicate 7 0 ++ replicate 4 1) (init two_callers 0)) 1 "k"
    (L59 1%positive) ∧
  ∃ t' k' p',
    at_line (run (replicate 7 0 ++ replicate 4 1) (init two_callers 0)) t' k' p' ∧
    enabled (run (replicate 7 0 ++ replicate 4 1) (init two_callers 0)) p' ∧
    step t' (run (replicate 7 0 ++ replicate 4 1) (init two_callers 0)) ≠
      run (replicate 7 0 ++ replicate 4 1) (init two_callers 0).
Proof.
  assert (at_line (run (replicate 7 0 ++ replicate 4 1) (init two_callers 0)) 1 "k"
            (L59 1%positive)) as Hat
    by (exists count_runs; vm_compute; reflexivity).
  split; [exact Hat|].
  apply (some_caller_can_always_advance two_callers 0
           (replicate 7 0 ++ replicate 4 1) 1 "k" (L59 1%positive) Hat).
  intros r Hr. discriminate Hr.
Defined.

Lemma sole_caller_runs_its_own_function_witness :
  at_line (run overlapping (init three_and_one 0)) 3 "j" (Returned (Some 0, None)) ∧
  ∃ c tr1 tr2,
    trace (run overlapping (init three_and_one 0)) =
      tr2 ++ EvExec 3 "j" c (Some 0, None) :: tr1 ∧
    (count_runs (replay three_and_one tr1 0)).1 = (Some 0, None).
Proof.
  assert (at_line (run overlapping (init three_and_one 0)) 3 "j"
            (Returned (Some 0, None))) as Hat
    by (exists count_runs; vm_compute; reflexivity).
  split; [exact Hat|].
  apply (sole_caller_runs_its_own_function three_and_one 0 overlapping 3 "j"
           count_runs (Some 0, None)).
  - reflexivity.
  - intros [|[|[|[|t']]]] f' Hf; try discriminate Hf; reflexivity.
  - exact Hat.
Defined.

End SingleFlightFacts.

(* ===================================================================== *)
(** * Properties of lru.Cache                                             *)
(* ===================================================================== *)

Module LRUFacts.
Import LRU.

(* --------------------------------------------------------------------- *)
(** ** Representation invariant                                           *)
(* --------------------------------------------------------------------- *)

Section Invariant.
Context {Key : Type} `{Countable Key} {V W : Type}.
Implicit Types (c : Cache Key V W) (l : list Element) (m : gmap Key Element).
Implicit Types (e : Element) (k : Key) (v : option V) (h : list (op Key V)).

Lemma key_at_Some c e k :
  key_at c e = Some k ↔ ∃ kv, elems c !! e = Some kv ∧ key kv = k.
Proof.
  unfold key_at. destruct (elems c !! e) as [kv|]; simpl; split.
  - intros [= <-]. eauto.
  - intros (? & [= <-] & <-). done.
  - done.
  - intros (? & ? & _). done.
Qed.

Lemma wf_fresh c l m : wf c l m → fresh (dom (elems c)) ∉ l.
Proof.
  intros Hwf Hin. destruct (wf_list _ _ _ Hwf _ Hin) as (k & Hk & _).
  apply key_at_Some in Hk as (kv & Hkv & _).
  apply (is_fresh (dom (elems c))). apply elem_of_dom. eauto.
Qed.

Lemma wf_key_inj c l m e1 e2 k :
  wf c l m → e1 ∈ l → e2 ∈ l →
  key_at c e1 = Some k → key_at c e2 = Some k → e1 = e2.
Proof.
  intros Hwf H1 H2 K1 K2.
  destruct (wf_list _ _ _ Hwf _ H1) as (k1 & K1' & M1).
  destruct (wf_list _ _ _ Hwf _ H2) as (k2 & K2' & M2).
  congruence.
Qed.

Lemma wf_New n w : wf (New n w : Cache Key V W) [] ∅.
Proof.
  split; simpl; try done.
  - constructor.
  - intros e He. inversion He.
Qed.

Lemma wf_set_OnEvicted f c l m : wf c l m → wf (set_OnEvicted f c) l m.
Proof. intros [? ? ? ? ?]. split; done. Qed.

Lemma wf_set_env w c l m : wf c l m → wf (set_env w c) l m.
Proof. intros [? ? ? ? ?]. split; done. Qed.

(** Unlinking an element of the list and deleting its key. *)
Lemma wf_remove c l m e k :
  wf c l m → e ∈ l → key_at c e = Some k →
  wf (set_cache (Some (delete k m)) (set_ll (Some (list_Remove e l)) c))
     (list_Remove e l) (delete k m).
Proof.
  intros Hwf He Hk. unfold list_Remove. split; simpl; try done.
  - apply NoDup_filter, (wf_nodup _ _ _ Hwf).
  - intros e' [Hne He']%list_elem_of_filter.
    destruct (wf_list _ _ _ Hwf _ He') as (k' & Hk' & Hm').
    exists k'. split; [done|].
    rewrite lookup_delete_ne; [done|].
    intros <-. apply Hne. eapply wf_key_inj; eauto.
  - intros k' e' Hm'.
    apply lookup_delete_Some in Hm' as [Hne Hm'].
    destruct (wf_map _ _ _ Hwf _ _ Hm') as [He' Hk'].
    split; [|done]. apply list_elem_of_filter. split; [|done].
    intros ->. unfold key_at in *. congruence.
Qed.

(** Moving an element of the list to the front, entries keeping their keys. *)
Lemma wf_move c l m e (hp : gmap Element (entry Key V)) :
  wf c l m → e ∈ l →
  (∀ e', key <$> hp !! e' = key_at c e') →
  wf (set_elems hp (set_ll (Some (MoveToFront e l)) c)) (MoveToFront e l) m.
Proof.
  intros Hwf He Hh. unfold MoveToFront, list_Remove.
  rewrite decide_True by done.
  pose proof (wf_cache _ _ _ Hwf).
  split; simpl; try done.
  - apply NoDup_cons. split.
    + rewrite list_elem_of_filter. intros [Hne _]. done.
    + apply NoDup_filter, (wf_nodup _ _ _ Hwf).
  - intros e' He'. unfold key_at; simpl. rewrite Hh.
    apply (wf_list _ _ _ Hwf).
    apply elem_of_cons in He' as [->|[_ ?]%list_elem_of_filter]; done.
  - intros k' e' Hm'. unfold key_at; simpl. rewrite Hh.
    destruct (wf_map _ _ _ Hwf _ _ Hm') as [He' Hk']. split; [|done].
    destruct (decide (e' = e)) as [->|Hne]; [left|right].
    apply list_elem_of_filter. done.
Qed.

(** Linking a new element in front for a key the map does not have. *)
Lemma wf_push c l m k v :
  wf c l m → m !! k = None →
  let ele := fresh (dom (elems c)) in
  wf (set_cache (Some (<[k := ele]> m))
        (set_elems (<[ele := mk_entry k v]> (elems c))
           (set_ll (Some (PushFront ele l)) c)))
     (ele :: l) (<[k := ele]> m).
Proof.
  intros Hwf Hk ele. pose proof (wf_fresh _ _ _ Hwf) as Hfresh. fold ele in Hfresh.
  split; simpl; try done.
  - apply NoDup_cons. split; [done|]. apply (wf_nodup _ _ _ Hwf).
  - intros e' He'. unfold key_at; simpl.
    apply elem_of_cons in He' as [->|He'].
    + exists k. rewrite !lookup_insert_eq. done.
    + assert (e' ≠ ele) by (intros ->; done).
      destruct (wf_list _ _ _ Hwf _ He') as (k' & Hk' & Hm').
      exists k'. rewrite lookup_insert_ne by done. split; [done|].
      rewrite lookup_insert_ne; [done|]. intros <-. congruence.
  - intros k' e' Hm'. unfold key_at; simpl.
    apply lookup_insert_Some in Hm' as [[<- <-]|[Hne Hm']].
    + split; [left|]. by rewrite lookup_insert_eq.
    + destruct (wf_map _ _ _ Hwf _ _ Hm') as [He' Hk'].
      split; [by right|].
      rewrite lookup_insert_ne; [done|]. intros <-. done.
Qed.

(** ** The operations on a well-formed cache *)

Lemma set_env_id c : set_env (env c) c = c.
Proof. by destruct c. Qed.

Lemma removeElement_wf c l m e k :
  wf c l m → e ∈ l → key_at c e = Some k →
  ∃ kv, elems c !! e = Some kv ∧ key kv = k ∧
    removeElement e c =
      Some (set_env (fire c k (value kv))
              (set_cache (Some (delete k m)) (set_ll (Some (list_Remove e l)) c))).
Proof.
  intros Hwf He Hk. apply key_at_Some in Hk as (kv & Hkv & <-).
  exists kv. split; [done|]. split; [done|].
  unfold removeElement, fire.
  rewrite (wf_ll _ _ _ Hwf); simpl. rewrite Hkv; simpl.
  rewrite (wf_cache _ _ _ Hwf); simpl.
  destruct (OnEvicted c); [done|].
  by rewrite <- (set_env_id (set_cache _ _)) at 1.
Qed.

Lemma last_Some_elem l e : last l = Some e → e ∈ l.
Proof.
  intros (l' & ->)%last_Some. apply elem_of_app. right. by left.
Qed.

(** [RemoveOldest] on a well-formed cache: nothing happens on the empty
    list, the back element goes otherwise. *)
Lemma RemoveOldest_wf c l m :
  wf c l m →
  (l = [] ∧ RemoveOldest c = Some c) ∨
  (∃ e kv, last l = Some e ∧ elems c !! e = Some kv ∧
     RemoveOldest c =
       Some (set_env (fire c (key kv) (value kv))
               (set_cache (Some (delete (key kv) m))
                  (set_ll (Some (list_Remove e l)) c)))).
Proof.
  intros Hwf. unfold RemoveOldest, Back.
  rewrite (wf_cache _ _ _ Hwf), (wf_ll _ _ _ Hwf); simpl.
  destruct (last l) as [e|] eqn:Hlast.
  - right. pose proof (last_Some_elem _ _ Hlast) as He.
    destruct (wf_list _ _ _ Hwf _ He) as (k & Hk & _).
    destruct (removeElement_wf _ _ _ _ _ Hwf He Hk) as (kv & Hkv & <- & ->).
    by exists e, kv.
  - left. split; [|done]. by apply last_None.
Qed.

Lemma Get_wf_hit c l m k e :
  wf c l m → m !! k = Some e →
  ∃ kv, elems c !! e = Some kv ∧ key kv = k ∧
    Get k c = Some (value kv, true, set_ll (Some (MoveToFront e l)) c).
Proof.
  intros Hwf Hm. destruct (wf_map _ _ _ Hwf _ _ Hm) as [He Hk].
  apply key_at_Some in Hk as (kv & Hkv & <-).
  exists kv. split; [done|]. split; [done|].
  unfold Get. rewrite (wf_cache _ _ _ Hwf), Hm, (wf_ll _ _ _ Hwf); simpl.
  by rewrite Hkv.
Qed.

Lemma Get_wf_miss c l m k :
  wf c l m → m !! k = None → Get k c = Some (None, false, c).
Proof.
  intros Hwf Hm. unfold Get. by rewrite (wf_cache _ _ _ Hwf), Hm.
Qed.

Lemma Add_wf_present c l m k v e :
  wf c l m → m !! k = Some e →
  Add k v c =
    Some (set_elems (<[e := mk_entry k v]> (elems c))
            (set_ll (Some (MoveToFront e l)) c)).
Proof.
  intros Hwf Hm. destruct (wf_map _ _ _ Hwf _ _ Hm) as [He Hk].
  apply key_at_Some in Hk as (kv & Hkv & <-).
  unfold Add. rewrite (wf_cache _ _ _ Hwf); simpl.
  rewrite (wf_cache _ _ _ Hwf); simpl. rewrite Hm, (wf_ll _ _ _ Hwf); simpl.
  by rewrite Hkv.
Qed.

Lemma Add_wf_absent c l m k v :
  wf c l m → m !! k = None →
  Add k v c =
    if bool_decide (MaxEntries c ≠ 0%Z) && bool_decide (Z.of_nat (S (length l)) > MaxEntries c)%Z
    then RemoveOldest (pushed k v c l m)
    else Some (pushed k v c l m).
Proof.
  intros Hwf Hm. unfold Add. rewrite (wf_cache _ _ _ Hwf); simpl.
  rewrite (wf_cache _ _ _ Hwf); simpl. rewrite Hm, (wf_ll _ _ _ Hwf); simpl.
  done.
Qed.

(** ** Recency order *)

Lemma last_access_snoc h o k :
  last_access (h ++ [o]) k =
    if touches o k then S (length h) else last_access h k.
Proof.
  unfold last_access. rewrite rev_unit; simpl. by rewrite length_rev.
Qed.

Lemma last_access_le h k : last_access h k ≤ length h.
Proof.
  unfold last_access. rewrite <- (length_rev h).
  induction (rev h) as [|o hr IH]; simpl; [lia|].
  destruct (touches o k); lia.
Qed.

Lemma sorted_weaken (R R' : relation Key) (ks : list Key) :
  (∀ x y, x ∈ ks → y ∈ ks → R x y → R' x y) →
  StronglySorted R ks → StronglySorted R' ks.
Proof.
  induction ks as [|x ks IH]; intros HR Hs; [constructor|].
  apply StronglySorted_cons in Hs as [Hx Hs].
  apply StronglySorted_cons. split.
  - rewrite Forall_forall in Hx |- *. intros y Hy.
    apply HR; [left|by right|by apply Hx].
  - apply IH; [|done]. intros y z Hy Hz. apply HR; by right.
Qed.

Lemma sorted_omap_filter {A} (R : relation Key) (f : A → option Key)
    (P : A → Prop) `{∀ x, Decision (P x)} (xs : list A) :
  StronglySorted R (omap f xs) → StronglySorted R (omap f (filter P xs)).
Proof.
  induction xs as [|x xs IH]; simpl; [done|].
  assert (∀ y, y ∈ omap f (filter P xs) → y ∈ omap f xs) as Hsub.
  { intros y (z & [_ Hz]%list_elem_of_filter & Hy)%list_elem_of_omap.
    apply list_elem_of_omap. eauto. }
  rewrite filter_cons.
  destruct (f x) as [k|] eqn:Hfx.
  - intros [Hk Hs]%StronglySorted_cons.
    destruct (decide (P x)); simpl; [|by apply IH].
    rewrite Hfx. apply StronglySorted_cons. split; [|by apply IH].
    rewrite Forall_forall in Hk |- *. intros y Hy. by apply Hk, Hsub.
  - intros Hs. destruct (decide (P x)); simpl; [rewrite Hfx|]; by apply IH.
Qed.

Lemma omap_ext_in {A B} (f g : A → option B) (xs : list A) :
  (∀ x, x ∈ xs → f x = g x) → omap f xs = omap g xs.
Proof.
  induction xs as [|x xs IH]; intros Hfg; [done|]. csimpl.
  rewrite (Hfg x) by left. rewrite IH; [done|].
  intros y Hy. apply Hfg. by right.
Qed.

(** An operation that does not access the keys present keeps the order. *)
Lemma sorted_untouched h o ks :
  (∀ k, k ∈ ks → touches o k = false) →
  StronglySorted (newer h) ks → StronglySorted (newer (h ++ [o])) ks.
Proof.
  intros Ht. apply sorted_weaken. intros x y Hx Hy. unfold newer.
  by rewrite !last_access_snoc, !Ht.
Qed.

(** The accessed key, put in front of the others, is the most recent. *)
Lemma sorted_touched h o k ks :
  touches o k = true → (∀ k', k' ∈ ks → touches o k' = false) →
  StronglySorted (newer h) ks → StronglySorted (newer (h ++ [o])) (k :: ks).
Proof.
  intros Hk Ht Hs. apply StronglySorted_cons. split.
  - apply Forall_forall. intros k' Hk'. unfold newer.
    rewrite !last_access_snoc, Hk, Ht by done.
    pose proof (last_access_le h k'). lia.
  - by apply sorted_untouched.
Qed.

Lemma touches_Add_ne k k' v : k ≠ k' → touches (OpAdd k v) k' = false.
Proof. intros. simpl. by rewrite bool_decide_eq_false. Qed.

Lemma touches_Get_ne k k' : k ≠ k' → touches (OpGet k : op Key V) k' = false.
Proof. intros. simpl. by rewrite bool_decide_eq_false. Qed.

Lemma keys_ll c l : ll c = Some l → keys c = omap (key_at c) l.
Proof. unfold keys. by intros ->. Qed.

(** Every key of the sequence is a key of the map. *)
Lemma wf_keys_map c l m k :
  wf c l m → k ∈ omap (key_at c) l → ∃ e, m !! k = Some e ∧ e ∈ l.
Proof.
  intros Hwf (e & He & Hk)%list_elem_of_omap.
  destruct (wf_list _ _ _ Hwf _ He) as (k' & Hk' & Hm).
  exists e. split; [congruence|done].
Qed.

Lemma wf_keys_move c l m k e :
  wf c l m → m !! k = Some e →
  omap (key_at c) (MoveToFront e l) = k :: omap (key_at c) (list_Remove e l) ∧
  k ∉ omap (key_at c) (list_Remove e l).
Proof.
  intros Hwf Hm. destruct (wf_map _ _ _ Hwf _ _ Hm) as [He Hk].
  unfold MoveToFront. rewrite decide_True by done. simpl. rewrite Hk.
  split; [done|].
  intros (e' & [Hne He']%list_elem_of_filter & Hk')%list_elem_of_omap.
  apply Hne. eapply wf_key_inj; eauto.
Qed.

(** Removing an element keeps the recency order, whatever it is. *)
Lemma removed_sorted (R : relation Key) c l m e k w :
  wf c l m → e ∈ l → key_at c e = Some k →
  StronglySorted R (keys c) →
  let c' := set_env w (set_cache (Some (delete k m))
                         (set_ll (Some (list_Remove e l)) c)) in
  wf c' (list_Remove e l) (delete k m) ∧ StronglySorted R (keys c').
Proof.
  intros Hwf He Hk Hs c'. split.
  - by apply wf_set_env, wf_remove.
  - rewrite (keys_ll _ _ (wf_ll _ _ _ Hwf)) in Hs.
    unfold c', keys, key_at; simpl. by apply sorted_omap_filter.
Qed.

Lemma RemoveOldest_sorted (R : relation Key) c l m :
  wf c l m → StronglySorted R (keys c) →
  ∃ c' l' m', RemoveOldest c = Some c' ∧ wf c' l' m' ∧
    StronglySorted R (keys c').
Proof.
  intros Hwf Hs.
  destruct (RemoveOldest_wf _ _ _ Hwf) as [[_ ->]|(e & kv & Hlast & Hkv & ->)].
  - by exists c, l, m.
  - pose proof (last_Some_elem _ _ Hlast) as He.
    assert (key_at c e = Some (key kv)) as Hk by (apply key_at_Some; eauto).
    eexists _, _, _. split; [done|]. by apply removed_sorted.
Qed.

Lemma Remove_sorted (R : relation Key) c l m k :
  wf c l m → StronglySorted R (keys c) →
  ∃ c' l' m', Remove k c = Some c' ∧ wf c' l' m' ∧
    StronglySorted R (keys c').
Proof.
  intros Hwf Hs. unfold Remove. rewrite (wf_cache _ _ _ Hwf).
  destruct (m !! k) as [e|] eqn:Hm.
  - destruct (wf_map _ _ _ Hwf _ _ Hm) as [He Hk].
    destruct (removeElement_wf _ _ _ _ _ Hwf He Hk) as (kv & Hkv & <- & ->).
    eexists _, _, _. split; [done|]. by apply removed_sorted.
  - by exists c, l, m.
Qed.

Lemma exec_inv h o c :
  inv h c → ∃ c', exec o c = Some c' ∧ inv (h ++ [o]) c'.
Proof.
  intros [(l & m & Hwf) Hs]. destruct o as [k v|k|k|]; simpl.
  - (* Add *)
    destruct (m !! k) as [e|] eqn:Hm.
    + rewrite (Add_wf_present _ _ _ _ _ _ Hwf Hm).
      destruct (wf_map _ _ _ Hwf _ _ Hm) as [He Hk].
      destruct (wf_keys_move _ _ _ _ _ Hwf Hm) as [Hmv Hnin].
      assert (∀ e', key <$> (<[e := mk_entry k v]> (elems c)) !! e' = key_at c e')
        as Hsame.
      { intros e'. destruct (decide (e = e')) as [<-|Hne].
        - by rewrite lookup_insert_eq, Hk.
        - by rewrite lookup_insert_ne. }
      eexists. split; [done|]. split.
      * eexists _, _. by apply wf_move.
      * unfold keys; simpl.
        rewrite (omap_ext_in _ (key_at c)) by (intros; apply Hsame).
        rewrite Hmv. rewrite (keys_ll _ _ (wf_ll _ _ _ Hwf)) in Hs.
        apply sorted_touched.
        -- simpl. by rewrite bool_decide_eq_true.
        -- intros k' Hk'. apply touches_Add_ne. by intros <-.
        -- by apply sorted_omap_filter.
    + rewrite (Add_wf_absent _ _ _ _ _ Hwf Hm).
      assert (wf (pushed k v c l m) (fresh (dom (elems c)) :: l)
                (<[k := fresh (dom (elems c))]> m)) as Hwf'
        by (by apply wf_push).
      pose proof (wf_fresh _ _ _ Hwf) as Hfresh.
      assert (StronglySorted (newer (h ++ [OpAdd k v])) (keys (pushed k v c l m)))
        as Hs'.
      { unfold keys, pushed, key_at; simpl. rewrite lookup_insert_eq; simpl.
        rewrite (omap_ext_in _ (key_at c) l).
        - rewrite (keys_ll _ _ (wf_ll _ _ _ Hwf)) in Hs.
          apply sorted_touched; [| |done].
          + simpl. by rewrite bool_decide_eq_true.
          + intros k' (e & Hk' & _)%(wf_keys_map _ _ _ _ Hwf).
            apply touches_Add_ne. intros <-; congruence.
        - intros e He. unfold key_at.
          rewrite lookup_insert_ne; [done|]. by intros <-. }
      destruct (_ && _).
      * destruct (RemoveOldest_sorted _ _ _ _ Hwf' Hs') as (c' & l' & m' & -> & ? & ?).
        exists c'. split; [done|]. split; eauto.
      * eexists. split; [done|]. split; eauto.
  - (* Get *)
    destruct (m !! k) as [e|] eqn:Hm.
    + destruct (Get_wf_hit _ _ _ _ _ Hwf Hm) as (kv & Hkv & <- & ->); simpl.
      destruct (wf_map _ _ _ Hwf _ _ Hm) as [He Hk].
      destruct (wf_keys_move _ _ _ _ _ Hwf Hm) as [Hmv Hnin].
      eexists. split; [done|]. split.
      * eexists _, _. rewrite <- (set_env_id c) at 1.
        apply (wf_move _ _ _ _ (elems c)); done.
      * unfold keys; simpl. fold (key_at c). change (omap _ (MoveToFront e l))
          with (omap (key_at c) (MoveToFront e l)).
        rewrite Hmv. rewrite (keys_ll _ _ (wf_ll _ _ _ Hwf)) in Hs.
        apply sorted_touched.
        -- simpl. by rewrite bool_decide_eq_true.
        -- intros k' Hk'. apply touches_Get_ne. by intros <-.
        -- by apply sorted_omap_filter.
    + rewrite (Get_wf_miss _ _ _ _ Hwf Hm); simpl.
      exists c. split; [done|]. split; [eauto|].
      apply sorted_untouched; [|done].
      rewrite (keys_ll _ _ (wf_ll _ _ _ Hwf)).
      intros k' (e & Hk' & _)%(wf_keys_map _ _ _ _ Hwf).
      apply touches_Get_ne. intros <-; congruence.
  - (* Remove *)
    destruct (Remove_sorted (newer h) _ _ _ k Hwf Hs) as (c' & l' & m' & -> & ? & ?).
    exists c'. split; [done|]. split; [eauto|].
    by apply sorted_untouched.
  - (* RemoveOldest *)
    destruct (RemoveOldest_sorted (newer h) _ _ _ Hwf Hs) as (c' & l' & m' & -> & ? & ?).
    exists c'. split; [done|]. split; [eauto|].
    by apply sorted_untouched.
Qed.

Lemma run_inv h0 h c0 :
  inv h0 c0 → ∃ c, run h c0 = Some c ∧ inv (h0 ++ h) c.
Proof.
  revert h0 c0. induction h as [|o h IH]; intros h0 c0 Hinv; simpl.
  - exists c0. by rewrite app_nil_r.
  - destruct (exec_inv _ o _ Hinv) as (c1 & -> & Hinv1); simpl.
    destruct (IH _ _ Hinv1) as (c & Hrun & Hinv2).
    exists c. split; [done|]. by rewrite <- app_assoc in Hinv2.
Qed.

(** ** From the invariant to the specification's wording, and back *)

Lemma NoDup_omap_inj {A B} (f : A → option B) (xs : list A) :
  NoDup xs →
  (∀ x y b, x ∈ xs → y ∈ xs → f x = Some b → f y = Some b → x = y) →
  NoDup (omap f xs).
Proof.
  induction 1 as [|x xs Hx Hnd IH]; intros Hinj; csimpl; [constructor|].
  assert (NoDup (omap f xs)) as IH'.
  { apply IH. intros y z b Hy Hz. apply Hinj; by right. }
  destruct (f x) as [b|] eqn:Hfx; [|done].
  apply NoDup_cons. split; [|done].
  intros (y & Hy & Hfy)%list_elem_of_omap.
  apply Hx. rewrite (Hinj x y b); [done|left|by right|done|done].
Qed.

Lemma length_omap_total {A B} (f : A → option B) (xs : list A) :
  (∀ x, x ∈ xs → is_Some (f x)) → length (omap f xs) = length xs.
Proof.
  induction xs as [|x xs IH]; intros Hf; csimpl; [done|].
  destruct (Hf x) as [b ->]; [left|]. simpl. rewrite IH; [done|].
  intros y Hy. apply Hf. by right.
Qed.

Lemma wf_length c l m : wf c l m → length l = size m.
Proof.
  intros Hwf. set (ks := omap (key_at c) l).
  assert (length ks = length l) as <-.
  { apply length_omap_total. intros e He.
    destruct (wf_list _ _ _ Hwf _ He) as (k & -> & _). eauto. }
  assert (NoDup ks) as Hnd.
  { apply NoDup_omap_inj; [apply (wf_nodup _ _ _ Hwf)|].
    intros x y b ? ? ? ?. eapply wf_key_inj; eauto. }
  rewrite <- size_dom, <- (size_list_to_set (C := gset Key) ks) by done.
  f_equal. apply set_eq. intros k. rewrite elem_of_list_to_set, elem_of_dom.
  split.
  - intros (e & Hm & _)%(wf_keys_map _ _ _ _ Hwf). eauto.
  - intros [e Hm]. destruct (wf_map _ _ _ Hwf _ _ Hm) as [He Hk].
    apply list_elem_of_omap. eauto.
Qed.

Lemma wf_consistent c l m : wf c l m → consistent c l m.
Proof.
  intros Hwf. split.
  - apply (wf_ll _ _ _ Hwf).
  - apply (wf_cache _ _ _ Hwf).
  - intros k e Hm. destruct (wf_map _ _ _ Hwf _ _ Hm) as [He Hk].
    split; [done|].
    apply list_elem_of_lookup in He as [i Hi]. exists i. split; [done|].
    intros j Hj. eapply NoDup_lookup; eauto using wf_nodup.
  - intros i e Hi. apply (wf_list _ _ _ Hwf). eapply list_elem_of_lookup_2, Hi.
  - by eapply wf_length.
Qed.

Lemma consistent_wf c l m : consistent c l m → wf c l m.
Proof.
  intros [Hl Hc Hml Hlm Hlen]. split; [done|done|..].
  - apply NoDup_alt. intros i j e Hi Hj.
    destruct (Hlm _ _ Hi) as (k & _ & Hm).
    destruct (Hml _ _ Hm) as (_ & i0 & _ & Huniq).
    by rewrite (Huniq _ Hi), (Huniq _ Hj).
  - intros e [i Hi]%list_elem_of_lookup. eauto.
  - intros k e Hm. destruct (Hml _ _ Hm) as (Hk & i & Hi & _).
    split; [|done]. eapply list_elem_of_lookup_2, Hi.
Qed.

Lemma sorted_lookup (R : relation Key) (ks : list Key) i j a b :
  StronglySorted R ks → i < j → ks !! i = Some a → ks !! j = Some b → R a b.
Proof.
  intros Hs. revert i j. induction Hs as [|x ks Hs IH Hx]; intros i j Hij Hi Hj.
  - done.
  - destruct j as [|j]; [lia|]. simpl in Hj. destruct i as [|i]; simpl in Hi.
    + injection Hi as ->. rewrite Forall_forall in Hx.
      eapply Hx, list_elem_of_lookup_2, Hj.
    + eapply (IH i j); [lia|done|done].
Qed.

Lemma inv_recency_ordered h c : inv h c → recency_ordered h c.
Proof.
  intros [_ Hs] i j ki kj Hij Hi Hj.
  apply (sorted_lookup _ _ _ _ _ _ Hs Hij Hi Hj).
Qed.

Lemma inv_New n f w : inv [] (set_OnEvicted f (New n w) : Cache Key V W).
Proof.
  split.
  - exists [], ∅. apply wf_set_OnEvicted, wf_New.
  - constructor.
Qed.

(** C2. For keys that are equal to themselves (every comparable value but
    a NaN and the structs and arrays that hold one): whatever sequence of
    Add, Get, Remove and RemoveOldest is applied to a cache made by New
    (with or without an eviction callback), every call returns, and in
    the resulting cache the lookup mapping and the
    recency sequence are mutually consistent: each key of the mapping
    points to exactly one position of the sequence, whose entry carries
    that key; the key of each entry of the sequence is mapped to that
    entry; the sequence is as long as the mapping is large; and from front
    to back each key was accessed (by Add or Get) more recently than the
    keys behind it. *)
Theorem C2_mapping_and_sequence_consistent
    (n : Z) (f : option (Key → option V → W → W)) (w : W) (h : list (op Key V)) :
  ∃ c l m, run h (set_OnEvicted f (New n w)) = Some c ∧
    consistent c l m ∧ recency_ordered h c.
Proof.
  destruct (run_inv [] h _ (inv_New n f w)) as (c & Hrun & Hinv).
  destruct (inv_wf _ _ Hinv) as (l & m & Hwf).
  exists c, l, m. split; [done|]. split.
  - by apply wf_consistent.
  - by apply inv_recency_ordered.
Qed.

(** ** Capacity and callback are never changed by the operations *)

Lemma removeElement_params e c c' :
  removeElement e c = Some c' →
  MaxEntries c' = MaxEntries c ∧ OnEvicted c' = OnEvicted c.
Proof.
  unfold removeElement. intros Hr.
  destruct (ll c); simpl in Hr; [|done].
  destruct (elems c !! e); simpl in Hr; [|done].
  destruct (OnEvicted c) eqn:Hf; injection Hr as <-; simpl; by rewrite ?Hf.
Qed.

Lemma RemoveOldest_params c c' :
  RemoveOldest c = Some c' →
  MaxEntries c' = MaxEntries c ∧ OnEvicted c' = OnEvicted c.
Proof.
  unfold RemoveOldest. intros Hr.
  destruct (cache c); [|by injection Hr as <-].
  destruct (ll c) as [l|]; simpl in Hr; [|done].
  destruct (Back l); [by eapply removeElement_params|by injection Hr as <-].
Qed.

Lemma exec_params o c c' :
  exec o c = Some c' →
  MaxEntries c' = MaxEntries c ∧ OnEvicted c' = OnEvicted c.
Proof.
  destruct o as [k v|k|k|]; simpl.
  - unfold Add. intros Hr.
    set (c1 := match cache c with
               | Some _ => c
               | None => set_ll (Some []) (set_cache (Some ∅) c)
               end) in Hr.
    assert (MaxEntries c1 = MaxEntries c ∧ OnEvicted c1 = OnEvicted c) as [<- <-]
      by (unfold c1; by destruct (cache c)).
    destruct (cache c1) as [m|]; simpl in Hr; [|done].
    destruct (m !! k).
    + destruct (ll c1); simpl in Hr; [|done].
      destruct (elems c1 !! e); simpl in Hr; [|done]. by injection Hr as <-.
    + destruct (ll c1); simpl in Hr; [|done].
      destruct (_ && _).
      * by apply RemoveOldest_params in Hr.
      * by injection Hr as <-.
  - unfold Get. intros Hr.
    destruct (cache c) as [m|]; simpl in Hr; [|by injection Hr as <-].
    destruct (m !! k); simpl in Hr; [|by injection Hr as <-].
    destruct (ll c); simpl in Hr; [|done].
    destruct (elems c !! e); simpl in Hr; [|done]. by injection Hr as <-.
  - unfold Remove. intros Hr.
    destruct (cache c) as [m|]; [|by injection Hr as <-].
    destruct (m !! k); [by eapply removeElement_params|by injection Hr as <-].
  - apply RemoveOldest_params.
Qed.

Lemma run_params h c c' :
  run h c = Some c' →
  MaxEntries c' = MaxEntries c ∧ OnEvicted c' = OnEvicted c.
Proof.
  revert c. induction h as [|o h IH]; intros c; simpl.
  - by intros [= <-].
  - destruct (exec o c) as [c1|] eqn:Hexec; simpl; [|done].
    intros [-> ->]%IH. by apply exec_params in Hexec.
Qed.

(** A cache obtained from [New] by a sequence of calls is well formed. *)
Lemma run_New_wf n f w h c :
  run h (set_OnEvicted f (New n w)) = Some c →
  (∃ l m, wf c l m) ∧ MaxEntries c = n ∧ OnEvicted c = f.
Proof.
  intros Hrun.
  destruct (run_inv [] h _ (inv_New n f w)) as (c' & Hrun' & Hinv).
  assert (c' = c) as -> by congruence.
  split; [apply (inv_wf _ _ Hinv)|]. by apply run_params in Hrun.
Qed.

(** ** Presence, length and contents of a well-formed cache *)

Lemma hit_wf c l m k : wf c l m → hit k c ↔ is_Some (m !! k).
Proof.
  intros Hwf. split.
  - intros (v & c' & Hget). destruct (m !! k) eqn:Hm; [eauto|].
    by rewrite (Get_wf_miss _ _ _ _ Hwf Hm) in Hget.
  - intros [e Hm]. destruct (Get_wf_hit _ _ _ _ _ Hwf Hm) as (kv & _ & _ & Hget).
    by eexists _, _.
Qed.

Lemma Len_wf c l m : wf c l m → Len c = Some (Z.of_nat (length l)).
Proof.
  intros Hwf. unfold Len. by rewrite (wf_cache _ _ _ Hwf), (wf_ll _ _ _ Hwf).
Qed.

Lemma omap_filter_rel {A B} (g : A → option B) (P : A → Prop) (Q : B → Prop)
    `{∀ x, Decision (P x)} `{∀ b, Decision (Q b)} (xs : list A) :
  (∀ x b, x ∈ xs → g x = Some b → (P x ↔ Q b)) →
  omap g (filter P xs) = filter Q (omap g xs).
Proof.
  induction xs as [|x xs IH]; intros HPQ; [done|].
  assert (omap g (filter P xs) = filter Q (omap g xs)) as IH'.
  { apply IH. intros y b Hy. apply HPQ. by right. }
  rewrite filter_cons. csimpl.
  destruct (g x) as [b|] eqn:Hgx.
  - rewrite filter_cons. pose proof (HPQ x b (list_elem_of_here _ _) Hgx) as Hiff.
    destruct (decide (P x)), (decide (Q b)); csimpl; rewrite ?Hgx; try tauto.
    by rewrite IH'.
  - destruct (decide (P x)); csimpl; by rewrite ?Hgx.
Qed.

(** What [Remove] does to a well-formed cache that has the key. *)
Lemma Remove_wf_present c l m k e :
  wf c l m → m !! k = Some e →
  ∃ kv c', elems c !! e = Some kv ∧ key kv = k ∧
    Remove k c = Some c' ∧
    wf c' (list_Remove e l) (delete k m) ∧
    env c' = fire c k (value kv) ∧
    items c' = filter (λ p, p.1 ≠ k) (items c).
Proof.
  intros Hwf Hm. destruct (wf_map _ _ _ Hwf _ _ Hm) as [He Hk].
  destruct (removeElement_wf _ _ _ _ _ Hwf He Hk) as (kv & Hkv & Hkey & Hrm).
  eexists kv, _. split; [done|]. split; [done|]. split.
  { unfold Remove. by rewrite (wf_cache _ _ _ Hwf), Hm. }
  split; [by apply wf_set_env, wf_remove|]. split; [done|].
  unfold items; simpl. rewrite (wf_ll _ _ _ Hwf); simpl.
  apply omap_filter_rel. intros x [k' v'] Hx Hgx; simpl.
  destruct (elems c !! x) as [kv'|] eqn:Hkv'; simplify_eq/=.
  assert (key_at c x = Some (key kv')) as Hkx by (unfold key_at; by rewrite Hkv').
  split.
  - intros Hne Heq. apply Hne.
    apply (wf_key_inj c l m x e (key kv) Hwf Hx He); [|done].
    by rewrite Hkx, Heq.
  - intros Hne ->. apply Hne. unfold key_at in Hkx. rewrite Hkv in Hkx.
    by injection Hkx.
Qed.

(** ** A cache that was never initialised *)

(** What the lazy initialisation of [Add] makes of a cache with a nil map. *)
Lemma Add_nil k v c :
  cache c = None →
  Add k v c = Add k v (set_ll (Some []) (set_cache (Some ∅) c)).
Proof. intros Hnil. unfold Add. by rewrite Hnil. Qed.

Lemma wf_initialised c : wf (set_ll (Some []) (set_cache (Some ∅) c)) [] ∅.
Proof.
  split; simpl; try done.
  - constructor.
  - intros e He. inversion He.
Qed.

Lemma run_nil_total h c : cache c = None → is_Some (run h c).
Proof.
  revert c. induction h as [|o h IH]; intros c Hnil; simpl; [eauto|].
  destruct o as [k v|k|k|]; simpl.
  - rewrite (Add_nil _ _ _ Hnil).
    assert (inv [] (set_ll (Some []) (set_cache (Some ∅) c))) as Hinv.
    { split; [eexists _, _; apply wf_initialised|]. unfold keys; simpl. constructor. }
    destruct (exec_inv [] (OpAdd k v) _ Hinv) as (c1 & Hexec & Hinv1).
    simpl in Hexec. rewrite Hexec; simpl.
    destruct (run_inv _ h _ Hinv1) as (c2 & -> & _). eauto.
  - unfold Get. rewrite Hnil; simpl. by apply IH.
  - unfold Remove. rewrite Hnil; simpl. by apply IH.
  - unfold RemoveOldest. rewrite Hnil; simpl. by apply IH.
Qed.

(** ** Properties of arbitrary caches *)

(** C8. In a cache created by New(0), whatever calls came before, Add
    returns without calling the eviction callback (the environment is the
    one before the call) and without evicting anything: every key that was
    present is still present, the added key is present, and when the key
    is new Len() has grown by one. *)
Theorem C8_capacity_zero_never_evicts
    (f : option (Key → option V → W → W)) (w : W) (h : list (op Key V))
    (c : Cache Key V W) (k : Key) (v : option V) :
  run h (set_OnEvicted f (New 0 w)) = Some c →
  ∃ c' z, Add k v c = Some c' ∧ Len c = Some z ∧
    env c' = env c ∧
    (∀ k', hit k' c → hit k' c') ∧ hit k c' ∧
    (¬ hit k c → Len c' = Some (z + 1)%Z).
Proof.
  intros Hrun. destruct (run_New_wf _ _ _ _ _ Hrun) as ((l & m & Hwf) & Hmax & _).
  rewrite (Len_wf _ _ _ Hwf).
  destruct (m !! k) as [e|] eqn:Hm.
  - rewrite (Add_wf_present _ _ _ _ v _ Hwf Hm).
    destruct (wf_map _ _ _ Hwf _ _ Hm) as [He Hk].
    eexists _, _. split; [done|]. split; [done|]. split; [done|].
    assert (wf (set_elems (<[e := mk_entry k v]> (elems c))
                  (set_ll (Some (MoveToFront e l)) c)) (MoveToFront e l) m) as Hwf'.
    { apply wf_move; [done|done|]. intros e'.
      destruct (decide (e = e')) as [<-|Hne].
      - by rewrite lookup_insert_eq, Hk.
      - by rewrite lookup_insert_ne. }
    split; [|split].
    + intros k'. by rewrite (hit_wf _ _ _ _ Hwf), (hit_wf _ _ _ _ Hwf').
    + rewrite (hit_wf _ _ _ _ Hwf'). eauto.
    + rewrite (hit_wf _ _ _ _ Hwf). intros []. eauto.
  - rewrite (Add_wf_absent _ _ _ _ v Hwf Hm), Hmax.
    rewrite bool_decide_eq_false_2 by (intros Hne; by apply Hne). simpl.
    assert (wf (pushed k v c l m) (fresh (dom (elems c)) :: l)
              (<[k := fresh (dom (elems c))]> m)) as Hwf'
      by (by apply wf_push).
    eexists _, _. split; [done|]. split; [done|]. split; [done|].
    split; [|split].
    + intros k'. rewrite (hit_wf _ _ _ _ Hwf), (hit_wf _ _ _ _ Hwf').
      intros [e' Hm']. destruct (decide (k = k')) as [<-|Hne]; [congruence|].
      rewrite lookup_insert_ne by done. eauto.
    + rewrite (hit_wf _ _ _ _ Hwf'), lookup_insert_eq. eauto.
    + intros _. rewrite (Len_wf _ _ _ Hwf'). simpl length. f_equal. lia.
Qed.

(** C9. In a cache obtained from New by any sequence of calls, Remove of a
    key that is not present returns the cache as it was, environment
    included, so the callback was not called; Remove of a present key,
    holding value [v], returns a cache in which the key is absent, the
    other entries are the same in the same order, Len() is one less, and
    the callback, when there is one, was called with that key and [v]. *)
Theorem C9_Remove_absent_noop_present_deleted
    (n : Z) (f : option (Key → option V → W → W)) (w : W) (h : list (op Key V))
    (c : Cache Key V W) (k : Key) :
  run h (set_OnEvicted f (New n w)) = Some c →
  (¬ hit k c → Remove k c = Some c) ∧
  (∀ v c1, Get k c = Some (v, true, c1) →
     ∃ c', Remove k c = Some c' ∧ env c' = fire c k v ∧ ¬ hit k c' ∧
       items c' = filter (λ p, p.1 ≠ k) (items c) ∧
       Len c' = (λ z, (z - 1)%Z) <$> Len c).
Proof.
  intros Hrun. destruct (run_New_wf _ _ _ _ _ Hrun) as ((l & m & Hwf) & _ & _).
  split.
  - rewrite (hit_wf _ _ _ _ Hwf). intros Hnone.
    unfold Remove. rewrite (wf_cache _ _ _ Hwf).
    destruct (m !! k); [|done]. destruct Hnone. eauto.
  - intros v c1 Hget.
    destruct (m !! k) as [e|] eqn:Hm;
      [|by rewrite (Get_wf_miss _ _ _ _ Hwf Hm) in Hget].
    destruct (Get_wf_hit _ _ _ _ _ Hwf Hm) as (kv & Hkv & _ & Hget').
    destruct (Remove_wf_present _ _ _ _ _ Hwf Hm)
      as (kv' & c' & Hkv' & _ & Hrm & Hwf' & Henv & Hitems).
    assert (kv' = kv) as -> by congruence.
    assert (value kv = v) as <- by congruence.
    exists c'. split; [done|]. split; [done|]. split; [|split; [done|]].
    + rewrite (hit_wf _ _ _ _ Hwf'), lookup_delete_eq. by intros [].
    + rewrite (Len_wf _ _ _ Hwf), (Len_wf _ _ _ Hwf'); simpl. f_equal.
      rewrite (wf_length _ _ _ Hwf'), (wf_length _ _ _ Hwf).
      rewrite map_size_delete_Some by eauto.
      assert (size m ≠ 0); [|lia].
      intros Hz%map_size_empty_inv. by rewrite Hz, lookup_empty in Hm.
Qed.

(** C10. On the zero value of Cache (nil list, nil map), with or without
    a callback installed, Get returns (nil, false), Remove and
    RemoveOldest return leaving the cache as it was, Len returns 0, and
    Add returns with list and map allocated and the entry as the only one
    of the cache; and whatever sequence of calls follows, none panics. *)
Theorem C10_zero_value_is_usable
    (f : option (Key → option V → W → W)) (w : W) (k : Key) (v : option V) :
  let c0 : Cache Key V W := set_OnEvicted f (zero_Cache w) in
  Get k c0 = Some (None, false, c0) ∧
  Remove k c0 = Some c0 ∧
  RemoveOldest c0 = Some c0 ∧
  Len c0 = Some 0%Z ∧
  (∃ c', Add k v c0 = Some c' ∧ is_Some (ll c') ∧ is_Some (cache c') ∧
     items c' = [(k, v)] ∧ Len c' = Some 1%Z ∧
     (∃ c'', Get k c' = Some (v, true, c'')) ∧ env c' = w) ∧
  (∀ h : list (op Key V), is_Some (run h c0)).
Proof.
  intros c0. repeat split; try done.
  - eexists. split.
    { unfold Add; simpl. rewrite lookup_empty; simpl. done. }
    unfold Len, items, Get; simpl.
    rewrite !lookup_insert_eq; simpl.
    repeat split; eauto.
  - intros h. by apply run_nil_total.
Qed.

End Invariant.

(* --------------------------------------------------------------------- *)
(** ** The scenarios of the specification, on string keys                 *)
(* --------------------------------------------------------------------- *)

Section Scenarios.
Local Open Scope Z_scope.
Context {W : Type} (g : string → option Z → W → W) (w : W).

Lemma run_abc :
  run [OpAdd "a" (Some 1); OpAdd "b" (Some 2); OpAdd "c" (Some 3)] (two_slots g w)
  = Some (after_abc g w).
Proof. vm_compute. reflexivity. Qed.

(** C4. On New(2) with callback [g], after Add("a",1), Add("b",2),
    Add("c",3): Get("a") misses, Get("b") and Get("c") hit with values 2
    and 3, a key is found exactly when it is b or c, Len() is 2, and the
    environment is the initial one after one call g("a",1), so the
    callback ran once, for a with value 1 (take for [g] the function that
    appends its arguments to a log). *)
Theorem C4_third_Add_evicts_oldest :
  ∃ c, run [OpAdd "a" (Some 1); OpAdd "b" (Some 2); OpAdd "c" (Some 3)] (two_slots g w)
         = Some c ∧
    Get "a" c = Some (None, false, c) ∧
    (∃ c', Get "b" c = Some (Some 2, true, c')) ∧
    (∃ c', Get "c" c = Some (Some 3, true, c')) ∧
    (∀ k, hit k c ↔ k = "b" ∨ k = "c") ∧
    Len c = Some 2 ∧
    env c = g "a" (Some 1) w.
Proof.
  exists (after_abc g w). split; [apply run_abc|].
  split; [vm_compute; reflexivity|].
  split; [eexists; vm_compute; reflexivity|].
  split; [eexists; vm_compute; reflexivity|].
  split; [|split; reflexivity].
  intros k. split.
  - intros (v & c' & Hget). unfold Get, after_abc in Hget. cbn [cache] in Hget.
    destruct (decide (k = "c")) as [->|Hc]; [by right|].
    destruct (decide (k = "b")) as [->|Hb]; [by left|].
    rewrite !lookup_insert_ne, lookup_empty in Hget by done. done.
  - intros [-> | ->]; eexists _, _; vm_compute; reflexivity.
Qed.

(** C5. On New(2) with callback [g], after Add("a",1), Add("b",2) the
    sequence is b, a; Get("a") hits with value 1 and brings a to the
    front; Add("c",3) then evicts b: a key is found exactly when it is a
    or c, the sequence is c, a, and the callback ran once, for b with
    value 2. *)
Theorem C5_Get_refreshes_recency :
  ∃ c2 c3 c,
    run [OpAdd "a" (Some 1); OpAdd "b" (Some 2)] (two_slots g w) = Some c2 ∧
    keys c2 = ["b"; "a"] ∧
    Get "a" c2 = Some (Some 1, true, c3) ∧
    keys c3 = ["a"; "b"] ∧
    Add "c" (Some 3) c3 = Some c ∧
    run [OpAdd "a" (Some 1); OpAdd "b" (Some 2); OpGet "a"; OpAdd "c" (Some 3)]
      (two_slots g w) = Some c ∧
    (∀ k, hit k c ↔ k = "a" ∨ k = "c") ∧
    keys c = ["c"; "a"] ∧
    Len c = Some 2 ∧
    env c = g "b" (Some 2) w.
Proof.
  exists (after_ab g w), (set_ll (Some [1; 2]%positive) (after_ab g w)), (after_ab_geta_c g w).
  split; [vm_compute; reflexivity|].
  split; [vm_compute; reflexivity|].
  split; [vm_compute; reflexivity|].
  split; [vm_compute; reflexivity|].
  split; [vm_compute; reflexivity|].
  split; [vm_compute; reflexivity|].
  split; [|repeat split; vm_compute; reflexivity].
  intros k. split.
  - intros (v & c' & Hget). unfold Get, after_ab_geta_c in Hget.
    cbn [cache] in Hget.
    destruct (decide (k = "c")) as [->|Hc]; [by right|].
    destruct (decide (k = "a")) as [->|Ha]; [by left|].
    rewrite !lookup_insert_ne, lookup_empty in Hget by done. done.
  - intros [-> | ->]; eexists _, _; vm_compute; reflexivity.
Qed.

End Scenarios.

Lemma C8_capacity_zero_never_evicts_witness :
  run [OpAdd "a" (Some 1%Z); OpAdd "b" (Some 2%Z); OpAdd "c" (Some 3%Z)]
    (set_OnEvicted (Some log_evictions) (New 0 [])) = Some unbounded_abc ∧
  ∃ c' z, Add "d" (Some 4%Z) unbounded_abc = Some c' ∧ Len unbounded_abc = Some z ∧
    env c' = env unbounded_abc ∧
    (∀ k', hit k' unbounded_abc → hit k' c') ∧ hit "d" c' ∧
    (¬ hit "d" unbounded_abc → Len c' = Some (z + 1)%Z).
Proof.
  split; [vm_compute; reflexivity|].
  apply (C8_capacity_zero_never_evicts (Some log_evictions) []
           [OpAdd "a" (Some 1%Z); OpAdd "b" (Some 2%Z); OpAdd "c" (Some 3%Z)]).
  vm_compute; reflexivity.
Defined.

Lemma C9_Remove_absent_noop_present_deleted_witness :
  run [OpAdd "a" (Some 1%Z); OpAdd "b" (Some 2%Z); OpAdd "c" (Some 3%Z)]
    (set_OnEvicted (Some log_evictions) (New 0 [])) = Some unbounded_abc ∧
  (¬ hit "b" unbounded_abc → Remove "b" unbounded_abc = Some unbounded_abc) ∧
  (∀ v c1, Get "b" unbounded_abc = Some (v, true, c1) →
     ∃ c', Remove "b" unbounded_abc = Some c' ∧ env c' = fire unbounded_abc "b" v ∧
       ¬ hit "b" c' ∧
       items c' = filter (λ p, p.1 ≠ "b") (items unbounded_abc) ∧
       Len c' = (λ z, (z - 1)%Z) <$> Len unbounded_abc).
Proof.
  split; [vm_compute; reflexivity|].
  apply (C9_Remove_absent_noop_present_deleted 0 (Some log_evictions) []
           [OpAdd "a" (Some 1%Z); OpAdd "b" (Some 2%Z); OpAdd "c" (Some 3%Z)]).
  vm_compute; reflexivity.
Defined.

(* --------------------------------------------------------------------- *)
(** ** The operations in terms of the entries, front to back               *)
(* --------------------------------------------------------------------- *)

Section Operations.
Context {Key : Type} `{Countable Key} {V W : Type}.
Implicit Types (c : Cache Key V W) (l : list Element) (m : gmap Key Element).
Implicit Types (e : Element) (k : Key) (v : option V) (h : list (op Key V)).

Lemma items_ll c l :
  ll c = Some l →
  items c = omap (λ e, (λ kv, (key kv, value kv)) <$> elems c !! e) l.
Proof. unfold items. by intros ->. Qed.

Lemma wf_items_length c l m : wf c l m → length (items c) = length l.
Proof.
  intros Hwf. rewrite (items_ll _ _ (wf_ll _ _ _ Hwf)).
  apply length_omap_total. intros e He.
  destruct (wf_list _ _ _ Hwf _ He) as (k & Hk & _).
  apply key_at_Some in Hk as (kv & -> & _). simpl. eauto.
Qed.

Lemma wf_items_keys c l m : wf c l m → (items c).*1 = keys c.
Proof.
  intros Hwf. unfold keys. rewrite (items_ll _ _ (wf_ll _ _ _ Hwf)), (wf_ll _ _ _ Hwf).
  simpl. rewrite list_fmap_omap. apply omap_ext_in. intros e _.
  unfold key_at. by destruct (elems c !! e).
Qed.

(** The pair of the element the map has for [k] is in the sequence. *)
Lemma wf_items_elem c l m k v :
  wf c l m →
  (k, v) ∈ items c ↔ ∃ e, m !! k = Some e ∧ elems c !! e = Some (mk_entry k v).
Proof.
  intros Hwf. rewrite (items_ll _ _ (wf_ll _ _ _ Hwf)), list_elem_of_omap. split.
  - intros (e & He & Hkv). destruct (elems c !! e) as [[k' v']|] eqn:Hel; [|done].
    simpl in Hkv. injection Hkv as -> ->.
    destruct (wf_list _ _ _ Hwf _ He) as (k' & Hk' & Hm).
    unfold key_at in Hk'. rewrite Hel in Hk'. injection Hk' as <-. eauto.
  - intros (e & Hm & Hel). destruct (wf_map _ _ _ Hwf _ _ Hm) as [He _].
    exists e. by rewrite Hel.
Qed.

(** The sequence after element [e], which holds [k], has moved to the
    front and the heap has become [hp], which differs at [e] at most. *)
Lemma items_moved c l m k e v (hp : gmap Element (entry Key V)) :
  wf c l m → m !! k = Some e →
  hp !! e = Some (mk_entry k v) →
  (∀ e', e' ≠ e → hp !! e' = elems c !! e') →
  items (set_elems hp (set_ll (Some (MoveToFront e l)) c)) =
    (k, v) :: filter (λ p, p.1 ≠ k) (items c).
Proof.
  intros Hwf Hm He Hother. destruct (wf_map _ _ _ Hwf _ _ Hm) as [Hin Hk].
  unfold items; simpl. rewrite (wf_ll _ _ _ Hwf); simpl.
  unfold MoveToFront. rewrite decide_True by done. csimpl. rewrite He. csimpl.
  f_equal. unfold list_Remove.
  rewrite (omap_ext_in _ (λ e0, (λ kv, (key kv, value kv)) <$> elems c !! e0)).
  - apply omap_filter_rel. intros x [k' v'] Hx Hgx; simpl.
    destruct (elems c !! x) as [kv'|] eqn:Hkv'; simplify_eq/=.
    assert (key_at c x = Some (key kv')) as Hkx by (unfold key_at; by rewrite Hkv').
    split.
    + intros Hne Heq. apply Hne.
      apply (wf_key_inj c l m x e k Hwf Hx Hin); [|done]. by rewrite Hkx, Heq.
    + intros Hne ->. apply Hne. congruence.
  - intros x [Hne _]%list_elem_of_filter. by rewrite Hother.
Qed.

Lemma items_removed c l m e k w :
  wf c l m → e ∈ l → key_at c e = Some k →
  items (set_env w (set_cache (Some (delete k m))
                      (set_ll (Some (list_Remove e l)) c))) =
    filter (λ p, p.1 ≠ k) (items c).
Proof.
  intros Hwf He Hk. unfold items; simpl. rewrite (wf_ll _ _ _ Hwf); simpl.
  apply omap_filter_rel. intros x [k' v'] Hx Hgx; simpl.
  destruct (elems c !! x) as [kv'|] eqn:Hkv'; simplify_eq/=.
  assert (key_at c x = Some (key kv')) as Hkx by (unfold key_at; by rewrite Hkv').
  split.
  - intros Hne Heq. apply Hne.
    apply (wf_key_inj c l m x e k Hwf Hx He); [|done]. by rewrite Hkx, Heq.
  - intros Hne ->. apply Hne. congruence.
Qed.

Lemma items_pushed c l m k v :
  wf c l m → items (pushed k v c l m) = (k, v) :: items c.
Proof.
  intros Hwf. pose proof (wf_fresh _ _ _ Hwf) as Hfresh.
  unfold items, pushed, PushFront; simpl. rewrite (wf_ll _ _ _ Hwf); simpl.
  csimpl. rewrite lookup_insert_eq. csimpl. f_equal.
  apply omap_ext_in. intros e He. rewrite lookup_insert_ne; [done|]. by intros <-.
Qed.

(** The last pair of the sequence belongs to the last element. *)
Lemma wf_items_last c l m e kv :
  wf c l m → last l = Some e → elems c !! e = Some kv →
  last (items c) = Some (key kv, value kv).
Proof.
  intros Hwf Hlast Hkv. rewrite (items_ll _ _ (wf_ll _ _ _ Hwf)).
  apply last_Some in Hlast as [l' ->]. rewrite omap_app. csimpl. rewrite Hkv. csimpl.
  apply last_snoc.
Qed.


Lemma wf_items_nodup c l m : wf c l m → NoDup (items c).*1.
Proof.
  intros Hwf. rewrite (wf_items_keys _ _ _ Hwf). unfold keys.
  rewrite (wf_ll _ _ _ Hwf). simpl.
  apply NoDup_omap_inj; [apply (wf_nodup _ _ _ Hwf)|].
  intros x y b ? ? ? ?. eapply wf_key_inj; eauto.
Qed.

Lemma wf_items_hit c l m k : wf c l m → hit k c ↔ k ∈ (items c).*1.
Proof.
  intros Hwf. rewrite (hit_wf _ _ _ _ Hwf), (wf_items_keys _ _ _ Hwf). unfold keys.
  rewrite (wf_ll _ _ _ Hwf). simpl. split.
  - intros [e Hm]. destruct (wf_map _ _ _ Hwf _ _ Hm) as [He Hk].
    apply list_elem_of_omap. eauto.
  - intros (e & Hm & _)%(wf_keys_map _ _ _ _ Hwf). eauto.
Qed.

Lemma wf_Len_items c l m : wf c l m → Len c = Some (Z.of_nat (length (items c))).
Proof. intros Hwf. by rewrite (Len_wf _ _ _ Hwf), (wf_items_length _ _ _ Hwf). Qed.

Lemma filter_all {A} (P : A → Prop) `{∀ x, Decision (P x)} (xs : list A) :
  (∀ x, x ∈ xs → P x) → filter P xs = xs.
Proof.
  induction xs as [|x xs IH]; intros HP; [done|].
  rewrite filter_cons, decide_True by (apply HP; left).
  f_equal. apply IH. intros y Hy. apply HP. by right.
Qed.

(** Dropping the key of the last pair drops the last pair, keys being
    distinct. *)
Lemma filter_last_key (its : list (Key * option V)) ko vo :
  NoDup (its ++ [(ko, vo)]).*1 →
  filter (λ p, p.1 ≠ ko) (its ++ [(ko, vo)]) = its.
Proof.
  intros Hnd. rewrite fmap_app in Hnd. apply NoDup_app in Hnd as (_ & Hdis & _).
  rewrite filter_app, filter_cons, decide_False by (simpl; intros Hne; by apply Hne).
  rewrite filter_nil, app_nil_r. apply filter_all.
  intros [k' v'] Hin; simpl. intros ->.
  apply (Hdis ko); [|left]. apply list_elem_of_fmap. by exists (ko, v').
Qed.

Lemma last_split {A} (xs : list A) x : last xs = Some x → ∃ xs', xs = xs' ++ [x].
Proof. by intros ?%last_Some. Qed.

(** ** What each operation does to the sequence of entries *)

Lemma Add_present_spec c l m k v e :
  wf c l m → m !! k = Some e →
  ∃ c', Add k v c = Some c' ∧ wf c' (MoveToFront e l) m ∧
    items c' = (k, v) :: filter (λ p, p.1 ≠ k) (items c) ∧ env c' = env c.
Proof.
  intros Hwf Hm. destruct (wf_map _ _ _ Hwf _ _ Hm) as [He Hk].
  rewrite (Add_wf_present _ _ _ _ v _ Hwf Hm). eexists. split; [done|].
  split; [|split; [|done]].
  - apply wf_move; [done|done|]. intros e'.
    destruct (decide (e = e')) as [<-|Hne].
    + by rewrite lookup_insert_eq, Hk.
    + by rewrite lookup_insert_ne.
  - apply (items_moved c l m k e v); [done|done|apply lookup_insert_eq|].
    intros e' Hne. by rewrite lookup_insert_ne.
Qed.

Lemma removeElement_spec c l m e kv :
  wf c l m → e ∈ l → elems c !! e = Some kv →
  ∃ c', removeElement e c = Some c' ∧
    wf c' (list_Remove e l) (delete (key kv) m) ∧
    items c' = filter (λ p, p.1 ≠ key kv) (items c) ∧
    env c' = fire c (key kv) (value kv).
Proof.
  intros Hwf He Hkv.
  assert (key_at c e = Some (key kv)) as Hk by (apply key_at_Some; eauto).
  destruct (removeElement_wf _ _ _ _ _ Hwf He Hk) as (kv' & Hkv' & _ & Hrm).
  assert (kv' = kv) as -> by congruence.
  eexists. split; [done|]. split; [by apply wf_set_env, wf_remove|].
  split; [by apply items_removed|done].
Qed.

Lemma RemoveOldest_spec c l m :
  wf c l m →
  (items c = [] ∧ RemoveOldest c = Some c) ∨
  (∃ ko vo its c' l' m',
     items c = its ++ [(ko, vo)] ∧ RemoveOldest c = Some c' ∧
     wf c' l' m' ∧ S (size m') = size m ∧
     items c' = its ∧ env c' = fire c ko vo).
Proof.
  intros Hwf.
  destruct (RemoveOldest_wf _ _ _ Hwf) as [[-> Hr]|(e & kv & Hlast & Hkv & Hr)].
  - left. split; [|done]. by rewrite (items_ll _ _ (wf_ll _ _ _ Hwf)).
  - right. pose proof (last_Some_elem _ _ Hlast) as He.
    destruct (removeElement_spec _ _ _ _ _ Hwf He Hkv) as (c' & Hrm & Hwf' & Hit & Henv).
    destruct (last_split _ _ (wf_items_last _ _ _ _ _ Hwf Hlast Hkv)) as [its Hits].
    exists (key kv), (value kv), its, c', (list_Remove e l), (delete (key kv) m).
    split; [done|]. split.
    { rewrite Hr. unfold removeElement, fire in *.
      rewrite (wf_ll _ _ _ Hwf) in Hrm; simpl in Hrm. rewrite Hkv in Hrm; simpl in Hrm.
      rewrite (wf_cache _ _ _ Hwf) in Hrm; simpl in Hrm.
      rewrite <- Hrm. destruct (OnEvicted c); [done|].
      by rewrite <- (set_env_id (set_cache _ _)) at 2. }
    split; [done|]. split.
    { destruct (wf_list _ _ _ Hwf _ He) as (k' & Hk' & Hm').
      apply key_at_Some in Hk' as (kv' & Hkv'' & <-).
      assert (kv' = kv) as -> by congruence.
      rewrite map_size_delete_Some by eauto.
      assert (size m ≠ 0); [|lia].
      intros Hz%map_size_empty_inv. by rewrite Hz, lookup_empty in Hm'. }
    split; [|done]. rewrite Hit, Hits. apply filter_last_key.
    rewrite <- Hits. by eapply wf_items_nodup.
Qed.

Lemma Get_hit_spec c l m k e :
  wf c l m → m !! k = Some e →
  ∃ v c', Get k c = Some (v, true, c') ∧ wf c' (MoveToFront e l) m ∧
    (k, v) ∈ items c ∧
    items c' = (k, v) :: filter (λ p, p.1 ≠ k) (items c) ∧ env c' = env c.
Proof.
  intros Hwf Hm. destruct (wf_map _ _ _ Hwf _ _ Hm) as [He Hk].
  destruct (Get_wf_hit _ _ _ _ _ Hwf Hm) as (kv & Hkv & <- & Hget).
  exists (value kv), (set_ll (Some (MoveToFront e l)) c). split; [done|].
  assert (set_ll (Some (MoveToFront e l)) c =
          set_elems (elems c) (set_ll (Some (MoveToFront e l)) c)) as Heq by done.
  split; [|split; [|split; [|done]]].
  - rewrite Heq. by apply wf_move.
  - apply (wf_items_elem _ _ _ _ _ Hwf). exists e. split; [done|]. by destruct kv.
  - rewrite Heq. apply (items_moved c l m (key kv) e (value kv)); try done.
    by destruct kv.
Qed.


Lemma Add_absent_spec c l m k v :
  wf c l m → m !! k = None →
  ∃ c' l' m', Add k v c = Some c' ∧ wf c' l' m' ∧
    if bool_decide (MaxEntries c ≠ 0%Z) &&
       bool_decide (Z.of_nat (S (length (items c))) > MaxEntries c)%Z
    then ∃ its ko vo, (k, v) :: items c = its ++ [(ko, vo)] ∧
           items c' = its ∧ env c' = fire c ko vo ∧ size m' = size m
    else items c' = (k, v) :: items c ∧ env c' = env c ∧ size m' = S (size m).
Proof.
  intros Hwf Hm. rewrite (Add_wf_absent _ _ _ _ v Hwf Hm).
  rewrite (wf_items_length _ _ _ Hwf).
  assert (wf (pushed k v c l m) (fresh (dom (elems c)) :: l)
            (<[k := fresh (dom (elems c))]> m)) as Hwf'
    by (by apply wf_push).
  pose proof (items_pushed _ _ _ k v Hwf) as Hit.
  destruct (_ && _).
  - destruct (RemoveOldest_spec _ _ _ Hwf')
      as [[Hnil _]|(ko & vo & its & c' & l' & m' & Hits & Hr & Hwf'' & Hsz & Hit' & Henv)].
    { by rewrite Hit in Hnil. }
    exists c', l', m'. split; [done|]. split; [done|].
    exists its, ko, vo. rewrite <- Hit. split; [done|]. split; [done|]. split; [done|].
    rewrite map_size_insert_None in Hsz by done. lia.
  - eexists _, _, _. split; [done|]. split; [done|]. split; [done|]. split; [done|].
    by apply map_size_insert_None.
Qed.

(** A property that every operation keeps on well-formed caches holds of
    whatever a sequence of operations makes of a new cache. *)
Lemma run_preserves (P : Cache Key V W → Prop) h h0 c0 c :
  (∀ o c1 c2 l m, wf c1 l m → P c1 → exec o c1 = Some c2 → P c2) →
  inv h0 c0 → P c0 → run h c0 = Some c → P c.
Proof.
  intros Hstep. revert h0 c0. induction h as [|o h IH]; intros h0 c0 Hinv HP; simpl.
  - by intros [= <-].
  - destruct (exec_inv _ o _ Hinv) as (c1 & Hexec & Hinv1). rewrite Hexec; simpl.
    destruct (inv_wf _ _ Hinv) as (l & m & Hwf).
    apply (IH _ _ Hinv1). by eapply Hstep.
Qed.

(** The number of entries after one operation, against the number before. *)
Lemma exec_size o c c' l m :
  wf c l m → exec o c = Some c' →
  ∃ l' m', wf c' l' m' ∧
    (size m' ≤ size m ∨
     (∃ k v, o = OpAdd k v) ∧ size m' = S (size m) ∧
       (MaxEntries c = 0%Z ∨ (Z.of_nat (S (size m)) ≤ MaxEntries c)%Z)).
Proof.
  intros Hwf Hexec. destruct o as [k v|k|k|]; simpl in Hexec.
  - destruct (m !! k) as [e|] eqn:Hm.
    + destruct (Add_present_spec _ _ _ _ v _ Hwf Hm) as (c1 & Hadd & Hwf1 & _).
      assert (c1 = c') as -> by congruence. eexists _, _. split; [done|]. by left.
    + destruct (Add_absent_spec _ _ _ _ v Hwf Hm) as (c1 & l1 & m1 & Hadd & Hwf1 & Hcase).
      assert (c1 = c') as -> by congruence. exists l1, m1. split; [done|].
      rewrite (wf_items_length _ _ _ Hwf), (wf_length _ _ _ Hwf) in Hcase.
      destruct (bool_decide (MaxEntries c ≠ 0%Z)) eqn:Hne; simpl in Hcase.
      * destruct (bool_decide (Z.of_nat (S (size m)) > MaxEntries c)%Z) eqn:Hgt.
        -- destruct Hcase as (? & ? & ? & _ & _ & _ & ->). by left.
        -- destruct Hcase as (_ & _ & ->). right. split; [eauto|]. split; [done|].
           right. apply bool_decide_eq_false in Hgt. lia.
      * destruct Hcase as (_ & _ & ->). right. split; [eauto|]. split; [done|].
        left. apply bool_decide_eq_false in Hne.
        destruct (decide (MaxEntries c = 0%Z)); [done|]. by destruct Hne.
  - destruct (m !! k) as [e|] eqn:Hm.
    + destruct (Get_hit_spec _ _ _ _ _ Hwf Hm) as (v & c1 & Hget & Hwf1 & _).
      rewrite Hget in Hexec. simpl in Hexec. injection Hexec as <-.
      eexists _, _. split; [done|]. by left.
    + rewrite (Get_wf_miss _ _ _ _ Hwf Hm) in Hexec. simpl in Hexec.
      injection Hexec as <-. eexists _, _. split; [done|]. by left.
  - destruct (m !! k) as [e|] eqn:Hm.
    + destruct (Remove_wf_present _ _ _ _ _ Hwf Hm) as (kv & c1 & _ & _ & Hrm & Hwf1 & _).
      assert (c1 = c') as -> by congruence. eexists _, _. split; [done|]. left.
      rewrite map_size_delete_Some by eauto. lia.
    + unfold Remove in Hexec. rewrite (wf_cache _ _ _ Hwf), Hm in Hexec.
      injection Hexec as <-. eexists _, _. split; [done|]. by left.
  - destruct (RemoveOldest_spec _ _ _ Hwf)
      as [[_ Hr]|(ko & vo & its & c1 & l1 & m1 & _ & Hr & Hwf1 & Hsz & _)].
    + assert (c = c') as -> by congruence. eexists _, _. split; [done|]. by left.
    + assert (c1 = c') as -> by congruence. exists l1, m1. split; [done|]. left. lia.
Qed.


Lemma wf_unique c l m l' m' : wf c l m → wf c l' m' → l' = l ∧ m' = m.
Proof.
  intros Hwf Hwf'. split.
  - pose proof (wf_ll _ _ _ Hwf). pose proof (wf_ll _ _ _ Hwf'). congruence.
  - pose proof (wf_cache _ _ _ Hwf). pose proof (wf_cache _ _ _ Hwf'). congruence.
Qed.

Lemma wf_items_size c l m : wf c l m → length (items c) = size m.
Proof. intros Hwf. by rewrite (wf_items_length _ _ _ Hwf), (wf_length _ _ _ Hwf). Qed.

(** For keys that are equal to themselves (no NaN, see [LRUAnyKey]): in
    a cache obtained from New by any sequence of calls, the keys of the
    entries are pairwise distinct, Len() is the number of entries, Get(k)
    hits with value [v] exactly when [(k, v)] is an entry, and Get of a
    key that no entry carries returns (nil, false) and leaves the cache
    as it was. *)
Theorem entries_keys_distinct_and_found
    (n : Z) (f : option (Key → option V → W → W)) (w : W) (h : list (op Key V))
    (c : Cache Key V W) :
  run h (set_OnEvicted f (New n w)) = Some c →
  NoDup (items c).*1 ∧
  Len c = Some (Z.of_nat (length (items c))) ∧
  (∀ k v, (k, v) ∈ items c ↔ ∃ c', Get k c = Some (v, true, c')) ∧
  (∀ k, k ∉ (items c).*1 → Get k c = Some (None, false, c)).
Proof.
  intros Hrun. destruct (run_New_wf _ _ _ _ _ Hrun) as ((l & m & Hwf) & _ & _).
  split; [by eapply wf_items_nodup|]. split; [by eapply wf_Len_items|]. split.
  - intros k v. rewrite (wf_items_elem _ _ _ _ _ Hwf). split.
    + intros (e & Hm & Hel).
      destruct (Get_wf_hit _ _ _ _ _ Hwf Hm) as (kv & Hkv & _ & Hget).
      eexists. rewrite Hget. by assert (kv = mk_entry k v) as -> by congruence.
    + intros [c' Hget]. destruct (m !! k) as [e|] eqn:Hm;
        [|by rewrite (Get_wf_miss _ _ _ _ Hwf Hm) in Hget].
      destruct (Get_wf_hit _ _ _ _ _ Hwf Hm) as (kv & Hkv & Hk & Hget').
      exists e. split; [done|]. rewrite Hkv. destruct kv as [k' v']; simpl in *.
      congruence.
  - intros k Hk. rewrite <- (wf_items_hit _ _ _ _ Hwf), (hit_wf _ _ _ _ Hwf) in Hk.
    apply (Get_wf_miss _ _ _ _ Hwf). destruct (m !! k); [|done]. destruct Hk. eauto.
Qed.

(** A Get that hits moves the entry it found to the front of the recency
    sequence and changes nothing else: the other entries keep their order,
    the callback is not called and Len() is what it was. *)
Theorem Get_moves_entry_to_front
    (n : Z) (f : option (Key → option V → W → W)) (w : W) (h : list (op Key V))
    (c c' : Cache Key V W) (k : Key) (v : option V) :
  run h (set_OnEvicted f (New n w)) = Some c →
  Get k c = Some (v, true, c') →
  items c' = (k, v) :: filter (λ p, p.1 ≠ k) (items c) ∧
  env c' = env c ∧ Len c' = Len c.
Proof.
  intros Hrun Hget. destruct (run_New_wf _ _ _ _ _ Hrun) as ((l & m & Hwf) & _ & _).
  destruct (m !! k) as [e|] eqn:Hm;
    [|by rewrite (Get_wf_miss _ _ _ _ Hwf Hm) in Hget].
  destruct (Get_hit_spec _ _ _ _ _ Hwf Hm) as (v1 & c1 & Hget1 & Hwf1 & _ & Hit & Henv).
  assert (v1 = v ∧ c1 = c') as [-> ->] by (split; congruence).
  split; [done|]. split; [done|].
  by rewrite (wf_Len_items _ _ _ Hwf), (wf_Len_items _ _ _ Hwf1),
    (wf_items_size _ _ _ Hwf), (wf_items_size _ _ _ Hwf1).
Qed.

(** Add of a key that is present, whatever the capacity: the entry gets
    the new value and moves to the front, the other entries keep their
    order, nothing is evicted, the callback is not called and Len() is
    what it was. *)
Theorem Add_existing_key_updates_in_place
    (n : Z) (f : option (Key → option V → W → W)) (w : W) (h : list (op Key V))
    (c : Cache Key V W) (k : Key) (v : option V) :
  run h (set_OnEvicted f (New n w)) = Some c →
  hit k c →
  ∃ c', Add k v c = Some c' ∧
    items c' = (k, v) :: filter (λ p, p.1 ≠ k) (items c) ∧
    env c' = env c ∧ Len c' = Len c.
Proof.
  intros Hrun Hhit. destruct (run_New_wf _ _ _ _ _ Hrun) as ((l & m & Hwf) & _ & _).
  apply (hit_wf _ _ _ _ Hwf) in Hhit as [e Hm].
  destruct (Add_present_spec _ _ _ _ v _ Hwf Hm) as (c' & Hadd & Hwf' & Hit & Henv).
  exists c'. split; [done|]. split; [done|]. split; [done|].
  by rewrite (wf_Len_items _ _ _ Hwf), (wf_Len_items _ _ _ Hwf'),
    (wf_items_size _ _ _ Hwf), (wf_items_size _ _ _ Hwf').
Qed.

(** Add of a key that is not present, when the capacity is 0 or the cache
    holds fewer entries than its capacity: the new entry is put in front
    of the others, which stay as they are, and the callback is not
    called. *)
Theorem Add_new_key_with_room_goes_in_front
    (n : Z) (f : option (Key → option V → W → W)) (w : W) (h : list (op Key V))
    (c : Cache Key V W) (k : Key) (v : option V) :
  run h (set_OnEvicted f (New n w)) = Some c →
  ¬ hit k c →
  (n = 0 ∨ Z.of_nat (length (items c)) < n)%Z →
  ∃ c', Add k v c = Some c' ∧ items c' = (k, v) :: items c ∧ env c' = env c.
Proof.
  intros Hrun Hhit Hroom.
  destruct (run_New_wf _ _ _ _ _ Hrun) as ((l & m & Hwf) & Hmax & _).
  rewrite (hit_wf _ _ _ _ Hwf) in Hhit.
  assert (m !! k = None) as Hm by (destruct (m !! k); [destruct Hhit; eauto|done]).
  destruct (Add_absent_spec _ _ _ _ v Hwf Hm) as (c' & l' & m' & Hadd & _ & Hcase).
  exists c'. split; [done|]. rewrite Hmax in Hcase.
  destruct (bool_decide (n ≠ 0%Z)) eqn:Hne; simpl in Hcase.
  - destruct (bool_decide (Z.of_nat (S (length (items c))) > n)%Z) eqn:Hgt.
    + apply bool_decide_eq_true in Hne, Hgt. lia.
    + by destruct Hcase as (? & ? & _).
  - by destruct Hcase as (? & ? & _).
Qed.

(** Add of a key that is not present, when the capacity is not 0 and the
    cache holds as many entries as its capacity, or more: the new entry is
    put in front, then the entry at the back is removed and the callback,
    when there is one, is called with the key and value of that entry;
    Len() is what it was. *)
Theorem Add_new_key_when_full_evicts_last
    (n : Z) (f : option (Key → option V → W → W)) (w : W) (h : list (op Key V))
    (c : Cache Key V W) (k : Key) (v : option V) :
  run h (set_OnEvicted f (New n w)) = Some c →
  ¬ hit k c →
  (n ≠ 0 ∧ n ≤ Z.of_nat (length (items c)))%Z →
  ∃ c' its ko vo, Add k v c = Some c' ∧
    (k, v) :: items c = its ++ [(ko, vo)] ∧
    items c' = its ∧ env c' = fire c ko vo ∧ Len c' = Len c.
Proof.
  intros Hrun Hhit [Hn Hfull].
  destruct (run_New_wf _ _ _ _ _ Hrun) as ((l & m & Hwf) & Hmax & _).
  rewrite (hit_wf _ _ _ _ Hwf) in Hhit.
  assert (m !! k = None) as Hm by (destruct (m !! k); [destruct Hhit; eauto|done]).
  destruct (Add_absent_spec _ _ _ _ v Hwf Hm) as (c' & l' & m' & Hadd & Hwf' & Hcase).
  rewrite Hmax, bool_decide_eq_true_2, bool_decide_eq_true_2 in Hcase by lia.
  simpl in Hcase. destruct Hcase as (its & ko & vo & Hits & Hit & Henv & Hsz).
  exists c', its, ko, vo. split; [done|]. split; [done|]. split; [done|].
  split; [done|].
  by rewrite (wf_Len_items _ _ _ Hwf), (wf_Len_items _ _ _ Hwf'),
    (wf_items_size _ _ _ Hwf), (wf_items_size _ _ _ Hwf'), Hsz.
Qed.

(** RemoveOldest on a cache without entries returns the cache as it was;
    otherwise it removes the entry at the back of the recency sequence,
    leaves the others in their order and calls the callback, when there
    is one, with the key and value of the removed entry. *)
Theorem RemoveOldest_removes_last_entry
    (n : Z) (f : option (Key → option V → W → W)) (w : W) (h : list (op Key V))
    (c : Cache Key V W) :
  run h (set_OnEvicted f (New n w)) = Some c →
  (items c = [] ∧ RemoveOldest c = Some c) ∨
  (∃ c' its ko vo, items c = its ++ [(ko, vo)] ∧ RemoveOldest c = Some c' ∧
     items c' = its ∧ env c' = fire c ko vo).
Proof.
  intros Hrun. destruct (run_New_wf _ _ _ _ _ Hrun) as ((l & m & Hwf) & _ & _).
  destruct (RemoveOldest_spec _ _ _ Hwf)
    as [?|(ko & vo & its & c' & l' & m' & ? & ? & _ & _ & ? & ?)]; [by left|].
  right. by exists c', its, ko, vo.
Qed.

(** A cache created by New(n) with n > 0 never holds more than n
    entries, whatever calls were made on it. *)
Theorem Len_never_exceeds_positive_capacity
    (n : Z) (f : option (Key → option V → W → W)) (w : W) (h : list (op Key V))
    (c : Cache Key V W) :
  run h (set_OnEvicted f (New n w)) = Some c →
  (0 < n)%Z →
  ∃ z, Len c = Some z ∧ (0 ≤ z ≤ n)%Z.
Proof.
  intros Hrun Hn.
  destruct (run_New_wf _ _ _ _ _ Hrun) as ((l & m & Hwf) & _ & _).
  assert (MaxEntries c = n ∧ ∀ l m, wf c l m → (Z.of_nat (size m) ≤ n)%Z) as [_ Hsz].
  { apply (run_preserves
             (λ c, MaxEntries c = n ∧ ∀ l m, wf c l m → (Z.of_nat (size m) ≤ n)%Z)
             h [] (set_OnEvicted f (New n w)) c); [|apply inv_New| |done].
    - intros o c1 c2 l1 m1 Hwf1 [Hmax Hle] Hexec.
      split; [apply exec_params in Hexec as [-> _]; done|].
      intros l2 m2 Hwf2.
      destruct (exec_size _ _ _ _ _ Hwf1 Hexec) as (l' & m' & Hwf' & Hcase).
      destruct (wf_unique _ _ _ _ _ Hwf' Hwf2) as [-> ->].
      pose proof (Hle _ _ Hwf1).
      destruct Hcase as [?|(_ & -> & [?|?])]; lia.
    - split; [done|]. intros l0 m0 Hwf0.
      destruct (wf_unique _ _ _ _ _ (wf_set_OnEvicted f _ _ _ (wf_New n w)) Hwf0)
        as [_ ->].
      rewrite map_size_empty. lia. }
  exists (Z.of_nat (length (items c))). split; [by eapply wf_Len_items|].
  rewrite (wf_items_size _ _ _ Hwf). pose proof (Hsz _ _ Hwf). lia.
Qed.

(** A cache created by New(n) with n < 0 keeps nothing: every Add evicts
    the entry it has just put in, so after any sequence of calls the
    cache has no entry, Len() is 0 and every Get misses. *)
Theorem negative_capacity_keeps_nothing
    (n : Z) (f : option (Key → option V → W → W)) (w : W) (h : list (op Key V))
    (c : Cache Key V W) :
  run h (set_OnEvicted f (New n w)) = Some c →
  (n < 0)%Z →
  items c = [] ∧ Len c = Some 0%Z ∧ ∀ k, ¬ hit k c.
Proof.
  intros Hrun Hn.
  destruct (run_New_wf _ _ _ _ _ Hrun) as ((l & m & Hwf) & _ & _).
  assert (MaxEntries c = n ∧ ∀ l m, wf c l m → size m = 0) as [_ Hsz].
  { apply (run_preserves
             (λ c, MaxEntries c = n ∧ ∀ l m, wf c l m → size m = 0)
             h [] (set_OnEvicted f (New n w)) c); [|apply inv_New| |done].
    - intros o c1 c2 l1 m1 Hwf1 [Hmax Hle] Hexec.
      split; [apply exec_params in Hexec as [-> _]; done|].
      intros l2 m2 Hwf2.
      destruct (exec_size _ _ _ _ _ Hwf1 Hexec) as (l' & m' & Hwf' & Hcase).
      destruct (wf_unique _ _ _ _ _ Hwf' Hwf2) as [-> ->].
      pose proof (Hle _ _ Hwf1).
      destruct Hcase as [?|(_ & -> & [?|?])]; lia.
    - split; [done|]. intros l0 m0 Hwf0.
      destruct (wf_unique _ _ _ _ _ (wf_set_OnEvicted f _ _ _ (wf_New n w)) Hwf0)
        as [_ ->].
      apply map_size_empty. }
  assert (items c = []) as Hnil.
  { apply length_zero_iff_nil. rewrite (wf_items_size _ _ _ Hwf). by eapply Hsz. }
  split; [done|]. split.
  - by rewrite (wf_Len_items _ _ _ Hwf), Hnil.
  - intros k. rewrite (wf_items_hit _ _ _ _ Hwf), Hnil. apply not_elem_of_nil.
Qed.


(** For keys that are equal to themselves (no NaN, see [LRUAnyKey]): in
    a cache created by New(n) with n >= 0, after any sequence of calls,
    Get(k) right after Add(k, v) hits and returns [v]. *)
Theorem Add_then_Get_returns_the_value
    (n : Z) (f : option (Key → option V → W → W)) (w : W) (h : list (op Key V))
    (c : Cache Key V W) (k : Key) (v : option V) :
  run h (set_OnEvicted f (New n w)) = Some c →
  (0 ≤ n)%Z →
  ∃ c' c'', Add k v c = Some c' ∧ Get k c' = Some (v, true, c'').
Proof.
  intros Hrun Hn.
  destruct (run_New_wf _ _ _ _ _ Hrun) as ((l & m & Hwf) & Hmax & _).
  assert (∃ c' l' m', Add k v c = Some c' ∧ wf c' l' m' ∧ (k, v) ∈ items c')
    as (c' & l' & m' & Hadd & Hwf' & Hin).
  { destruct (m !! k) as [e|] eqn:Hm.
    - destruct (Add_present_spec _ _ _ _ v _ Hwf Hm) as (c' & Hadd & Hwf' & Hit & _).
      eexists _, _, _. split; [done|]. split; [done|]. rewrite Hit. left.
    - destruct (Add_absent_spec _ _ _ _ v Hwf Hm) as (c' & l' & m' & Hadd & Hwf' & Hcase).
      exists c', l', m'. split; [done|]. split; [done|]. rewrite Hmax in Hcase.
      destruct (bool_decide (n ≠ 0%Z)) eqn:Hne; simpl in Hcase.
      + destruct (bool_decide (Z.of_nat (S (length (items c))) > n)%Z) eqn:Hgt.
        * destruct Hcase as (its & ko & vo & Hits & -> & _).
          apply bool_decide_eq_true in Hne, Hgt.
          destruct its as [|p its]; simpl in Hits.
          -- assert (items c = []) as Hnil by (by injection Hits; destruct (items c)).
             rewrite Hnil in Hgt. simpl in Hgt. lia.
          -- injection Hits as <- _. left.
        * destruct Hcase as (-> & _). left.
      + destruct Hcase as (-> & _). left. }
  apply (wf_items_elem _ _ _ _ _ Hwf') in Hin as (e & Hm' & Hel).
  destruct (Get_wf_hit _ _ _ _ _ Hwf' Hm') as (kv & Hkv & _ & Hget).
  exists c'. eexists. split; [done|]. rewrite Hget.
  by assert (kv = mk_entry k v) as -> by congruence.
Qed.

(** The zero value and the cache [New(0)] makes of it, before the first
    [Add] has allocated the list and the map. *)
Lemma exec_zero_or_New o c1 c2 c1' :
  c1 = c2 ∨ (cache c1 = None ∧ ll c1 = None ∧
           c2 = set_ll (Some []) (set_cache (Some ∅) c1)) →
  exec o c1 = Some c1' →
  ∃ c2', exec o c2 = Some c2' ∧
    (c1' = c2' ∨
     (cache c1' = None ∧ ll c1' = None ∧
      c2' = set_ll (Some []) (set_cache (Some ∅) c1'))).
Proof.
  intros [<-|(Hnil & Hll & ->)] Hexec; [eauto|].
  destruct o as [k v|k|k|]; simpl in *.
  - rewrite (Add_nil _ _ _ Hnil) in Hexec. eauto.
  - unfold Get in *. rewrite Hnil in Hexec. simpl in *. injection Hexec as <-.
    rewrite lookup_empty. simpl. eexists. split; [done|]. by right.
  - unfold Remove in *. rewrite Hnil in Hexec. simpl in *. injection Hexec as <-.
    rewrite lookup_empty. eexists. split; [done|]. by right.
  - unfold RemoveOldest in *. rewrite Hnil in Hexec. simpl in *.
    injection Hexec as <-. eexists. split; [done|]. by right.
Qed.

(** The zero value of Cache behaves as the cache New(0) returns: the same
    sequence of calls on both returns without a panic and leaves the same
    entries in the same order, the same environment (so the callback saw
    the same calls) and the same Len(), and every Get then returns the
    same value and flag on both. *)
Theorem zero_value_behaves_like_New_0
    (f : option (Key → option V → W → W)) (w : W) (h : list (op Key V)) :
  ∃ c1 c2,
    run h (set_OnEvicted f (zero_Cache w)) = Some c1 ∧
    run h (set_OnEvicted f (New 0 w)) = Some c2 ∧
    items c1 = items c2 ∧ env c1 = env c2 ∧ Len c1 = Len c2 ∧
    ∀ k, (λ r, r.1) <$> Get k c1 = (λ r, r.1) <$> Get k c2.
Proof.
  destruct (run_nil_total h (set_OnEvicted f (zero_Cache w)) eq_refl) as [c1 Hrun1].
  assert (∀ h (a b a' : Cache Key V W),
            a = b ∨ (cache a = None ∧ ll a = None ∧
                     b = set_ll (Some []) (set_cache (Some ∅) a)) →
            run h a = Some a' →
            ∃ b', run h b = Some b' ∧
              (a' = b' ∨
               (cache a' = None ∧ ll a' = None ∧
                b' = set_ll (Some []) (set_cache (Some ∅) a'))))
    as Hsim.
  { clear. intros h. induction h as [|o h IH]; intros a b a' HR; simpl.
    - intros [= <-]. eauto.
    - destruct (exec o a) as [a1|] eqn:Ha; simpl; [|done]. intros Hrun.
      destruct (exec_zero_or_New _ _ _ _ HR Ha) as (b1 & -> & HR1). simpl.
      by apply (IH a1). }
  destruct (Hsim h (set_OnEvicted f (zero_Cache w)) (set_OnEvicted f (New 0 w)) c1)
    as (c2 & Hrun2 & HR); [by right|done|].
  exists c1, c2. split; [done|]. split; [done|].
  destruct HR as [<-|(Hnil & Hll & ->)]; [done|].
  split; [by unfold items; simpl; rewrite Hll|]. split; [done|]. split.
  - unfold Len. by rewrite Hnil.
  - intros k. unfold Get. rewrite Hnil. simpl. by rewrite lookup_empty.
Qed.

End Operations.

Lemma entries_keys_distinct_and_found_witness :
  run [OpAdd "a" (Some 1%Z); OpAdd "b" (Some 2%Z); OpAdd "c" (Some 3%Z)]
    (set_OnEvicted (Some log_evictions) (New 0 [])) = Some unbounded_abc ∧
  NoDup (items unbounded_abc).*1 ∧
  Len unbounded_abc = Some (Z.of_nat (length (items unbounded_abc))) ∧
  (∀ k v, (k, v) ∈ items unbounded_abc ↔
     ∃ c', Get k unbounded_abc = Some (v, true, c')) ∧
  (∀ k, k ∉ (items unbounded_abc).*1 →
     Get k unbounded_abc = Some (None, false, unbounded_abc)).
Proof.
  split; [vm_compute; reflexivity|].
  apply (entries_keys_distinct_and_found 0 (Some log_evictions) []
           [OpAdd "a" (Some 1%Z); OpAdd "b" (Some 2%Z); OpAdd "c" (Some 3%Z)]).
  vm_compute; reflexivity.
Defined.

Lemma Get_moves_entry_to_front_witness :
  Get "a" unbounded_abc =
    Some (Some 1%Z, true, set_ll (Some [1; 3; 2]%positive) unbounded_abc) ∧
  items (set_ll (Some [1; 3; 2]%positive) unbounded_abc) =
    ("a", Some 1%Z) :: filter (λ p, p.1 ≠ "a") (items unbounded_abc) ∧
  env (set_ll (Some [1; 3; 2]%positive) unbounded_abc) = env unbounded_abc ∧
  Len (set_ll (Some [1; 3; 2]%positive) unbounded_abc) = Len unbounded_abc.
Proof.
  split; [vm_compute; reflexivity|].
  apply (Get_moves_entry_to_front 0 (Some log_evictions) []
           [OpAdd "a" (Some 1%Z); OpAdd "b" (Some 2%Z); OpAdd "c" (Some 3%Z)]).
  - vm_compute; reflexivity.
  - vm_compute; reflexivity.
Defined.

Lemma Add_existing_key_updates_in_place_witness :
  hit "b" unbounded_abc ∧
  ∃ c', Add "b" (Some 7%Z) unbounded_abc = Some c' ∧
    items c' = ("b", Some 7%Z) :: filter (λ p, p.1 ≠ "b") (items unbounded_abc) ∧
    env c' = env unbounded_abc ∧ Len c' = Len unbounded_abc.
Proof.
  assert (hit "b" unbounded_abc) as Hhit.
  { exists (Some 2%Z), (set_ll (Some [2; 3; 1]%positive) unbounded_abc).
    vm_compute; reflexivity. }
  split; [exact Hhit|].
  apply (Add_existing_key_updates_in_place 0 (Some log_evictions) []
           [OpAdd "a" (Some 1%Z); OpAdd "b" (Some 2%Z); OpAdd "c" (Some 3%Z)]).
  - vm_compute; reflexivity.
  - exact Hhit.
Defined.

Lemma Add_new_key_with_room_goes_in_front_witness :
  ¬ hit "d" unbounded_abc ∧
  ∃ c', Add "d" (Some 4%Z) unbounded_abc = Some c' ∧
    items c' = ("d", Some 4%Z) :: items unbounded_abc ∧ env c' = env unbounded_abc.
Proof.
  assert (¬ hit "d" unbounded_abc) as Hmiss.
  { intros (v & c' & Hget). vm_compute in Hget. discriminate Hget. }
  split; [exact Hmiss|].
  apply (Add_new_key_with_room_goes_in_front 0 (Some log_evictions) []
           [OpAdd "a" (Some 1%Z); OpAdd "b" (Some 2%Z); OpAdd "c" (Some 3%Z)]).
  - vm_compute; reflexivity.
  - exact Hmiss.
  - left; reflexivity.
Defined.

Lemma Add_new_key_when_full_evicts_last_witness :
  ¬ hit "d" (after_abc log_evictions []) ∧
  ∃ c' its ko vo, Add "d" (Some 4%Z) (after_abc log_evictions []) = Some c' ∧
    ("d", Some 4%Z) :: items (after_abc log_evictions []) = its ++ [(ko, vo)] ∧
    items c' = its ∧ env c' = fire (after_abc log_evictions []) ko vo ∧
    Len c' = Len (after_abc log_evictions []).
Proof.
  assert (¬ hit "d" (after_abc log_evictions [])) as Hmiss.
  { intros (v & c' & Hget). vm_compute in Hget. discriminate Hget. }
  split; [exact Hmiss|].
  apply (Add_new_key_when_full_evicts_last 2 (Some log_evictions) []
           [OpAdd "a" (Some 1%Z); OpAdd "b" (Some 2%Z); OpAdd "c" (Some 3%Z)]).
  - vm_compute; reflexivity.
  - exact Hmiss.
  - split; [lia|]. vm_compute. intros Hgt. discriminate Hgt.
Defined.

Lemma RemoveOldest_removes_last_entry_witness :
  run [OpAdd "a" (Some 1%Z); OpAdd "b" (Some 2%Z); OpAdd "c" (Some 3%Z)]
    (set_OnEvicted (Some log_evictions) (New 0 [])) = Some unbounded_abc ∧
  ((items unbounded_abc = [] ∧ RemoveOldest unbounded_abc = Some unbounded_abc) ∨
   (∃ c' its ko vo, items unbounded_abc = its ++ [(ko, vo)] ∧
      RemoveOldest unbounded_abc = Some c' ∧
      items c' = its ∧ env c' = fire unbounded_abc ko vo)).
Proof.
  split; [vm_compute; reflexivity|].
  apply (RemoveOldest_removes_last_entry 0 (Some log_evictions) []
           [OpAdd "a" (Some 1%Z); OpAdd "b" (Some 2%Z); OpAdd "c" (Some 3%Z)]).
  vm_compute; reflexivity.
Defined.

Lemma Len_never_exceeds_positive_capacity_witness :
  run [OpAdd "a" (Some 1%Z); OpAdd "b" (Some 2%Z); OpAdd "c" (Some 3%Z)]
    (set_OnEvicted (Some log_evictions) (New 2 [])) = Some (after_abc log_evictions []) ∧
  ∃ z, Len (after_abc log_evictions []) = Some z ∧ (0 ≤ z ≤ 2)%Z.
Proof.
  split; [vm_compute; reflexivity|].
  apply (Len_never_exceeds_positive_capacity 2 (Some log_evictions) []
           [OpAdd "a" (Some 1%Z); OpAdd "b" (Some 2%Z); OpAdd "c" (Some 3%Z)]).
  - vm_compute; reflexivity.
  - lia.
Defined.

Lemma negative_capacity_keeps_nothing_witness :
  run [OpAdd "a" (Some 1%Z)] (set_OnEvicted (Some log_evictions) (New (-1) []))
    = Some evicted_at_once ∧
  items evicted_at_once = [] ∧ Len evicted_at_once = Some 0%Z ∧
  ∀ k, ¬ hit k evicted_at_once.
Proof.
  split; [vm_compute; reflexivity|].
  apply (negative_capacity_keeps_nothing (-1) (Some log_evictions) []
           [OpAdd "a" (Some 1%Z)]).
  - vm_compute; reflexivity.
  - lia.
Defined.

Lemma Add_then_Get_returns_the_value_witness :
  run [OpAdd "a" (Some 1%Z); OpAdd "b" (Some 2%Z); OpAdd "c" (Some 3%Z)]
    (set_OnEvicted (Some log_evictions) (New 2 [])) = Some (after_abc log_evictions []) ∧
  ∃ c' c'', Add "d" (Some 4%Z) (after_abc log_evictions []) = Some c' ∧
    Get "d" c' = Some (Some 4%Z, true, c'').
Proof.
  split; [vm_compute; reflexivity|].
  apply (Add_then_Get_returns_the_value 2 (Some log_evictions) []
           [OpAdd "a" (Some 1%Z); OpAdd "b" (Some 2%Z); OpAdd "c" (Some 3%Z)]).
  - vm_compute; reflexivity.
  - lia.
Defined.

End LRUFacts.

(* ===================================================================== *)
(** * Keys that are not equal to themselves                               *)
(* ===================================================================== *)

Module LRUAnyKeyFacts.
Import LRUAnyKey.

Section Agreement.
Context {K : Type} `{Countable K} {V W : Type}.
Implicit Types (c : LRU.Cache K V W) (k : K) (v : option V) (e : LRU.Element).

Lemma of_Cache_set_ll c l : of_Cache (LRU.set_ll l c) = set_ll l (of_Cache c).
Proof. done. Qed.

Lemma removeElement_of_Cache e c :
  removeElement e (of_Cache c) = of_Cache <$> LRU.removeElement e c.
Proof.
  unfold removeElement, LRU.removeElement. simpl.
  destruct (LRU.ll c) as [l|]; simpl; [|done].
  rewrite lookup_fmap. destruct (LRU.elems c !! e) as [[k v]|]; simpl; [|done].
  destruct (LRU.OnEvicted c) as [f|]; simpl;
    unfold of_Cache, set_env, set_cache, set_ll; simpl;
    by destruct (LRU.cache c).
Qed.

Lemma RemoveOldest_of_Cache c :
  RemoveOldest (of_Cache c) = of_Cache <$> LRU.RemoveOldest c.
Proof.
  unfold RemoveOldest, LRU.RemoveOldest. simpl.
  destruct (LRU.cache c) as [m|] eqn:Hm; simpl; [|done].
  destruct (LRU.ll c) as [l|] eqn:Hl; simpl; [|done].
  destruct (LRU.Back l) as [ele|]; [|done]. apply removeElement_of_Cache.
Qed.

Lemma of_Cache_pushed c l m k v :
  LRU.ll c = Some l → LRU.cache c = Some m →
  set_cache (Some (mk_gomap (<[k := fresh (dom (of_entry <$> LRU.elems c))]> m) []))
    (set_elems (<[fresh (dom (of_entry <$> LRU.elems c)) := mk_entry (Plain k) v]>
                  (of_entry <$> LRU.elems c))
       (set_ll (Some (LRU.PushFront (fresh (dom (of_entry <$> LRU.elems c))) l))
          (of_Cache c))) =
  of_Cache (LRU.pushed k v c l m).
Proof.
  intros Hl Hm. unfold LRU.pushed, of_Cache; simpl.
  rewrite dom_fmap_L, fmap_insert. done.
Qed.

Lemma Add_of_Cache k v c :
  Add (Plain k) v (of_Cache c) = of_Cache <$> LRU.Add k v c.
Proof.
  assert (∀ c m, LRU.cache c = Some m →
            Add (Plain k) v (of_Cache c) = of_Cache <$> LRU.Add k v c) as Hinit.
  { clear c. intros c m Hm. unfold Add, LRU.Add. simpl. rewrite Hm. simpl.
    rewrite ?Hm. simpl.
    destruct (m !! k) as [ee|] eqn:Hk; simpl.
    - destruct (LRU.ll c) as [l|]; simpl; [|done].
      rewrite lookup_fmap. destruct (LRU.elems c !! ee) as [[k' v']|]; simpl; [|done].
      unfold of_Cache, set_elems, set_ll; simpl. by rewrite Hm, fmap_insert.
    - destruct (LRU.ll c) as [l|] eqn:Hl; simpl; [|done].
      rewrite (of_Cache_pushed c l m k v Hl Hm).
      fold (LRU.pushed k v c l m).
      destruct (bool_decide (LRU.MaxEntries c ≠ 0%Z) &&
                bool_decide (LRU.list_Len (LRU.PushFront (fresh (dom (LRU.elems c))) l)
                             > LRU.MaxEntries c)%Z) eqn:Hfull.
      + rewrite dom_fmap_L, Hfull. apply RemoveOldest_of_Cache.
      + by rewrite dom_fmap_L, Hfull. }
  destruct (LRU.cache c) as [m|] eqn:Hm; [by eapply Hinit|].
  specialize (Hinit (LRU.set_ll (Some []) (LRU.set_cache (Some ∅) c)) ∅ eq_refl).
  rewrite (LRUFacts.Add_nil k v c Hm), <- Hinit.
  unfold Add, of_Cache; simpl. by rewrite Hm.
Qed.

Lemma Get_of_Cache k c :
  Get (Plain k) (of_Cache c) =
    (λ r, (r.1.1, r.1.2, of_Cache r.2)) <$> LRU.Get k c.
Proof.
  unfold Get, LRU.Get. simpl. destruct (LRU.cache c) as [m|]; simpl; [|done].
  destruct (m !! k) as [ele|]; simpl; [|done].
  destruct (LRU.ll c) as [l|]; simpl; [|done].
  rewrite lookup_fmap. by destruct (LRU.elems c !! ele) as [[k' v']|].
Qed.

Lemma Remove_of_Cache k c :
  Remove (Plain k) (of_Cache c) = of_Cache <$> LRU.Remove k c.
Proof.
  unfold Remove, LRU.Remove. simpl. destruct (LRU.cache c) as [m|]; simpl; [|done].
  destruct (m !! k) as [ele|]; simpl; [|done]. apply removeElement_of_Cache.
Qed.

Lemma Len_of_Cache c : Len (of_Cache c) = LRU.Len c.
Proof. unfold Len, LRU.Len. simpl. by destruct (LRU.cache c). Qed.

Lemma exec_of_Cache (o : LRU.op K V) c :
  exec (of_op o) (of_Cache c) = of_Cache <$> LRU.exec o c.
Proof.
  destruct o as [k v|k|k|]; simpl.
  - apply Add_of_Cache.
  - rewrite Get_of_Cache. by destruct (LRU.Get k c) as [[[v b] c']|].
  - apply Remove_of_Cache.
  - apply RemoveOldest_of_Cache.
Qed.

(** On keys that are equal to themselves the cache of this module is the
    cache of [LRU]: the same calls lead from the same cache to the same
    cache, and panic on the one when they do on the other. *)
Lemma run_of_Cache (h : list (LRU.op K V)) c :
  run (of_op <$> h) (of_Cache c) = of_Cache <$> LRU.run h c.
Proof.
  revert c. induction h as [|o h IH]; intros c; [done|]. csimpl.
  rewrite exec_of_Cache. destruct (LRU.exec o c) as [c'|]; simpl; [apply IH|done].
Qed.

Lemma New_of_Cache n (f : option (K → option V → W → W)) w :
  of_Cache (LRU.set_OnEvicted f (LRU.New n w)) =
    set_OnEvicted (of_callback <$> f) (New n w).
Proof. unfold of_Cache, New, set_OnEvicted; simpl. by rewrite fmap_empty. Qed.

End Agreement.

(** C2 as worded fails for a key that is not equal to itself.  On New(0),
    Add(NaN, 1) puts an entry into the sequence that the mapping does not
    find: Get(NaN) misses.  RemoveOldest() then unlinks that entry, and
    the [delete] of line 202 removes nothing: the sequence is empty and
    Len() is 0, while the mapping still holds one entry, which points to
    the unlinked element.  A second Add(NaN, 2) instead of the removal
    gives the sequence two entries with that key. *)
Lemma C2_NaN_key_counterexample :
  ∃ c1 c2 c3 m2,
    run [OpAdd NaN (Some 1%Z)] (New (K := string) 0 tt) = Some c1 ∧
    items c1 = [(NaN, Some 1%Z)] ∧
    Get NaN c1 = Some (None, false, c1) ∧
    run [OpRemoveOldest] c1 = Some c2 ∧
    ll c2 = Some [] ∧ Len c2 = Some 0%Z ∧
    cache c2 = Some m2 ∧ map_len m2 = 1 ∧ lost m2 = [1%positive] ∧
    run [OpAdd NaN (Some 2%Z)] c1 = Some c3 ∧
    items c3 = [(NaN, Some 2%Z); (NaN, Some 1%Z)].
Proof.
  eexists _, _, _, _.
  split; [vm_compute; reflexivity|].
  split; [vm_compute; reflexivity|].
  split; [vm_compute; reflexivity|].
  split; [vm_compute; reflexivity|].
  split; [vm_compute; reflexivity|].
  split; [vm_compute; reflexivity|].
  split; [vm_compute; reflexivity|].
  split; [vm_compute; reflexivity|].
  split; [vm_compute; reflexivity|].
  split; vm_compute; reflexivity.
Qed.

End LRUAnyKeyFacts.
